(** * concurrent-downloader: the chunked download engine of
      [internal/download] (package [download]), embedded in Rocq.

    The development follows the source file top to bottom:

    - Go's [int] (64 bits, two's complement) and the [strconv] / [strings]
      helpers the package calls;
    - the chunk planning arithmetic of [downloadLargeFile];
    - files with a cursor, and [combineChunks];
    - the goroutines of [Download], [downloadLargeFile] and
      [downloadFileForRange] as an interleaving semantics: a scheduler picks
      a goroutine, the goroutine performs its next statement group atomically.

    The outside world (HTTP server, operating system failures, the platform's
    [filepath] functions) is a record [Env] over which every theorem is
    quantified. *)

From Stdlib Require Import ZArith Lia List String Ascii.
From Stdlib.Strings Require Import Byte.
From Stdlib Require Import DecimalString DecimalPos.
From stdpp Require Import base numbers list option gmap strings fin_maps.

Local Open Scope Z_scope.

(** * Part I: the model *)

(** ** Go's [int] *)

Module GoInt.

Definition min_int : Z := - 2 ^ 63.
Definition max_int : Z := 2 ^ 63 - 1.

(** Two's-complement wrap-around of a mathematical integer into [int]. *)
Definition wrap (z : Z) : Z := (z + 2 ^ 63) mod 2 ^ 64 - 2 ^ 63.

Definition in_range (z : Z) : Prop := min_int <= z <= max_int.

Definition add (a b : Z) : Z := wrap (a + b).
Definition sub (a b : Z) : Z := wrap (a - b).
Definition mul (a b : Z) : Z := wrap (a * b).
(** [/] and [%] truncate toward zero; a zero divisor panics and is
    handled by the caller. *)
Definition quo (a b : Z) : Z := wrap (Z.quot a b).
Definition rem (a b : Z) : Z := wrap (Z.rem a b).

End GoInt.

(** ** [strconv] and [strings] *)

(** [strconv.Itoa]: decimal rendering, with a leading minus sign for
    negative numbers. *)
Definition Itoa (z : Z) : string := NilZero.string_of_int (Z.to_int z).

Definition digit_of (a : ascii) : option Z :=
  let n := Z.of_nat (nat_of_ascii a) in
  if (48 <=? n) && (n <=? 57) then Some (n - 48) else None.

Fixpoint parse_digits (s : string) (acc : Z) : option Z :=
  match s with
  | EmptyString => Some acc
  | String a r =>
      match digit_of a with
      | Some d => parse_digits r (10 * acc + d)
      | None => None
      end
  end.

(** [strconv.Atoi]: an optional sign followed by at least one decimal digit;
    [None] stands for the syntax error and for the range error alike. *)
Definition Atoi (s : string) : option Z :=
  let signed (neg : bool) (digits : string) : option Z :=
    match digits with
    | EmptyString => None
    | _ =>
        match parse_digits digits 0 with
        | Some n =>
            let v := if neg then - n else n in
            if (GoInt.min_int <=? v) && (v <=? GoInt.max_int) then Some v else None
        | None => None
        end
    end in
  match s with
  | EmptyString => None
  | String "+"%char r => signed false r
  | String "-"%char r => signed true r
  | _ => signed false s
  end.

(** [strings.Split(s, "/")]: the substrings between the separators, never
    an empty slice. [cur] is the segment read so far. *)
Fixpoint split_slash_aux (s : string) (cur : string) : list string :=
  match s with
  | EmptyString => [cur]
  | String a r =>
      if Ascii.eqb a "/"%char then cur :: split_slash_aux r EmptyString
      else split_slash_aux r (cur +:+ String a EmptyString)
  end.

Definition strings_Split_slash (s : string) : list string :=
  split_slash_aux s EmptyString.

(** [subStringsSlice[len(subStringsSlice)-1]] of [Download]. *)
Definition url_fileName (fileUri : string) : string :=
  List.last (strings_Split_slash fileUri) EmptyString.

(** ** Errors

    One constructor per place of the source that builds an error value. *)
Inductive error : Type :=
| ErrHead (fileUrl : string)                     (* http.Head failed *)
| ErrHeadStatus (status : Z) (fileUrl : string)  (* HEAD status is not 200 *)
| ErrContentLength                               (* strconv.Atoi failed *)
| ErrCheckingSize                                (* Download, probe failed *)
| ErrProcessing                                  (* Download, d.err seen set *)
| ErrFileExists (path : string)                  (* createOutputFile, os.Stat *)
| ErrCreatingFile                                (* createOutputFile, os.Create *)
| ErrCreateTemp                                  (* os.CreateTemp failed *)
| ErrDownloadingRange (cause : error)            (* downloadLargeFile wraps d.err *)
| ErrNewRequest                                  (* http.NewRequest failed *)
| ErrClientDo                                    (* client.Do failed *)
| ErrStatusCode (status : Z)                     (* GET status not 200 / 206 *)
| ErrCopyResponse                                (* io.Copy into the part file *)
| ErrCopyChunk (i : Z).                          (* io.Copy in combineChunks *)

(** ** Chunk planning ([downloadLargeFile], the arithmetic on
       [contentLength]) *)

Definition threshold : Z := 1024 * 1024 * 10.

Record Plan : Type := {
  numConcParts : Z;
  totalBytesPerGoroutine : Z;
  lastByteLeft : Z }.

(** The [if contentLength <= (1024 * 1024 * 10)] statement. [None] is the
    run-time panic of an integer division by zero. *)
Definition planning (contentLength P : Z) : option Plan :=
  if contentLength <=? threshold then
    Some {| numConcParts := 1; totalBytesPerGoroutine := 0;
            lastByteLeft := contentLength |}
  else if P =? 0 then None
  else
    Some {| numConcParts := P;
            totalBytesPerGoroutine := GoInt.quo contentLength P;
            lastByteLeft := GoInt.rem contentLength P |}.

(** [min] and [max] of loop iteration [i]. *)
Definition chunk_bounds (pl : Plan) (i : Z) : Z * Z :=
  let min := GoInt.mul (totalBytesPerGoroutine pl) i in
  let max := GoInt.sub (GoInt.mul (totalBytesPerGoroutine pl) (GoInt.add i 1)) 1 in
  let max :=
    if (i =? GoInt.sub (numConcParts pl) 1) && (0 <? lastByteLeft pl)
    then GoInt.add max (lastByteLeft pl) else max in
  (min, max).

(** The [byteRange] argument handed to [downloadFileForRange]. *)
Definition byteRange_of (bounds : Z * Z) : string :=
  Itoa (fst bounds) +:+ "-" +:+ Itoa (snd bounds).

(** [for i := 0; i < numConcParts; i++]: the bounds computed by the
    iterations, in order. *)
Fixpoint plan_loop (fuel : nat) (pl : Plan) (i : Z) : list (Z * Z) :=
  match fuel with
  | O => []
  | S fuel' =>
      if i <? numConcParts pl
      then chunk_bounds pl i :: plan_loop fuel' pl (GoInt.add i 1)
      else []
  end.

Definition chunk_ranges (pl : Plan) : list (Z * Z) :=
  plan_loop (Z.to_nat (numConcParts pl)) pl 0.

(** The ranges planned for a file of [contentLength] bytes under
    [NumConcParts = P]. *)
Definition planned_ranges (contentLength P : Z) : option (list (Z * Z)) :=
  chunk_ranges <$> planning contentLength P.

(** [request.Header.Add("Range", "bytes="+byteRange)] under its guard. *)
Definition request_headers (byteRange : string) : list (string * string) :=
  if String.eqb byteRange "" then []
  else [("Range"%string, "bytes=" +:+ byteRange)].

(** ** Files

    A part file is an [*os.File] opened by [os.CreateTemp]: its bytes, the
    cursor shared by reads and writes, and whether it has been closed or
    unlinked. Part files are kept in a store indexed by creation order
    ([os.CreateTemp] never returns an existing name); output files live in a
    map from path to contents. *)

Record TempFile : Type := {
  t_data : list byte;
  t_pos : nat;
  t_closed : bool;
  t_removed : bool }.

Record Disk : Type := {
  files : gmap string (list byte);
  temps : list TempFile }.

Definition new_temp : TempFile :=
  {| t_data := []; t_pos := 0%nat; t_closed := false; t_removed := false |}.

(** A write of [b] at offset [pos]; a gap past the end reads as zeros, and
    an empty write leaves the file as it is. *)
Definition write_at (data : list byte) (pos : nat) (b : list byte) : list byte :=
  match b with
  | [] => data
  | _ :: _ =>
      take pos data ++ replicate (pos - length data)%nat x00 ++ b
        ++ drop (pos + length b)%nat data
  end.

(** [f.Write(b)] at the cursor. *)
Definition file_Write (t : TempFile) (b : list byte) : TempFile :=
  {| t_data := write_at (t_data t) (t_pos t) b;
     t_pos := (t_pos t + length b)%nat;
     t_closed := t_closed t; t_removed := t_removed t |}.

(** [handle.Seek(0, 0)]. *)
Definition file_Seek0 (t : TempFile) : TempFile :=
  {| t_data := t_data t; t_pos := 0%nat;
     t_closed := t_closed t; t_removed := t_removed t |}.

(** Reading from the cursor to the end of the file, as [io.Copy] does with
    its source. *)
Definition file_ReadAll (t : TempFile) : list byte * TempFile :=
  (drop (t_pos t) (t_data t),
   {| t_data := t_data t; t_pos := Nat.max (t_pos t) (length (t_data t));
      t_closed := t_closed t; t_removed := t_removed t |}).

(** The deferred [os.Remove(f.Name())] followed by [f.Close()]. *)
Definition file_RemoveClose (t : TempFile) : TempFile :=
  {| t_data := t_data t; t_pos := t_pos t; t_closed := true; t_removed := true |}.

(** ** The outside world *)

Inductive HeadResult : Type :=
| HeadFailed
| HeadResponse (status : Z) (contentLength : string).

Inductive GetResult : Type :=
| GetFailed
| GetResponse (status : Z) (body : list byte) (readError : bool).

Record Env : Type := {
  (** [filepath.Join] and [filepath.Base] of the platform *)
  filepath_Join : string -> string -> string;
  filepath_Base : string -> string;
  (** [http.Head]: transport failure, or status and [Content-Length]
      header (empty when the server sends none) *)
  http_Head : string -> HeadResult;
  (** [http.NewRequest] rejects the URL *)
  http_NewRequest_fails : string -> bool;
  (** [client.Do] on a GET with the given headers: transport failure, or
      status, body and whether reading the body ends in an error *)
  client_Do : string -> list (string * string) -> GetResult;
  (** [os.Stat] fails with an error other than "not exist" *)
  os_Stat_fails : string -> bool;
  os_Create_fails : string -> bool;
  (** [os.CreateTemp] fails for this pattern, given the number of part
      files created so far *)
  os_CreateTemp_fails : string -> nat -> bool;
  (** writing chunk [i] into the output file fails *)
  os_Write_fails : string -> Z -> bool }.

(** ** [checkFileSizeWithHeaderContentLength] *)
Definition checkFileSizeWithHeaderContentLength (env : Env) (fileUrl : string)
  : error + Z :=
  match http_Head env fileUrl with
  | HeadFailed => inl (ErrHead fileUrl)
  | HeadResponse status header =>
      if negb (status =? 200) then inl (ErrHeadStatus status fileUrl)
      else if String.eqb header "" then inr 0
      else match Atoi header with
           | None => inl ErrContentLength
           | Some size => inr size
           end
  end.

(** ** [combineChunks] *)

Record Combine : Type := {
  cb_disk : Disk;
  cb_outPos : nat;     (* cursor of [outFile] *)
  cb_w : Z }.          (* [w], the bytes written so far *)

(** One iteration of the loop body for index [i]: the handle looked up in
    the map, rewound, and copied to the output at its cursor. A missing key
    yields a nil handle, on which (as on a closed one) [io.Copy] fails. *)
Definition combine_chunk (env : Env) (fileChunks : gmap Z nat) (path : string)
    (i : Z) (st : Combine) : Combine * option error :=
  match fileChunks !! i with
  | None => (st, Some (ErrCopyChunk i))
  | Some h =>
      match temps (cb_disk st) !! h with
      | None => (st, Some (ErrCopyChunk i))
      | Some t =>
          if t_closed t then (st, Some (ErrCopyChunk i))
          else
            let '(bytes, t') := file_ReadAll (file_Seek0 t) in
            let temps' := <[h := t']> (temps (cb_disk st)) in
            if os_Write_fails env path i then
              ({| cb_disk := {| files := files (cb_disk st); temps := temps' |};
                  cb_outPos := cb_outPos st; cb_w := cb_w st |},
               Some (ErrCopyChunk i))
            else
              let old := default [] (files (cb_disk st) !! path) in
              ({| cb_disk :=
                    {| files := <[path := write_at old (cb_outPos st) bytes]>
                                  (files (cb_disk st));
                       temps := temps' |};
                  cb_outPos := (cb_outPos st + length bytes)%nat;
                  cb_w := GoInt.add (cb_w st) (Z.of_nat (length bytes)) |},
               None)
      end
  end.

(** [for i := 0; i < len(fileChunks); i++]. *)
Fixpoint combine_loop (fuel : nat) (env : Env) (fileChunks : gmap Z nat)
    (path : string) (i : Z) (st : Combine) : Combine * option error :=
  match fuel with
  | O => (st, None)
  | S fuel' =>
      if i <? Z.of_nat (size fileChunks) then
        match combine_chunk env fileChunks path i st with
        | (st', Some e) => (st', Some e)
        | (st', None) => combine_loop fuel' env fileChunks path (GoInt.add i 1) st'
        end
      else (st, None)
  end.

Definition combineChunks (env : Env) (fileChunks : gmap Z nat) (path : string)
    (outPos : nat) (dk : Disk) : Combine * option error :=
  combine_loop (size fileChunks) env fileChunks path 0
    {| cb_disk := dk; cb_outPos := outPos; cb_w := 0 |}.

(** ** The [Downloader] and its goroutines

    Granularity. Steps of different goroutines interleave freely and
    memory is sequentially consistent. A step of a goroutine is one
    operation on shared state (a channel operation, a WaitGroup operation,
    a read or a write of a [Downloader] field, a system call, an HTTP
    exchange) together with the goroutine-local computation around it,
    with these mergers:
    - launching a goroutine is part of the step that precedes the [go]
      statement (the new goroutine cannot run before it exists):
      [Download] probes a URL, adds to [wg] and launches the job in one
      step; [downloadLargeFile] sends on [waitchan], adds to [wg1] and
      launches the fetch in one step ([wg1] is known to no other goroutine
      before the launch);
    - an operation that fails is one step with the store of its error to
      [d.err] and the [return] that follows; so is the test
      [d.err != nil] after the loop of [downloadLargeFile] with the store
      of the wrapped error;
    - a [return] is one step with the deferred calls that it runs,
      [wg.Done()] last, as long as none of them can block; the last
      statement of [downloadLargeFile], the store to [d.downloadPaths], is
      one step with the [return] behind it;
    - [wg.Wait()] of [Download] is one step with the read of
      [d.downloadPaths] for the [return] that follows (once every job of a
      call is done, the counter of the call stays at zero);
    - [downloadFileForRange] builds the request and performs the exchange
      in one step, and tests the status and copies the body in one step;
    - [combineChunks] runs in one step.
    Kept apart, in the order of the source: the read and the write of
    [d.downloadPaths = append(d.downloadPaths, ...)], which no lock
    protects; and the deferred calls of a fetch that has a response, the
    receive [<- waitchan] first, [response.Body.Close()] second,
    [wg.Done()] last.

    Slices. [d.downloadPaths] is modelled by its value, a list of paths:
    [append] on a value that was read yields that value with one more
    element.

    Channels. [waitChan] carries [struct{}{}] values, so only the number of
    buffered elements matters. A send is enabled while that number is below
    the capacity, a receive while it is positive. With capacity 0 a send
    would need a receiver waiting on the same channel; the only receivers
    are range fetches, and a range fetch exists only after a send on that
    channel has completed, so no send ever completes: "never enabled" is
    the behaviour of the unbuffered channel here as well.

    Calls. Every call of [Download] allocates its own [wg] and [waitChan];
    goroutines of an earlier call can still be running when the next call
    starts, so the state keeps one record per call. *)

Record DownloadOptions : Type := {
  DownloadDir : string;
  NumConcParts : Z;
  MaxLimitConcurrency : Z }.

Record Downloader : Type := {
  err : option error;
  downloadOptions : DownloadOptions;
  downloadPaths : list string }.

Definition NewDownloader (opts : DownloadOptions) : Downloader :=
  {| err := None; downloadOptions := opts; downloadPaths := [] |}.

(** Program points of [downloadFileForRange]. *)
Inductive FetchPC : Type :=
| FRequest                                               (* entry: NewRequest, client.Do *)
| FResponse (status : Z) (body : list byte) (readError : bool) (* status test, io.Copy *)
| FDeferred                                              (* the deferred [<- waitchan] *)
| FClosing                                               (* the deferred [response.Body.Close()] *)
| FDone                                                  (* the deferred [wg.Done()] *)
| FReturned.

Record Fetcher : Type := {
  f_job : nat;             (* the [downloadLargeFile] that launched it: owner of [wg1] *)
  f_url : string;
  f_byteRange : string;
  f_file : nat;            (* the part file handle *)
  f_pc : FetchPC }.

(** Program points of [downloadLargeFile]. *)
Inductive JobPC : Type :=
| JStat                    (* createOutputFile: os.Stat *)
| JCreate                  (* createOutputFile: os.Create; then the planning *)
| JLoop                    (* loop test, bounds, os.CreateTemp *)
| JSend (bounds : Z * Z) (f : nat)   (* [waitchan <- struct{}{}], then [go] *)
| JCheckErr                (* [if d.err != nil] after the loop *)
| JWait                    (* [wg1.Wait()] *)
| JCombine                 (* [d.combineChunks] *)
| JAppend                  (* [append(d.downloadPaths, ...)]: the read of the field *)
| JStore (paths : list string)   (* [d.downloadPaths = ...]: the write; [return] *)
| JReturned.

Record Job : Type := {
  j_url : string;
  j_fileName : string;
  j_contentLength : Z;
  j_pc : JobPC;
  j_outPos : nat;              (* cursor of [outFile] *)
  j_plan : Plan;               (* numConcParts, totalBytesPerGoroutine, lastByteLeft *)
  j_i : Z;
  j_index : Z;
  j_fileChunks : gmap Z nat;
  j_deferred : list nat;       (* part files with a deferred Close and Remove *)
  j_wg1 : nat }.

(** What one call of [Download] allocates: [waitChan] (the number of
    buffered elements; its capacity is [MaxLimitConcurrency]), [wg], and the
    goroutines launched on its behalf. *)
Record Call : Type := {
  c_waitChan : nat;
  c_wg : nat;
  c_jobs : list Job;
  c_fetchers : list Fetcher }.

(** Program points of [Download]; [c] is the call's entry in [calls]. *)
Inductive MainPC : Type :=
| MIdle                                   (* between calls *)
| MLoop (c : nat) (fileUrls : list string)  (* loop head: probe, wg.Add, go *)
| MCheck (c : nat) (fileUrls : list string) (* [if d.err != nil] *)
| MWait (c : nat).                         (* [wg.Wait()] *)

Definition Result : Type := list string * option error.

(** The caller performs the [pending] calls of [Download] one after the
    other on the same [Downloader] and collects what they return. *)
Record State : Type := {
  d : Downloader;
  crashed : bool;               (* an unrecovered panic ended the process *)
  m_pc : MainPC;
  pending : list (list string);
  results : list Result;
  calls : list Call;
  disk : Disk }.

Inductive Tid : Type :=
| TMain
| TJob (c j : nat)
| TFetch (c k : nat).

Definition init (dl : Downloader) (dk : Disk) (program : list (list string)) : State :=
  {| d := dl; crashed := false; m_pc := MIdle; pending := program;
     results := []; calls := []; disk := dk |}.

(** *** Field updates *)

Definition set_d (dl : Downloader) (s : State) : State :=
  {| d := dl; crashed := crashed s; m_pc := m_pc s; pending := pending s;
     results := results s; calls := calls s; disk := disk s |}.
Definition set_err (e : error) (s : State) : State :=
  set_d {| err := Some e; downloadOptions := downloadOptions (d s);
           downloadPaths := downloadPaths (d s) |} s.
Definition set_paths (ps : list string) (s : State) : State :=
  set_d {| err := err (d s); downloadOptions := downloadOptions (d s);
           downloadPaths := ps |} s.
Definition crash (s : State) : State :=
  {| d := d s; crashed := true; m_pc := m_pc s; pending := pending s;
     results := results s; calls := calls s; disk := disk s |}.
Definition set_main (pc : MainPC) (s : State) : State :=
  {| d := d s; crashed := crashed s; m_pc := pc; pending := pending s;
     results := results s; calls := calls s; disk := disk s |}.
Definition set_pending (p : list (list string)) (s : State) : State :=
  {| d := d s; crashed := crashed s; m_pc := m_pc s; pending := p;
     results := results s; calls := calls s; disk := disk s |}.
Definition set_calls (cs : list Call) (s : State) : State :=
  {| d := d s; crashed := crashed s; m_pc := m_pc s; pending := pending s;
     results := results s; calls := cs; disk := disk s |}.
Definition set_disk (dk : Disk) (s : State) : State :=
  {| d := d s; crashed := crashed s; m_pc := m_pc s; pending := pending s;
     results := results s; calls := calls s; disk := dk |}.
(** [return paths, e] of [Download]. *)
Definition main_return (r : Result) (s : State) : State :=
  {| d := d s; crashed := crashed s; m_pc := MIdle; pending := pending s;
     results := results s ++ [r]; calls := calls s; disk := disk s |}.
Definition put_call (c : nat) (call : Call) (s : State) : State :=
  set_calls (<[c := call]> (calls s)) s.

Definition set_waitChan (n : nat) (call : Call) : Call :=
  {| c_waitChan := n; c_wg := c_wg call; c_jobs := c_jobs call;
     c_fetchers := c_fetchers call |}.
Definition set_wg (n : nat) (call : Call) : Call :=
  {| c_waitChan := c_waitChan call; c_wg := n; c_jobs := c_jobs call;
     c_fetchers := c_fetchers call |}.
Definition set_jobs (js : list Job) (call : Call) : Call :=
  {| c_waitChan := c_waitChan call; c_wg := c_wg call; c_jobs := js;
     c_fetchers := c_fetchers call |}.
Definition set_fetchers (fs : list Fetcher) (call : Call) : Call :=
  {| c_waitChan := c_waitChan call; c_wg := c_wg call; c_jobs := c_jobs call;
     c_fetchers := fs |}.
Definition put_job (j : nat) (job : Job) (call : Call) : Call :=
  set_jobs (<[j := job]> (c_jobs call)) call.
Definition put_fetcher (k : nat) (f : Fetcher) (call : Call) : Call :=
  set_fetchers (<[k := f]> (c_fetchers call)) call.

Definition job_at (pc : JobPC) (job : Job) : Job :=
  {| j_url := j_url job; j_fileName := j_fileName job;
     j_contentLength := j_contentLength job; j_pc := pc;
     j_outPos := j_outPos job; j_plan := j_plan job; j_i := j_i job;
     j_index := j_index job; j_fileChunks := j_fileChunks job;
     j_deferred := j_deferred job; j_wg1 := j_wg1 job |}.
Definition job_wg1 (n : nat) (job : Job) : Job :=
  {| j_url := j_url job; j_fileName := j_fileName job;
     j_contentLength := j_contentLength job; j_pc := j_pc job;
     j_outPos := j_outPos job; j_plan := j_plan job; j_i := j_i job;
     j_index := j_index job; j_fileChunks := j_fileChunks job;
     j_deferred := j_deferred job; j_wg1 := n |}.
Definition fetcher_at (pc : FetchPC) (f : Fetcher) : Fetcher :=
  {| f_job := f_job f; f_url := f_url f; f_byteRange := f_byteRange f;
     f_file := f_file f; f_pc := pc |}.

(** [wg.Done()]: a counter that would become negative panics. *)
Definition wg_Done (n : nat) : option nat :=
  match n with O => None | S n' => Some n' end.

(** The goroutine started by [go d.downloadLargeFile(...)]. *)
Definition new_job (fileUri fileName : string) (contentLength : Z) : Job :=
  {| j_url := fileUri; j_fileName := fileName; j_contentLength := contentLength;
     j_pc := JStat; j_outPos := 0%nat;
     j_plan := {| numConcParts := 0; totalBytesPerGoroutine := 0; lastByteLeft := 0 |};
     j_i := 0; j_index := 0; j_fileChunks := ∅; j_deferred := []; j_wg1 := 0%nat |}.

Definition new_call : Call :=
  {| c_waitChan := 0%nat; c_wg := 0%nat; c_jobs := []; c_fetchers := [] |}.

(** [outputFilePath] of [downloadLargeFile]. *)
Definition outputFilePath (env : Env) (opts : DownloadOptions) (fileName : string)
  : string :=
  filepath_Join env (DownloadDir opts) (filepath_Base env fileName).

(** *** [Download] *)

Definition step_main (env : Env) (s : State) : option State :=
  match m_pc s with
  | MIdle =>
      match pending s with
      | [] => None
      | fileUrls :: rest =>
          (* wg := &sync.WaitGroup{};
             waitChan := make(chan struct{}, MaxLimitConcurrency):
             a negative size panics *)
          if MaxLimitConcurrency (downloadOptions (d s)) <? 0 then Some (crash s)
          else Some (set_main (MLoop (length (calls s)) fileUrls)
                       (set_pending rest (set_calls (calls s ++ [new_call]) s)))
      end
  | MLoop c [] => Some (set_main (MWait c) s)
  | MLoop c (fileUri :: rest) =>
      let fileName := url_fileName fileUri in
      match checkFileSizeWithHeaderContentLength env fileUri with
      | inl _ => Some (main_return ([], Some ErrCheckingSize) s)
      | inr fileSize =>
          (* wg.Add(1); go d.downloadLargeFile(wg, fileUri, fileName, ...) *)
          call ← calls s !! c;
          Some (set_main (MCheck c rest)
                  (put_call c
                     (set_jobs (c_jobs call ++ [new_job fileUri fileName fileSize])
                        (set_wg (S (c_wg call)) call)) s))
      end
  | MCheck c rest =>
      match err (d s) with
      | Some _ => Some (main_return ([], Some ErrProcessing) s)
      | None => Some (set_main (MLoop c rest) s)
      end
  | MWait c =>
      call ← calls s !! c;
      match c_wg call with
      | O => Some (main_return (downloadPaths (d s), None) s)
      | S _ => None
      end
  end.

(** *** [downloadLargeFile] *)

(** The deferred calls run last-registered first. *)
Definition run_deferred (hs : list nat) (ts : list TempFile) : list TempFile :=
  foldr (fun h acc => alter file_RemoveClose h acc) ts hs.

(** [return]: the deferred removals and closes of the part files, then
    [wg.Done()]. *)
Definition job_return (c j : nat) (call : Call) (job : Job) (s : State) : State :=
  match wg_Done (c_wg call) with
  | None => crash s
  | Some n =>
      set_disk {| files := files (disk s);
                  temps := run_deferred (j_deferred job) (temps (disk s)) |}
        (put_call c (put_job j (job_at JReturned job) (set_wg n call)) s)
  end.

Definition job_start_loop (pl : Plan) (job : Job) : Job :=
  {| j_url := j_url job; j_fileName := j_fileName job;
     j_contentLength := j_contentLength job; j_pc := JLoop;
     j_outPos := 0%nat; j_plan := pl; j_i := 0; j_index := 0;
     j_fileChunks := ∅; j_deferred := j_deferred job; j_wg1 := j_wg1 job |}.

Definition job_new_chunk (bounds : Z * Z) (h : nat) (job : Job) : Job :=
  {| j_url := j_url job; j_fileName := j_fileName job;
     j_contentLength := j_contentLength job; j_pc := JSend bounds h;
     j_outPos := j_outPos job; j_plan := j_plan job; j_i := j_i job;
     j_index := j_index job;
     j_fileChunks := <[j_index job := h]> (j_fileChunks job);
     j_deferred := j_deferred job ++ [h]; j_wg1 := j_wg1 job |}.

Definition job_spawned (job : Job) : Job :=
  {| j_url := j_url job; j_fileName := j_fileName job;
     j_contentLength := j_contentLength job; j_pc := JLoop;
     j_outPos := j_outPos job; j_plan := j_plan job;
     j_i := GoInt.add (j_i job) 1; j_index := GoInt.add (j_index job) 1;
     j_fileChunks := j_fileChunks job; j_deferred := j_deferred job;
     j_wg1 := S (j_wg1 job) |}.

Definition job_combined (outPos : nat) (job : Job) : Job :=
  {| j_url := j_url job; j_fileName := j_fileName job;
     j_contentLength := j_contentLength job; j_pc := JAppend;
     j_outPos := outPos; j_plan := j_plan job; j_i := j_i job;
     j_index := j_index job; j_fileChunks := j_fileChunks job;
     j_deferred := j_deferred job; j_wg1 := j_wg1 job |}.

Definition step_job (env : Env) (s : State) (c j : nat) : option State :=
  call ← calls s !! c;
  job ← c_jobs call !! j;
  let opts := downloadOptions (d s) in
  let path := outputFilePath env opts (j_fileName job) in
  let goto (pc : JobPC) := Some (put_call c (put_job j (job_at pc job) call) s) in
  match j_pc job with
  | JStat =>
      (* if _, err := os.Stat(path); !os.IsNotExist(err) *)
      if bool_decide (is_Some (files (disk s) !! path)) || os_Stat_fails env path
      then Some (job_return c j call job (set_err (ErrFileExists path) s))
      else goto JCreate
  | JCreate =>
      if os_Create_fails env path
      then Some (job_return c j call job (set_err ErrCreatingFile s))
      else
        let s1 := set_disk {| files := <[path := []]> (files (disk s));
                              temps := temps (disk s) |} s in
        match planning (j_contentLength job) (NumConcParts opts) with
        | None => Some (crash s1)
        | Some pl => Some (put_call c (put_job j (job_start_loop pl job) call) s1)
        end
  | JLoop =>
      if j_i job <? numConcParts (j_plan job) then
        let bounds := chunk_bounds (j_plan job) (j_i job) in
        let h := length (temps (disk s)) in
        if os_CreateTemp_fails env (j_fileName job +:+ ".*.part") h
        then Some (job_return c j call job (set_err ErrCreateTemp s))
        else
          Some (put_call c (put_job j (job_new_chunk bounds h job) call)
                  (set_disk {| files := files (disk s);
                               temps := temps (disk s) ++ [new_temp] |} s))
      else goto JCheckErr
  | JSend bounds h =>
      (* the send blocks while the channel is full *)
      if Z.of_nat (c_waitChan call) <? MaxLimitConcurrency opts then
        let f := {| f_job := j; f_url := j_url job;
                    f_byteRange := byteRange_of bounds; f_file := h;
                    f_pc := FRequest |} in
        Some (put_call c
                (set_fetchers (c_fetchers call ++ [f])
                   (set_waitChan (S (c_waitChan call))
                      (put_job j (job_spawned job) call))) s)
      else None
  | JCheckErr =>
      match err (d s) with
      | Some e => Some (job_return c j call job (set_err (ErrDownloadingRange e) s))
      | None => goto JWait
      end
  | JWait =>
      match j_wg1 job with
      | O => goto JCombine
      | S _ => None
      end
  | JCombine =>
      let '(st, r) := combineChunks env (j_fileChunks job) path (j_outPos job) (disk s) in
      let s1 := set_disk (cb_disk st) s in
      let job1 := job_combined (cb_outPos st) job in
      match r with
      | Some e => Some (job_return c j call job1 (set_err e s1))
      | None => Some (put_call c (put_job j job1 call) s1)
      end
  | JAppend =>
      (* the argument of [append]: the slice as it stands now *)
      goto (JStore (downloadPaths (d s)))
  | JStore paths =>
      (* the store of the appended slice; nothing was re-read *)
      Some (job_return c j call job (set_paths (paths ++ [path]) s))
  | JReturned => None
  end.

(** *** [downloadFileForRange] *)

(** [return] with only [wg.Done()] deferred ([wg] is the launching job's
    [wg1]). *)
Definition fetch_return (c k : nat) (call : Call) (f : Fetcher) (s : State) : State :=
  match c_jobs call !! f_job f with
  | None => crash s
  | Some job =>
      match wg_Done (j_wg1 job) with
      | None => crash s
      | Some n =>
          put_call c
            (put_fetcher k (fetcher_at FReturned f)
               (put_job (f_job f) (job_wg1 n job) call)) s
      end
  end.

Definition step_fetch (env : Env) (s : State) (c k : nat) : option State :=
  call ← calls s !! c;
  f ← c_fetchers call !! k;
  let goto_deferred (s' : State) :=
    Some (put_call c (put_fetcher k (fetcher_at FDeferred f) call) s') in
  match f_pc f with
  | FRequest =>
      if http_NewRequest_fails env (f_url f)
      then Some (fetch_return c k call f (set_err ErrNewRequest s))
      else
        match client_Do env (f_url f) (request_headers (f_byteRange f)) with
        | GetFailed => Some (fetch_return c k call f (set_err ErrClientDo s))
        | GetResponse status body readError =>
            (* defer response.Body.Close(); defer func() { <- waitchan }() *)
            Some (put_call c
                    (put_fetcher k (fetcher_at (FResponse status body readError) f) call) s)
        end
  | FResponse status body readError =>
      if negb (status =? 200) && negb (status =? 206)
      then goto_deferred (set_err (ErrStatusCode status) s)
      else
        (* io.Copy(file, response.Body): nothing is written for an empty body *)
        match body, temps (disk s) !! f_file f with
        | _ :: _, Some t =>
            if t_closed t then goto_deferred (set_err ErrCopyResponse s)
            else
              let s1 := set_disk {| files := files (disk s);
                                    temps := <[f_file f := file_Write t body]>
                                               (temps (disk s)) |} s in
              if readError then goto_deferred (set_err ErrCopyResponse s1)
              else goto_deferred s1
        | _ :: _, None => goto_deferred (set_err ErrCopyResponse s)
        | [], _ =>
            if readError then goto_deferred (set_err ErrCopyResponse s)
            else goto_deferred s
        end
  | FDeferred =>
      (* the receive blocks while the channel is empty *)
      match c_waitChan call with
      | O => None
      | S n =>
          Some (put_call c
                  (put_fetcher k (fetcher_at FClosing f) (set_waitChan n call)) s)
      end
  | FClosing =>
      (* response.Body.Close(): the permit is back, the response still open *)
      Some (put_call c (put_fetcher k (fetcher_at FDone f) call) s)
  | FDone => Some (fetch_return c k call f s)
  | FReturned => None
  end.

(** *** The scheduler *)

(** One step of goroutine [t]; [None] when it is blocked, has returned, or
    the process has died. *)
Definition step (env : Env) (s : State) (t : Tid) : option State :=
  if crashed s then None
  else match t with
       | TMain => step_main env s
       | TJob c j => step_job env s c j
       | TFetch c k => step_fetch env s c k
       end.

(** A schedule names the goroutine to run next; a goroutine that cannot
    move leaves the state as it is. *)
Fixpoint run (env : Env) (sched : list Tid) (s : State) : State :=
  match sched with
  | [] => s
  | t :: sched' => run env sched' (default s (step env s t))
  end.

(** The number of elements of [l] that satisfy [P]. *)
Definition count_if {A : Type} (P : A -> bool) (l : list A) : nat :=
  length (filter (fun a => P a = true) l).
Arguments count_if : simpl never.

(** A range fetch whose goroutine is alive: launched and not yet returned. *)
Definition fetch_active (f : Fetcher) : bool :=
  match f_pc f with
  | FReturned => false
  | _ => true
  end.

Definition alive (call : Call) : nat := count_if fetch_active (c_fetchers call).

(** A range fetch that holds a permit: from its launch, which follows the
    send of its job, up to its deferred receive. The HTTP exchange and the
    copy of the body fall into this span. (A fetch that returned without
    its deferred receive holds nothing, although its permit stays in the
    channel.) *)
Definition holds_permit (f : Fetcher) : bool :=
  match f_pc f with
  | FRequest | FResponse _ _ _ | FDeferred => true
  | FClosing | FDone | FReturned => false
  end.

(** The range fetches of a call that are in flight: those holding a
    permit. *)
Definition in_flight (call : Call) : nat := count_if holds_permit (c_fetchers call).

(** A range fetch with a response that it has not closed yet. *)
Definition response_open (f : Fetcher) : bool :=
  match f_pc f with
  | FResponse _ _ _ | FDeferred | FClosing => true
  | FRequest | FDone | FReturned => false
  end.

Definition open_responses (call : Call) : nat :=
  count_if response_open (c_fetchers call).

(** ** Vocabulary of the statements *)

(** Byte [x] lies in the inclusive range [r]. *)
Definition covers (r : Z * Z) (x : Z) : Prop := fst r <= x <= snd r.

(** Each range starts right after its predecessor ends. *)
Definition contiguous (rs : list (Z * Z)) : Prop :=
  forall (i : nat) r r', rs !! i = Some r -> rs !! S i = Some r' ->
    fst r' = snd r + 1.

(** No byte lies in two ranges. *)
Definition non_overlapping (rs : list (Z * Z)) : Prop :=
  forall (i j : nat) r r' x, rs !! i = Some r -> rs !! j = Some r' ->
    covers r x -> covers r' x -> i = j.

(** Starts and ends grow with the index. *)
Definition strictly_increasing (rs : list (Z * Z)) : Prop :=
  forall (i : nat) r r', rs !! i = Some r -> rs !! S i = Some r' ->
    fst r < fst r' /\ snd r < snd r'.

Definition non_decreasing (rs : list (Z * Z)) : Prop :=
  forall (i : nat) r r', rs !! i = Some r -> rs !! S i = Some r' ->
    fst r <= fst r' /\ snd r <= snd r'.

(** The bytes covered are exactly those of [[0, L)]. *)
Definition covers_exactly (rs : list (Z * Z)) (L : Z) : Prop :=
  forall x, 0 <= x < L <-> exists (i : nat) r, rs !! i = Some r /\ covers r x.

(** Range [i] of [P] as the planner's closed form gives it. *)
Definition range_formula (L P i : Z) : Z * Z :=
  (i * (L / P),
   (i + 1) * (L / P) - 1 + (if decide (i = P - 1) then L mod P else 0)).

(** What the planner guarantees for a file above the threshold. The last
    conjunct is conditional: with more parts than bytes the quotient is
    zero and consecutive ranges start at the same offset. *)
Definition large_file_plan (L P : Z) : Prop :=
  exists rs,
    planned_ranges L P = Some rs
    /\ Z.of_nat (length rs) = P
    /\ (forall i, 0 <= i < P -> rs !! Z.to_nat i = Some (range_formula L P i))
    /\ contiguous rs
    /\ non_overlapping rs
    /\ non_decreasing rs
    /\ covers_exactly rs L
    /\ fst <$> head rs = Some 0
    /\ snd <$> last rs = Some (L - 1)
    /\ (P <= L -> strictly_increasing rs).

(** What the planner produces at or below the threshold. *)
Definition small_file_plan (L P : Z) : Prop :=
  planned_ranges L P = Some [(0, L - 1)].

(** ** Concrete worlds used by the examples *)

Module Scenario.

Definition join (dir name : string) : string := dir +:+ "/" +:+ name.

(** A server that answers every HEAD with 200 and [Content-Length: len]
    and every GET with [status] and [body]. *)
Definition server (len : string) (status : Z) (body : list byte) : Env :=
  {| filepath_Join := join;
     filepath_Base := fun name => name;
     http_Head := fun _ => HeadResponse 200 len;
     http_NewRequest_fails := fun _ => false;
     client_Do := fun _ _ => GetResponse status body false;
     os_Stat_fails := fun _ => false;
     os_Create_fails := fun _ => false;
     os_CreateTemp_fails := fun _ _ => false;
     os_Write_fails := fun _ _ => false |}.

(** A site whose HEAD answers 404 for the URL [noHead] and whose GET
    answers 404 for the URL [noGet]; every other request is answered with
    200, a [Content-Length] of 4 and a four-byte body. *)
Definition site (noHead noGet : string) : Env :=
  {| filepath_Join := join;
     filepath_Base := fun name => name;
     http_Head := fun fileUrl =>
       if String.eqb fileUrl noHead then HeadResponse 404 ""
       else HeadResponse 200 "4";
     http_NewRequest_fails := fun _ => false;
     client_Do := fun fileUrl _ =>
       if String.eqb fileUrl noGet then GetResponse 404 [] false
       else GetResponse 200 [x01; x02; x03; x04] false;
     os_Stat_fails := fun _ => false;
     os_Create_fails := fun _ => false;
     os_CreateTemp_fails := fun _ _ => false;
     os_Write_fails := fun _ _ => false |}.

(** The resource ["http://h/missing"] does not exist at all. *)
Definition server_with_missing : Env := site "http://h/missing" "http://h/missing".

(** The resource ["http://h/gone"] answers HEAD but its GET returns 404. *)
Definition server_with_gone : Env := site "" "http://h/gone".

(** A host that answers HEAD (200, 11 MiB) but whose GET connections
    fail. *)
Definition server_refusing_get : Env :=
  {| filepath_Join := join;
     filepath_Base := fun name => name;
     http_Head := fun _ => HeadResponse 200 "11534336";
     http_NewRequest_fails := fun _ => false;
     client_Do := fun _ _ => GetFailed;
     os_Stat_fails := fun _ => false;
     os_Create_fails := fun _ => false;
     os_CreateTemp_fails := fun _ _ => false;
     os_Write_fails := fun _ _ => false |}.

Definition opts : DownloadOptions :=
  {| DownloadDir := "d"; NumConcParts := 4; MaxLimitConcurrency := 2 |}.

(** Two parts per large file, one permit. *)
Definition opts_one_permit : DownloadOptions :=
  {| DownloadDir := "d"; NumConcParts := 2; MaxLimitConcurrency := 1 |}.

Definition empty_disk : Disk := {| files := ∅; temps := [] |}.

(** A download directory that already holds a file ["a"]. *)
Definition disk_with_a : Disk :=
  {| files := <["d/a"%string := [x09]]> ∅; temps := [] |}.

(** [Download("http://h/a")] into that directory, after its job has been
    launched. *)
Definition launched_onto_a : State :=
  run server_with_missing [TMain; TMain]
    (init (NewDownloader opts) disk_with_a [["http://h/a"%string]]).

(** One call of [Download] on a fresh [Downloader]. *)
Definition one_call (fileUrls : list string) : State :=
  init (NewDownloader opts) empty_disk [fileUrls].

(** Two chunks whose fetches finished out of order: chunk 1 was stored
    in the part file created first. Both cursors are at the end. *)
Definition two_chunks : gmap Z nat := <[0 := 1%nat]> (<[1 := 0%nat]> ∅).

Definition two_parts : Disk :=
  {| files := <["d/f"%string := []]> ∅;
     temps := [ {| t_data := [x03; x04]; t_pos := 2%nat;
                   t_closed := false; t_removed := false |};
                {| t_data := [x01; x02]; t_pos := 2%nat;
                   t_closed := false; t_removed := false |} ] |}.

(** The steps of one job of call [c] with a single chunk, and of its
    fetch, run to completion one after the other. *)
Definition job_to_wait (c j : nat) : list Tid :=
  [TJob c j; TJob c j; TJob c j; TJob c j; TJob c j; TJob c j].
Definition fetch_to_end (c k : nat) : list Tid :=
  [TFetch c k; TFetch c k; TFetch c k; TFetch c k; TFetch c k].
Definition job_to_end (c j : nat) : list Tid :=
  [TJob c j; TJob c j; TJob c j; TJob c j].

(** A schedule for call [c] on a single small file: [Download] runs up to
    [wg.Wait()], then the job and its fetch, then [Download] returns. *)
Definition download_one (c : nat) : list Tid :=
  [TMain; TMain; TMain; TMain]
    ++ job_to_wait c 0 ++ fetch_to_end c 0 ++ job_to_end c 0 ++ [TMain].

(** The same for a batch of two small files. *)
Definition download_two (c : nat) : list Tid :=
  [TMain; TMain; TMain; TMain; TMain; TMain]
    ++ job_to_wait c 0 ++ fetch_to_end c 0 ++ job_to_end c 0
    ++ job_to_wait c 1 ++ fetch_to_end c 1 ++ job_to_end c 1 ++ [TMain].

(** A site with a 3 MB file and a 50 MB file; a GET with a [Range]
    header is answered 206, one without 200 (the bodies are shortened to
    one byte). *)
Definition sizes_site : Env :=
  {| filepath_Join := join;
     filepath_Base := fun name => name;
     http_Head := fun fileUrl =>
       if String.eqb fileUrl "http://h/small" then HeadResponse 200 "3000000"
       else HeadResponse 200 "50000000";
     http_NewRequest_fails := fun _ => false;
     client_Do := fun _ headers =>
       match headers with
       | [] => GetResponse 200 [x00] false
       | _ :: _ => GetResponse 206 [x01] false
       end;
     os_Stat_fails := fun _ => false;
     os_Create_fails := fun _ => false;
     os_CreateTemp_fails := fun _ _ => false;
     os_Write_fails := fun _ _ => false |}.

(** A schedule for the batch of both files under two permits: the small
    file first; then the job of the large file launches fetches as permits
    become free. *)
Definition sizes_schedule : list Tid :=
  let J := TJob 0 1 in
  [TMain; TMain; TMain; TMain; TMain; TMain]
    ++ job_to_wait 0 0 ++ fetch_to_end 0 0 ++ job_to_end 0 0
    ++ [J; J; J; J; J; J; J] ++ fetch_to_end 0 1
    ++ [J; J] ++ fetch_to_end 0 2
    ++ [J; J; J] ++ fetch_to_end 0 3 ++ fetch_to_end 0 4
    ++ job_to_end 0 1 ++ [TMain].

(** The batch of the probe-failure example: the second URL is missing. *)
Definition batch_with_missing : list string :=
  ["http://h/a"; "http://h/missing"; "http://h/b"]%string.

End Scenario.

(** ** Vocabulary for [combineChunks] *)

(** Every index below [len(fileChunks)] maps to an open part file. *)
Definition chunks_ready (fileChunks : gmap Z nat) (ts : list TempFile) : Prop :=
  forall i, 0 <= i < Z.of_nat (size fileChunks) ->
    exists h t, fileChunks !! i = Some h /\ ts !! h = Some t /\ t_closed t = false.

(** The bytes held by the part file of chunk [i]. *)
Definition chunk_data (fileChunks : gmap Z nat) (ts : list TempFile) (i : Z)
  : list byte :=
  match fileChunks !! i with
  | Some h => match ts !! h with Some t => t_data t | None => [] end
  | None => []
  end.

(** The chunks' bytes, concatenated in index order from [i] on. *)
Definition chunks_concat_from (fileChunks : gmap Z nat) (ts : list TempFile)
    (i : Z) (n : nat) : list byte :=
  concat (chunk_data fileChunks ts <$> seqZ i (Z.of_nat n)).

Definition chunks_concat (fileChunks : gmap Z nat) (ts : list TempFile) : list byte :=
  chunks_concat_from fileChunks ts 0 (size fileChunks).

(** Two part-file stores that differ in cursors only. *)
Definition same_data (ts ts' : list TempFile) : Prop :=
  forall h : nat, (t_data <$> ts !! h) = (t_data <$> ts' !! h)
                  /\ (t_closed <$> ts !! h) = (t_closed <$> ts' !! h).

(** The outcome of a successful [combineChunks] on an output file that
    held [old] when the cursor of [outFile] was at [outPos]. *)
Definition combined (env : Env) (fileChunks : gmap Z nat) (path : string)
    (outPos : nat) (dk : Disk) (old : list byte) : Prop :=
  exists st,
    combineChunks env fileChunks path outPos dk = (st, None)
    /\ files (cb_disk st)
       = <[path := write_at old outPos (chunks_concat fileChunks (temps dk))]> (files dk)
    /\ cb_outPos st = (outPos + length (chunks_concat fileChunks (temps dk)))%nat
    /\ same_data (temps dk) (temps (cb_disk st))
    /\ (old = [] -> outPos = 0%nat ->
        files (cb_disk st) !! path = Some (chunks_concat fileChunks (temps dk))).

(** ** The Concurrency Limiter invariant *)

(** In one call of [Download]: the fetches in flight are covered by permits
    held in [waitChan], and these never exceed the channel's capacity. *)
Definition permits_bounded (cap : Z) (call : Call) : Prop :=
  (in_flight call <= c_waitChan call)%nat /\ Z.of_nat (c_waitChan call) <= cap.

Definition limiter_inv (s : State) : Prop :=
  Forall (permits_bounded (MaxLimitConcurrency (downloadOptions (d s)))) (calls s).

(** ** Vocabulary for [Download] *)

(** The HEAD probe of [fileUrl] fails: transport error, status other than
    200, or a [Content-Length] that [strconv.Atoi] rejects. *)
Definition probe_fails (env : Env) (fileUrl : string) : bool :=
  match checkFileSizeWithHeaderContentLength env fileUrl with
  | inl _ => true
  | inr _ => false
  end.

(** The URLs for which a call has launched [downloadLargeFile], in launch
    order. *)
Definition job_urls (call : Call) : list string := j_url <$> c_jobs call.

Definition call_urls (s : State) : list (list string) := job_urls <$> calls s.

#[global] Instance Tid_eq_dec : EqDecision Tid.
Proof. solve_decision. Defined.

(** How often the schedule lets [Download] itself run. *)
Fixpoint main_steps (sched : list Tid) : nat :=
  match sched with
  | [] => O
  | TMain :: sched' => S (main_steps sched')
  | _ :: sched' => main_steps sched'
  end.

(** Where [Download] stands in a batch [pre ++ u :: post] whose first
    failing probe is the one of [u]: not yet called, in the loop with the
    URLs [launched] behind it, or returned. [n] bounds the steps that
    [Download] still takes. *)
Definition probe_phase (pre : list string) (u : string) (post : list string)
    (s : State) (n : nat) : Prop :=
  (m_pc s = MIdle /\ pending s = [pre ++ u :: post] /\ results s = []
   /\ call_urls s = [] /\ n = (2 * length pre + 2)%nat)
  \/ (exists launched rest,
        pre = launched ++ rest
        /\ (m_pc s = MLoop 0 (rest ++ u :: post) /\ n = (2 * length rest + 1)%nat
            \/ m_pc s = MCheck 0 (rest ++ u :: post) /\ n = (2 * length rest + 2)%nat)
        /\ pending s = [] /\ results s = [] /\ call_urls s = [launched])
  \/ (m_pc s = MIdle /\ pending s = [] /\ n = O
      /\ (exists e, results s = [([], Some e)])
      /\ exists launched, call_urls s = [launched] /\ launched `prefix_of` pre).

(** ** What [Download] does when a probe fails

    For a batch [fileUrls] whose URL number [i] fails its probe, in the
    state [s] reached along some schedule: [Download] never reaches
    [wg.Wait()]; it has returned nothing yet or a nil path list with an
    error; it has launched jobs only for URLs before number [i]; and once
    it was given [2*i+2] steps in a process that did not panic, it has
    returned. *)
Definition aborted_by_probe (fileUrls : list string) (i : nat)
    (sched : list Tid) (s : State) : Prop :=
  (forall c, m_pc s <> MWait c)
  /\ (results s = [] \/ exists e, results s = [([], Some e)])
  /\ (call_urls s = []
      \/ exists launched, call_urls s = [launched]
                          /\ launched `prefix_of` take i fileUrls)
  /\ (crashed s = false -> (2 * i + 2 <= main_steps sched)%nat ->
      exists e, results s = [([], Some e)]).

(** ** Vocabulary for the ledger of the [Downloader] *)

(** What a call of [Download] can return when the ledger holds [paths] at
    the moment of its [return]: the ledger with a nil error, or the nil
    named result with an error. *)
Definition returned_from (paths : list string) (r : Result) : Prop :=
  r = (paths, None) \/ exists e, r = ([], Some e).

(** Nothing resets the fields [err] and [downloadPaths]: from [s] to [s']
    a stored error stays stored, and a ledger that holds paths is not
    emptied. *)
Definition never_reset (s s' : State) : Prop :=
  (is_Some (err (d s)) -> is_Some (err (d s')))
  /\ (downloadPaths (d s) <> [] -> downloadPaths (d s') <> []).

(** The results that appear between [s] and [s']: each carries a nil
    error or the nil path list. *)
Definition returns_since (s s' : State) : Prop :=
  exists new,
    results s' = results s ++ new
    /\ Forall (fun r : Result => r.2 = None \/ r.1 = []) new.

(** The list [paths] is a prefix of the ledger, of the slice that every
    job is about to store, and of every list returned with a nil error. *)
Definition kept_in (paths : list string) (s : State) : Prop :=
  paths `prefix_of` downloadPaths (d s)
  /\ Forall (fun call =>
               Forall (fun job => forall ps, j_pc job = JStore ps -> paths `prefix_of` ps)
                      (c_jobs call))
            (calls s)
  /\ Forall (fun r : Result => r.2 = None -> paths `prefix_of` r.1) (results s).

(** What the first call has returned with a nil error is kept. *)
Definition first_return_kept (s : State) : Prop :=
  forall paths, results s !! 0%nat = Some (paths, None) -> kept_in paths s.

(** The second of two calls, given the state [s1] in which the first
    call has returned [r1], and a later state [s2] in which the second has
    returned [r2]: nothing was reset; a list that the first call returned
    with a nil error is still a prefix of the ledger and of the list that
    the second call returns with a nil error; with an error the second call
    returns the nil list. *)
Definition second_call_keeps_state (s1 s2 : State) (r1 r2 : Result) : Prop :=
  never_reset s1 s2
  /\ (r1.2 = None ->
      r1.1 `prefix_of` downloadPaths (d s2)
      /\ (r2.2 = None -> r1.1 `prefix_of` r2.1))
  /\ (r2.2 <> None -> r2.1 = []).

(** ** Vocabulary for a job whose output file exists *)

(** The file name, the program point and the deferred calls of job [j]
    in a call. *)
Definition JobView : Type := string * JobPC * list nat.

Definition view_in (call : Call) (j : nat) : option JobView :=
  (fun job => (j_fileName job, j_pc job, j_deferred job)) <$> c_jobs call !! j.

Definition job_view (s : State) (c j : nat) : option JobView :=
  call ← calls s !! c; view_in call j.

(** Job [j] of call [c], whose output path is [path], stands before its
    [os.Stat] or has returned, and [path] exists. *)
Definition refused_job (env : Env) (c j : nat) (path : string) (s : State) : Prop :=
  is_Some (files (disk s) !! path)
  /\ exists fileName pc deferred,
       job_view s c j = Some (fileName, pc, deferred)
       /\ outputFilePath env (downloadOptions (d s)) fileName = path
       /\ (pc = JStat /\ deferred = [] \/ pc = JReturned).

(** What a step of that job does in state [s1]: while the job stands
    before its [os.Stat] it can take the step; the step stores the
    "already exists" error, leaves every file, part file and the ledger of
    paths as they are, launches no fetch, and ends the job. *)
Definition refuses_existing (env : Env) (c j : nat) (path : string) (s1 : State)
  : Prop :=
  (crashed s1 = false ->
   (exists fileName, job_view s1 c j = Some (fileName, JStat, [])) ->
   is_Some (step env s1 (TJob c j)))
  /\ forall s2,
       step env s1 (TJob c j) = Some s2 ->
       disk s2 = disk s1
       /\ err (d s2) = Some (ErrFileExists path)
       /\ downloadPaths (d s2) = downloadPaths (d s1)
       /\ (c_fetchers <$> calls s2) = (c_fetchers <$> calls s1)
       /\ (crashed s2 = true
           \/ exists fileName, job_view s2 c j = Some (fileName, JReturned, [])).

(** ** Vocabulary for the WaitGroups *)

(** [downloadLargeFile] has not returned yet. *)
Definition job_live (job : Job) : bool :=
  match j_pc job with
  | JReturned => false
  | _ => true
  end.

(** A range fetch launched by job [j] that has not returned yet. *)
Definition fetch_of (j : nat) (f : Fetcher) : bool :=
  (f_job f =? j)%nat && fetch_active f.

(** The counters cover the goroutines that will still call [Done]: [wg]
    the jobs of the call, [wg1] of each job its fetches. *)
Definition wg_ok (call : Call) : Prop :=
  (count_if job_live (c_jobs call) <= c_wg call)%nat
  /\ Forall (fun f => (f_job f < length (c_jobs call))%nat) (c_fetchers call)
  /\ forall (j : nat) job, c_jobs call !! j = Some job ->
       (count_if (fetch_of j) (c_fetchers call) <= j_wg1 job)%nat.

Definition no_panic_inv (s : State) : Prop :=
  crashed s = false /\ Forall wg_ok (calls s).

(** A configuration as the data model has it. *)
Definition valid_options (opts : DownloadOptions) : Prop :=
  0 <= MaxLimitConcurrency opts /\ NumConcParts opts <> 0.

(** ** Vocabulary for further properties *)

(** The separator occurs in [s]. *)
Fixpoint has_slash (s : string) : bool :=
  match s with
  | EmptyString => false
  | String a r => Ascii.eqb a "/"%char || has_slash r
  end.

(** The states that a call of [Download] without URLs runs through: not
    yet called, at the loop head, at [wg.Wait()], returned. *)
Definition empty_batch_state (dl : Downloader) (dk : Disk) (k : nat) : State :=
  let s0 := init dl dk [[]] in
  let s1 := set_main (MLoop 0 []) (set_pending [] (set_calls [new_call] s0)) in
  let s2 := set_main (MWait 0) s1 in
  match k with
  | 0%nat => s0
  | 1%nat => s1
  | 2%nat => s2
  | _ => main_return (downloadPaths dl, None) s2
  end.
Arguments empty_batch_state : simpl never.

(** What a step of a range fetch leaves as it is: the output files, the
    ledger of paths, what [Download] has returned and where it stands, the
    other calls, and every part file but its own. *)
Definition fetch_frame (c : nat) (f : Fetcher) (s s' : State) : Prop :=
  files (disk s') = files (disk s)
  /\ downloadPaths (d s') = downloadPaths (d s)
  /\ results s' = results s
  /\ m_pc s' = m_pc s
  /\ (forall c' : nat, c' <> c -> calls s' !! c' = calls s !! c')
  /\ length (temps (disk s')) = length (temps (disk s))
  /\ (forall h : nat, h <> f_file f -> temps (disk s') !! h = temps (disk s) !! h).





(** [downloadLargeFile] number [j] of call [k] has returned. *)
Definition job_returned (s : State) (k j : nat) : Prop :=
  exists fileName deferred, job_view s k j = Some (fileName, JReturned, deferred).

(** Call [k] has launched one job per URL of [batch], in order, and all of
    them have returned. *)
Definition batch_done (s : State) (k : nat) (batch : list string) : Prop :=
  call_urls s !! k = Some batch
  /\ forall j : nat, (j < length batch)%nat -> job_returned s k j.

(** Where [Download] stands in the [program] of calls: [bs] are the batches
    of the calls made so far, the last of them the one in progress. A call
    that returned a nil error has launched its whole batch and seen every
    job return. *)
Definition barrier_inv (program : list (list string)) (s : State) : Prop :=
  exists bs : list (list string),
    program = bs ++ pending s
    /\ length bs = length (calls s)
    /\ (forall k paths, results s !! k = Some (paths, None) ->
        exists batch, bs !! k = Some batch /\ batch_done s k batch)
    /\ match m_pc s with
       | MIdle => length (results s) = length (calls s)
       | MLoop c rest | MCheck c rest =>
           c = length (results s) /\ length (calls s) = S c
           /\ exists launched, call_urls s !! c = Some launched
                               /\ bs !! c = Some (launched ++ rest)
       | MWait c =>
           c = length (results s) /\ length (calls s) = S c
           /\ exists launched, call_urls s !! c = Some launched
                               /\ bs !! c = Some launched
       end.

(** The [k]-th call of the program has returned behind its barrier: call
    [k] has launched [downloadLargeFile] for each URL of the [k]-th batch,
    and each of these goroutines has returned. *)
Definition returned_behind_barrier (program : list (list string)) (s : State)
    (k : nat) : Prop :=
  exists batch call,
    program !! k = Some batch
    /\ calls s !! k = Some call
    /\ job_urls call = batch
    /\ Forall (fun job => j_pc job = JReturned) (c_jobs call).

(** Part file [h] has been closed and unlinked. *)
Definition temp_gone (ts : list TempFile) (h : nat) : Prop :=
  exists t, ts !! h = Some t /\ t_closed t = true /\ t_removed t = true.

(** The store [ts'] of part files extends [ts]: no handle is lost, and a
    part file that is gone stays gone. *)
Definition temps_extend (ts ts' : list TempFile) : Prop :=
  (length ts <= length ts')%nat /\ forall h, temp_gone ts h -> temp_gone ts' h.




(** [p] names an output file. *)
Definition file_exists (fs : gmap string (list byte)) (p : string) : Prop :=
  is_Some (fs !! p).

(** A job past [createOutputFile] has its output file on disk. *)
Definition job_has_output (env : Env) (opts : DownloadOptions)
    (fs : gmap string (list byte)) (job : Job) : Prop :=
  match j_pc job with
  | JStat | JCreate | JReturned => True
  | JStore paths =>
      file_exists fs (outputFilePath env opts (j_fileName job))
      /\ Forall (file_exists fs) paths
  | _ => file_exists fs (outputFilePath env opts (j_fileName job))
  end.

Definition outputs_inv (env : Env) (s : State) : Prop :=
  Forall (fun call =>
            Forall (job_has_output env (downloadOptions (d s)) (files (disk s)))
                   (c_jobs call))
         (calls s).

(** The ledger of paths, and every path list returned so far, name files
    that exist. *)
Definition paths_inv (s : State) : Prop :=
  Forall (file_exists (files (disk s))) (downloadPaths (d s))
  /\ Forall (fun r : Result => Forall (file_exists (files (disk s))) r.1) (results s).

(** The byte ranges of the fetches that job [j] has launched, in launch
    order. *)
Definition requests_of (j : nat) (fs : list Fetcher) : list string :=
  f_byteRange <$> filter (fun f => f_job f = j) fs.
Arguments requests_of : simpl never.

Definition job_requests (call : Call) (j : nat) : list string :=
  requests_of j (c_fetchers call).

(** The [byteRange] arguments of the loop iterations below [i]. *)
Definition ranges_upto (pl : Plan) (i : Z) : list string :=
  byteRange_of <$> (chunk_bounds pl <$> seqZ 0 i).

(** What a job has requested, by program point, under [NumConcParts = P]. *)
Definition req_inv (P : Z) (reqs : list string) (job : Job) : Prop :=
  let pl := j_plan job in
  match j_pc job with
  | JStat | JCreate => reqs = []
  | JLoop =>
      planning (j_contentLength job) P = Some pl
      /\ 0 <= j_i job /\ (j_i job <= numConcParts pl \/ j_i job = 0)
      /\ reqs = ranges_upto pl (j_i job)
  | JSend bounds _ =>
      planning (j_contentLength job) P = Some pl
      /\ 0 <= j_i job < numConcParts pl
      /\ bounds = chunk_bounds pl (j_i job)
      /\ reqs = ranges_upto pl (j_i job)
  | JCheckErr | JWait | JCombine | JAppend | JStore _ =>
      planning (j_contentLength job) P = Some pl
      /\ reqs = byteRange_of <$> chunk_ranges pl
  | JReturned =>
      reqs = []
      \/ (planning (j_contentLength job) P = Some pl
          /\ reqs `prefix_of` (byteRange_of <$> chunk_ranges pl))
  end.

Definition call_req (P : Z) (call : Call) : Prop :=
  forall (j : nat) job, c_jobs call !! j = Some job ->
    req_inv P (job_requests call j) job.

Definition plan_inv (s : State) : Prop :=
  Forall (call_req (NumConcParts (downloadOptions (d s)))) (calls s).

(** The job has left the loop that launches the fetches, and has not
    returned. *)
Definition past_loop (pc : JobPC) : bool :=
  match pc with
  | JCheckErr | JWait | JCombine | JAppend | JStore _ => true
  | _ => false
  end.

(** The requests [reqs] made for [job] follow the plan for its content
    length: they are, in order, the first of the planned ranges, and all of
    them once the loop is over. *)
Definition requests_follow_plan (P : Z) (reqs : list string) (job : Job) : Prop :=
  match planned_ranges (j_contentLength job) P with
  | None => reqs = []
  | Some ranges =>
      reqs `prefix_of` (byteRange_of <$> ranges)
      /\ (past_loop (j_pc job) = true -> reqs = byteRange_of <$> ranges)
  end.



(** A [Downloader] that holds an error: [Download] reaches its loop head
    and [wg.Wait()] only with nothing launched, and has returned a nil
    error only from calls that launched nothing. *)
Definition sticky_inv (s : State) : Prop :=
  is_Some (err (d s))
  /\ (forall c rest, m_pc s = MLoop c rest -> call_urls s !! c = Some [])
  /\ (forall c, m_pc s = MWait c -> call_urls s !! c = Some [])
  /\ (forall k paths, results s !! k = Some (paths, None) ->
      call_urls s !! k = Some []).

(** A [Downloader] with a stored error and an empty ledger. *)
Definition failed_downloader (opts : DownloadOptions) (e : error) : Downloader :=
  {| err := Some e; downloadOptions := opts; downloadPaths := [] |}.

(** The arguments that [Download] hands to [downloadLargeFile]: the last
    segment of the URL, and the size that the probe of the URL reports. *)
Definition job_fields (env : Env) (job : Job) : Prop :=
  j_fileName job = url_fileName (j_url job)
  /\ checkFileSizeWithHeaderContentLength env (j_url job) = inr (j_contentLength job).

(** The arguments that [downloadLargeFile] hands to [downloadFileForRange]:
    the URL of the job, and a byte range that is not empty, so that the
    request carries a [Range] header. *)
Definition fetch_fields (jobs : list Job) (f : Fetcher) : Prop :=
  request_headers (f_byteRange f) = [("Range"%string, "bytes=" +:+ f_byteRange f)]
  /\ exists job, jobs !! f_job f = Some job /\ f_url f = j_url job.

Definition launch_call (env : Env) (call : Call) : Prop :=
  Forall (job_fields env) (c_jobs call)
  /\ Forall (fetch_fields (c_jobs call)) (c_fetchers call).

Definition launch_inv (env : Env) (s : State) : Prop :=
  Forall (launch_call env) (calls s).

(** ** Vocabulary for the fetch of a small file *)

(** The step of fetch [k] of call [c] in state [s] is the exchange of
    [client.Do] on [fileUrl] with the [headers]. *)
Definition fetch_exchanges (env : Env) (s : State) (c k : nat) (call : Call)
    (f : Fetcher) (fileUrl : string) (headers : list (string * string)) : Prop :=
  step_fetch env s c k
  = Some match client_Do env fileUrl headers with
         | GetFailed => fetch_return c k call f (set_err ErrClientDo s)
         | GetResponse status body readError =>
             put_call c
               (put_fetcher k (fetcher_at (FResponse status body readError) f) call) s
         end.

(** Job [j] of call [c], for a file of [L] bytes, in state [s]. It has
    launched at most one fetch, and exactly one once its loop is over. Every
    fetch that it launched carries the URL of the job and the byte range
    ["0-<L-1>"]; when such a fetch stands at its request, and the request
    can be built, its step is the exchange for that URL with the header
    [Range: bytes=0-<L-1>]. A request is without [Range] header exactly when
    the byte range is empty. *)
Definition small_file_fetch (env : Env) (s : State) (c j : nat)
    (call : Call) (job : Job) : Prop :=
  let range := "0-" +:+ Itoa (j_contentLength job - 1) in
  job_requests call j `prefix_of` [range]
  /\ (past_loop (j_pc job) = true -> job_requests call j = [range])
  /\ (forall (k : nat) f,
        c_fetchers call !! k = Some f -> f_job f = j ->
        f_url f = j_url job
        /\ f_byteRange f = range
        /\ (f_pc f = FRequest -> http_NewRequest_fails env (f_url f) = false ->
            fetch_exchanges env s c k call f (j_url job)
              [("Range"%string, "bytes=0-" +:+ Itoa (j_contentLength job - 1))]))
  /\ (forall byteRange, request_headers byteRange = [] <-> byteRange = ""%string).

(** The arguments of a job do not change while it runs. *)
Definition same_job_args (job job' : Job) : Prop :=
  j_url job' = j_url job /\ j_fileName job' = j_fileName job
  /\ j_contentLength job' = j_contentLength job.

(** The job is past [wg1.Wait()] and has not returned. *)
Definition past_wait (pc : JobPC) : bool :=
  match pc with
  | JCombine | JAppend | JStore _ => true
  | _ => false
  end.

(** Past [wg1.Wait()] the counter [wg1] is zero. *)
Definition wait_ok (job : Job) : Prop :=
  past_wait (j_pc job) = true -> j_wg1 job = 0%nat.

Definition wait_inv (s : State) : Prop :=
  Forall (fun call => Forall wait_ok (c_jobs call)) (calls s).

(** Every range fetch that job [j] of the call has launched has returned. *)
Definition fetches_returned (call : Call) (j : nat) : Prop :=
  forall (k : nat) f, c_fetchers call !! k = Some f -> f_job f = j ->
    f_pc f = FReturned.

(** No range fetch has been launched in any call. *)
Definition no_fetch (s : State) : Prop :=
  Forall (fun call => c_fetchers call = []) (calls s).

(** The goroutines that hold part file [h]: the range fetches it was handed
    to, and the jobs that have created it and not yet handed it on. *)
Definition fetch_holds (h : nat) (f : Fetcher) : bool := (f_file f =? h)%nat.

Definition job_holds (h : nat) (job : Job) : bool :=
  match j_pc job with
  | JSend _ h' => (h' =? h)%nat
  | _ => false
  end.

Definition holders_in (h : nat) (call : Call) : nat :=
  (count_if (fetch_holds h) (c_fetchers call)
   + count_if (job_holds h) (c_jobs call))%nat.

Definition holders (h : nat) (s : State) : nat :=
  sum_list_with (holders_in h) (calls s).

(** A part file is held by at most one goroutine, and only once it exists. *)
Definition own_inv (s : State) : Prop :=
  forall h : nat,
    (holders h s <= if bool_decide (h < length (temps (disk s)))%nat then 1 else 0)%nat.

(** Range fetch [k] of call [c]. *)
Definition the_fetcher (s : State) (c k : nat) : option Fetcher :=
  call ← calls s !! c; c_fetchers call !! k.

(** Every range fetch has a part file of its own. *)
Definition exclusive_part_files (s : State) : Prop :=
  (forall (c k : nat) f, the_fetcher s c k = Some f ->
     is_Some (temps (disk s) !! f_file f))
  /\ (forall (c1 k1 c2 k2 : nat) f1 f2,
        the_fetcher s c1 k1 = Some f1 -> the_fetcher s c2 k2 = Some f2 ->
        f_file f1 = f_file f2 -> c1 = c2 /\ k1 = k2).










(** * Part II: theorems *)

(** ** Go's [int] *)

Lemma wrap_id z : GoInt.in_range z -> GoInt.wrap z = z.
Proof.
  unfold GoInt.in_range, GoInt.min_int, GoInt.max_int, GoInt.wrap. intros H.
  rewrite Z.mod_small; lia.
Qed.

Lemma wrap_in_range z : GoInt.in_range (GoInt.wrap z).
Proof.
  unfold GoInt.in_range, GoInt.min_int, GoInt.max_int, GoInt.wrap.
  pose proof (Z.mod_pos_bound (z + 2 ^ 63) (2 ^ 64)). lia.
Qed.

Lemma wrap_small z : - 2 ^ 63 <= z < 2 ^ 63 -> GoInt.wrap z = z.
Proof.
  intros H. apply wrap_id. unfold GoInt.in_range, GoInt.min_int, GoInt.max_int. lia.
Qed.

Example Itoa_examples :
  Itoa 0 = "0"%string /\ Itoa 2999999 = "2999999"%string /\ Itoa (-1) = "-1"%string.
Proof. repeat split; reflexivity. Qed.

Example Atoi_examples :
  Atoi "52428800" = Some 52428800 /\ Atoi "-5" = Some (-5) /\ Atoi "12a" = None
  /\ Atoi "" = None /\ Atoi "+" = None /\ Atoi "9223372036854775808" = None.
Proof. repeat split; reflexivity. Qed.

Example url_fileName_examples :
  url_fileName "https://h/a/b.zip" = "b.zip"%string /\ url_fileName "x" = "x"%string
  /\ url_fileName "h/" = ""%string.
Proof. repeat split; reflexivity. Qed.

(** ** Chunk planning *)

(** The loop runs [numConcParts] times and the counter never wraps. *)
Lemma plan_loop_map pl fuel i :
  0 <= i -> i + Z.of_nat fuel <= GoInt.max_int ->
  Z.of_nat fuel = numConcParts pl - i ->
  plan_loop fuel pl i = chunk_bounds pl <$> seqZ i (Z.of_nat fuel).
Proof.
  revert i. induction fuel as [|fuel IH]; intros i Hi Hmax Hfuel.
  - reflexivity.
  - cbn [plan_loop].
    destruct (Z.ltb_spec i (numConcParts pl)); [|lia].
    rewrite seqZ_cons by lia. cbn [fmap list_fmap]. f_equal.
    unfold GoInt.add, GoInt.max_int in *. rewrite wrap_small by lia.
    replace (Z.pred (Z.of_nat (S fuel))) with (Z.of_nat fuel) by lia.
    rewrite <- Z.add_1_r. apply IH; lia.
Qed.

Lemma chunk_ranges_map pl :
  0 <= numConcParts pl <= GoInt.max_int ->
  chunk_ranges pl = chunk_bounds pl <$> seqZ 0 (numConcParts pl).
Proof.
  intros H. unfold chunk_ranges.
  rewrite plan_loop_map by lia. by rewrite Z2Nat.id by lia.
Qed.

Lemma planning_large L P :
  threshold < L -> P <> 0 ->
  planning L P = Some {| numConcParts := P;
                         totalBytesPerGoroutine := GoInt.quo L P;
                         lastByteLeft := GoInt.rem L P |}.
Proof.
  intros HL HP. unfold planning.
  destruct (Z.leb_spec L threshold); [lia|].
  destruct (Z.eqb_spec P 0); [lia|]. reflexivity.
Qed.

Lemma planning_small L P :
  L <= threshold ->
  planning L P = Some {| numConcParts := 1; totalBytesPerGoroutine := 0;
                         lastByteLeft := L |}.
Proof.
  intros HL. unfold planning. destruct (Z.leb_spec L threshold); [done|lia].
Qed.

(** For a large file no operation of the bounds computation wraps, and the
    bounds are the closed form. *)
Lemma chunk_bounds_large L P i :
  threshold < L -> L <= GoInt.max_int -> 1 <= P <= GoInt.max_int -> 0 <= i < P ->
  chunk_bounds {| numConcParts := P;
                  totalBytesPerGoroutine := GoInt.quo L P;
                  lastByteLeft := GoInt.rem L P |} i
  = range_formula L P i.
Proof.
  unfold threshold, GoInt.max_int. intros HL HLmax HP Hi.
  unfold chunk_bounds, range_formula, GoInt.quo, GoInt.rem; cbn [numConcParts
    totalBytesPerGoroutine lastByteLeft].
  rewrite Z.quot_div_nonneg, Z.rem_mod_nonneg by lia.
  pose proof (Z.div_mod L P ltac:(lia)) as Hdm.
  pose proof (Z.mod_pos_bound L P ltac:(lia)) as Hmod.
  assert (0 <= L / P) as Hb by (apply Z.div_pos; lia).
  set (b := L / P) in *. set (r := L mod P) in *.
  assert (b * (i + 1) <= b * P) by (apply Z.mul_le_mono_nonneg_l; lia).
  assert (b * (i + 1) <= L) as Hub by lia.
  assert (0 <= b * i) by (apply Z.mul_nonneg_nonneg; lia).
  assert (b * 1 <= b * P) by (apply Z.mul_le_mono_nonneg_l; lia).
  assert (b <= L) by lia.
  rewrite !(wrap_small b), !(wrap_small r) by lia.
  unfold GoInt.mul, GoInt.sub, GoInt.add.
  rewrite (wrap_small (i + 1)), (wrap_small (P - 1)) by lia.
  rewrite (wrap_small (b * i)), (wrap_small (b * (i + 1))) by lia.
  rewrite (wrap_small (b * (i + 1) - 1)) by lia.
  f_equal; [lia|].
  destruct (Z.eqb_spec i (P - 1)) as [->|Hne]; cbn [andb].
  - rewrite decide_True by done.
    destruct (Z.ltb_spec 0 r).
    + rewrite wrap_small by lia. lia.
    + lia.
  - rewrite decide_False by done. lia.
Qed.

Lemma planned_ranges_large L P :
  threshold < L -> L <= GoInt.max_int -> 1 <= P <= GoInt.max_int ->
  planned_ranges L P = Some (range_formula L P <$> seqZ 0 P).
Proof.
  intros HL HLmax HP. unfold planned_ranges.
  rewrite planning_large by lia. cbn [fmap option_fmap option_map]. f_equal.
  rewrite chunk_ranges_map by (cbn; lia). cbn [numConcParts].
  apply list_fmap_ext. intros i x Hx. apply lookup_seqZ in Hx as [-> Hlt].
  apply chunk_bounds_large; lia.
Qed.

Lemma formula_lookup L P (i : nat) r :
  (range_formula L P <$> seqZ 0 P) !! i = Some r <->
  r = range_formula L P (Z.of_nat i) /\ Z.of_nat i < P.
Proof.
  rewrite list_lookup_fmap_Some. split.
  - intros (x & -> & Hx). apply lookup_seqZ in Hx as [-> ?]. by rewrite Z.add_0_l.
  - intros [-> Hlt]. exists (Z.of_nat i). split; [done|].
    apply lookup_seqZ. lia.
Qed.

Section formula_facts.
Variables L P : Z.
Hypothesis HL : 0 <= L.
Hypothesis HP : 1 <= P.

Let b := L / P.
Let r := L mod P.

Lemma formula_div_mod : L = P * b + r /\ 0 <= r < P /\ 0 <= b.
Proof.
  subst b r. pose proof (Z.div_mod L P ltac:(lia)).
  pose proof (Z.mod_pos_bound L P ltac:(lia)).
  assert (0 <= L / P) by (apply Z.div_pos; lia). lia.
Qed.

Lemma formula_fst i : fst (range_formula L P i) = i * b.
Proof. reflexivity. Qed.

Lemma formula_snd_inner i :
  i <> P - 1 -> snd (range_formula L P i) = (i + 1) * b - 1.
Proof. intros H. cbn. rewrite decide_False by done. subst b. lia. Qed.

Lemma formula_snd_last : snd (range_formula L P (P - 1)) = L - 1.
Proof.
  cbn. rewrite decide_True by done. fold b r.
  pose proof formula_div_mod. lia.
Qed.

Lemma formula_snd_le i : 0 <= i < P -> snd (range_formula L P i) <= L - 1.
Proof.
  intros Hi. destruct (decide (i = P - 1)) as [->|Hne].
  - rewrite formula_snd_last. lia.
  - rewrite formula_snd_inner by done.
    pose proof formula_div_mod as (? & ? & ?).
    assert ((i + 1) * b <= P * b) by (apply Z.mul_le_mono_nonneg_r; lia). lia.
Qed.

Lemma formula_mono i j : 0 <= i -> i <= j -> i * b <= j * b.
Proof.
  intros. pose proof formula_div_mod as (? & ? & ?).
  apply Z.mul_le_mono_nonneg_r; lia.
Qed.

(** The range that holds byte [x]. *)
Lemma formula_find x :
  0 <= x < L -> exists i, 0 <= i < P /\ covers (range_formula L P i) x.
Proof.
  intros Hx. pose proof formula_div_mod as (HLeq & Hr & Hb).
  destruct (decide (x < (P - 1) * b)) as [Hlt|Hge].
  - assert (0 < b) by nia.
    exists (x / b).
    pose proof (Z.div_mod x b ltac:(lia)).
    pose proof (Z.mod_pos_bound x b ltac:(lia)).
    assert (0 <= x / b) by (apply Z.div_pos; lia).
    assert (x / b < P - 1) by nia.
    split; [lia|]. unfold covers.
    rewrite formula_fst, formula_snd_inner by lia. nia.
  - exists (P - 1). split; [lia|]. unfold covers.
    rewrite formula_fst, formula_snd_last. lia.
Qed.

Lemma formula_disjoint i j x :
  0 <= i -> i < j -> j < P ->
  covers (range_formula L P i) x -> covers (range_formula L P j) x -> False.
Proof.
  unfold covers. intros Hi Hij Hj [_ Hhi] [Hlo _].
  rewrite formula_snd_inner in Hhi by lia. rewrite formula_fst in Hlo.
  pose proof (formula_mono (i + 1) j ltac:(lia) ltac:(lia)). lia.
Qed.
End formula_facts.

(** C1 (as amended). For every content length [L] above 10 MiB and every
    part count [P >= 1] (both of type [int]) the planning of
    [downloadLargeFile] yields exactly [P] ranges, range [i] being
    [[i*(L/P), (i+1)*(L/P)-1]] with the last end extended by [L mod P]; the
    ranges are contiguous, non-overlapping, cover exactly [[0, L)], start at
    0 and end at [L-1], and their bounds never decrease; they increase
    strictly whenever [P <= L]. *)
Theorem C1_large_file_plan (L P : Z) :
  threshold < L -> L <= GoInt.max_int -> 1 <= P -> P <= GoInt.max_int ->
  large_file_plan L P.
Proof.
  intros HL HLmax HP HPmax.
  assert (0 <= L) as HL0 by (unfold threshold in HL; lia).
  exists (range_formula L P <$> seqZ 0 P).
  split; [apply planned_ranges_large; lia|].
  split; [rewrite length_fmap, length_seqZ; lia|].
  split.
  { intros i Hi. apply formula_lookup. rewrite Z2Nat.id by lia. split; [done|lia]. }
  split.
  { intros i r r' [-> Hi]%formula_lookup [-> Hi']%formula_lookup.
    rewrite formula_fst, formula_snd_inner by lia. lia. }
  split.
  { intros i j r r' x [-> Hi]%formula_lookup [-> Hj]%formula_lookup Hc Hc'.
    destruct (Nat.lt_trichotomy i j) as [Hlt|[->|Hgt]]; [|done|]; exfalso.
    - eapply (formula_disjoint L P HL0 HP (Z.of_nat i) (Z.of_nat j)); eauto; lia.
    - eapply (formula_disjoint L P HL0 HP (Z.of_nat j) (Z.of_nat i)); eauto; lia. }
  split.
  { intros i r r' [-> Hi]%formula_lookup [-> Hi']%formula_lookup.
    rewrite !formula_fst. split.
    - apply formula_mono; lia.
    - rewrite (formula_snd_inner L P (Z.of_nat i)) by lia.
      pose proof (formula_mono L P HL0 HP (Z.of_nat i + 1) (Z.of_nat (S i))
                    ltac:(lia) ltac:(lia)).
      pose proof (formula_div_mod L P HL0 HP) as (_ & ? & ?).
      cbn. case_decide; lia. }
  split.
  { intros x. split.
    - intros Hx. destruct (formula_find L P HL0 HP x Hx) as (i & Hi & Hc).
      exists (Z.to_nat i), (range_formula L P i). split; [|done].
      apply formula_lookup. rewrite Z2Nat.id by lia. split; [done|lia].
    - intros (i & r & [-> Hi]%formula_lookup & [Hlo Hhi]).
      rewrite formula_fst in Hlo.
      pose proof (formula_snd_le L P HL0 HP (Z.of_nat i) ltac:(lia)).
      pose proof (formula_mono L P HL0 HP 0 (Z.of_nat i) ltac:(lia) ltac:(lia)).
      lia. }
  split.
  { rewrite seqZ_cons by lia. reflexivity. }
  split.
  { rewrite last_lookup, length_fmap, length_seqZ.
    replace (Init.Nat.pred (Z.to_nat P)) with (Z.to_nat (P - 1)) by lia.
    rewrite list_lookup_fmap, lookup_seqZ_lt by lia. cbn [fmap option_fmap option_map].
    rewrite Z2Nat.id, Z.add_0_l by lia. f_equal. by apply formula_snd_last. }
  intros HPL i r r' [-> Hi]%formula_lookup [-> Hi']%formula_lookup.
  pose proof (formula_div_mod L P HL0 HP) as (Heq & Hr & Hb).
  assert (1 <= L / P) by (apply Z.div_le_lower_bound; lia).
  rewrite !formula_fst, (formula_snd_inner L P (Z.of_nat i)) by lia.
  split; [nia|]. cbn. case_decide; nia.
Qed.

Lemma C1_large_file_plan_witness : large_file_plan 50000000 4.
Proof.
  apply (C1_large_file_plan 50000000 4);
    unfold threshold, GoInt.max_int; lia.
Defined.

(** C1 as stated fails: with more parts than bytes (here a file of
    10 MiB + 1 bytes in 10485762 parts) [L/P] is 0, so ranges 0 and 1 are
    both [[0, -1]] and the bounds do not increase strictly. *)
Lemma C1_not_strictly_increasing :
  exists rs, planned_ranges 10485761 10485762 = Some rs
             /\ rs !! 0%nat = Some (0, -1) /\ rs !! 1%nat = Some (0, -1)
             /\ ~ strictly_increasing rs.
Proof.
  exists (range_formula 10485761 10485762 <$> seqZ 0 10485762).
  split; [apply planned_ranges_large; unfold threshold, GoInt.max_int; lia|].
  assert (forall i : nat, (i < 2)%nat ->
            (range_formula 10485761 10485762 <$> seqZ 0 10485762) !! i
            = Some (0, -1)) as Hlk.
  { intros i Hi. apply formula_lookup. split; [|lia].
    unfold range_formula. rewrite Z.div_small by lia.
    rewrite decide_False by lia. f_equal; lia. }
  split; [apply Hlk; lia|]. split; [apply Hlk; lia|].
  intros Hs. destruct (Hs 0%nat _ _ (Hlk 0%nat ltac:(lia)) (Hlk 1%nat ltac:(lia))) as [H _].
  cbn in H. lia.
Qed.

(** The bounds of the single iteration for a file at or below the
    threshold. *)
Lemma small_chunk_bounds (L : Z) :
  0 <= L -> L <= threshold ->
  chunk_bounds {| numConcParts := 1; totalBytesPerGoroutine := 0;
                  lastByteLeft := L |} 0 = (0, L - 1).
Proof.
  intros HL0 HL. unfold chunk_bounds.
  cbn [numConcParts totalBytesPerGoroutine lastByteLeft].
  change (GoInt.mul 0 0) with 0.
  change (GoInt.sub (GoInt.mul 0 (GoInt.add 0 1)) 1) with (-1).
  change (0 =? GoInt.sub 1 1) with true. cbn [andb].
  unfold threshold in HL. destruct (Z.ltb_spec 0 L).
  - unfold GoInt.add. rewrite wrap_small by lia. f_equal. lia.
  - f_equal. lia.
Qed.

(** C4. For every content length [0 <= L <= 10 MiB] the planning of
    [downloadLargeFile] yields exactly one range, [[0, L-1]], whatever
    [NumConcParts] is. *)
Theorem C4_small_file_single_range (L P : Z) :
  0 <= L -> L <= threshold -> small_file_plan L P.
Proof.
  intros HL0 HL. unfold small_file_plan, planned_ranges.
  rewrite planning_small by done. cbn [fmap option_fmap option_map]. f_equal.
  rewrite chunk_ranges_map by (cbn; unfold GoInt.max_int; lia).
  cbn [numConcParts]. change (seqZ 0 1) with [0]. cbn [fmap list_fmap].
  by rewrite small_chunk_bounds.
Qed.

Lemma C4_small_file_single_range_witness : small_file_plan 3000000 4.
Proof.
  apply (C4_small_file_single_range 3000000 4); unfold threshold; lia.
Defined.

(** ** The request of a range fetch *)

Lemma byteRange_of_nonempty bounds : byteRange_of bounds <> ""%string.
Proof. unfold byteRange_of. by destruct (Itoa (fst bounds)). Qed.

Lemma request_headers_nil byteRange :
  request_headers byteRange = [] <-> byteRange = ""%string.
Proof. unfold request_headers. by destruct byteRange. Qed.

Lemma request_headers_range byteRange :
  byteRange <> ""%string ->
  request_headers byteRange = [("Range"%string, "bytes=" +:+ byteRange)].
Proof. unfold request_headers. by destruct byteRange. Qed.

(** C9 as stated fails: for a 3 MB file the one fetch that
    [downloadLargeFile] launches is handed the byte range ["0-2999999"], and
    its request carries the header [Range: bytes=0-2999999]. *)
Lemma C9_small_file_has_range_header :
  let s := run (Scenario.server "3000000" 206 [])
               [TMain; TMain; TJob 0 0; TJob 0 0; TJob 0 0; TJob 0 0]
               (Scenario.one_call ["http://h/f"%string]) in
  exists call f,
    calls s !! 0%nat = Some call
    /\ c_fetchers call = [f]
    /\ f_pc f = FRequest
    /\ f_byteRange f = "0-2999999"%string
    /\ request_headers (f_byteRange f) = [("Range", "bytes=0-2999999")]%string.
Proof.
  eexists _, _. split; [vm_compute; reflexivity|].
  repeat split.
Qed.

(** ** Files and [combineChunks] *)

Lemma write_at_nil data pos : write_at data pos [] = data.
Proof. reflexivity. Qed.

Lemma write_at_fresh b : write_at [] 0 b = b.
Proof. destruct b as [|x b]; [done|]. cbn. by rewrite app_nil_r. Qed.

Lemma length_write_at data pos b :
  (pos + length b <= length (write_at data pos b))%nat \/ b = [].
Proof.
  destruct b as [|x b]; [by right|left]. unfold write_at.
  rewrite !length_app, length_take, length_replicate. cbn [length]. lia.
Qed.

Lemma write_at_nonempty data pos b :
  b <> [] ->
  write_at data pos b
  = (take pos data ++ replicate (pos - length data) x00)
      ++ b ++ drop (pos + length b) data.
Proof. destruct b; [done|]. intros _. cbn [write_at]. by rewrite <- app_assoc. Qed.

(** Two writes, the second right behind the first, are one write. *)
Lemma write_at_app data pos b1 b2 :
  write_at (write_at data pos b1) (pos + length b1) b2 = write_at data pos (b1 ++ b2).
Proof.
  destruct (decide (b1 = [])) as [->|H1].
  { cbn [write_at app length]. by rewrite Nat.add_0_r. }
  destruct (decide (b2 = [])) as [->|H2].
  { by rewrite app_nil_r. }
  assert (b1 ++ b2 <> []) as H12 by (by destruct b1).
  rewrite (write_at_nonempty data pos b1 H1), (write_at_nonempty data pos _ H12).
  set (pre := take pos data ++ replicate (pos - length data) x00).
  assert (length pre = pos) as Hpre.
  { subst pre. rewrite length_app, length_take, length_replicate. lia. }
  rewrite (app_assoc pre b1).
  assert (length (pre ++ b1) = (pos + length b1)%nat) as Hlen
    by (rewrite length_app; lia).
  rewrite (write_at_nonempty _ _ b2 H2).
  rewrite <- Hlen at 1. rewrite take_app_length.
  replace (pos + length b1 - length ((pre ++ b1) ++ drop (pos + length b1) data))%nat
    with 0%nat by (rewrite length_app; lia).
  cbn [replicate]. rewrite app_nil_r, <- !app_assoc. do 3 f_equal.
  rewrite <- Hlen at 1. rewrite (app_assoc pre b1), drop_app_add, drop_drop.
  f_equal. rewrite length_app. lia.
Qed.

Lemma same_data_refl ts : same_data ts ts.
Proof. by intros h. Qed.

Lemma same_data_trans ts1 ts2 ts3 :
  same_data ts1 ts2 -> same_data ts2 ts3 -> same_data ts1 ts3.
Proof.
  intros H12 H23 h. destruct (H12 h) as [-> ->]. apply H23.
Qed.

Lemma same_data_insert ts (h : nat) t t' :
  ts !! h = Some t -> t_data t' = t_data t -> t_closed t' = t_closed t ->
  same_data ts (<[h := t']> ts).
Proof.
  intros Hh Hd Hc h'. destruct (decide (h = h')) as [<-|Hne].
  - rewrite list_lookup_insert_eq by (by eapply lookup_lt_Some).
    rewrite Hh. cbn. by rewrite Hd, Hc.
  - by rewrite list_lookup_insert_ne.
Qed.

Lemma chunk_data_same fileChunks ts ts' i :
  same_data ts ts' -> chunk_data fileChunks ts i = chunk_data fileChunks ts' i.
Proof.
  intros Hs. unfold chunk_data. destruct (fileChunks !! i) as [h|]; [|done].
  destruct (Hs h) as [Hd _].
  destruct (ts !! h), (ts' !! h); cbn in Hd; congruence.
Qed.

Lemma chunks_concat_from_same fileChunks ts ts' i n :
  same_data ts ts' ->
  chunks_concat_from fileChunks ts i n = chunks_concat_from fileChunks ts' i n.
Proof.
  intros Hs. unfold chunks_concat_from. f_equal.
  apply list_fmap_ext. intros. by apply chunk_data_same.
Qed.

Lemma chunks_ready_same fileChunks ts ts' :
  same_data ts ts' -> chunks_ready fileChunks ts -> chunks_ready fileChunks ts'.
Proof.
  intros Hs Hr i Hi. destruct (Hr i Hi) as (h & t & Hh & Ht & Hc).
  destruct (Hs h) as [_ Hcl]. rewrite Ht in Hcl. cbn in Hcl.
  destruct (ts' !! h) as [t'|] eqn:Ht'; [|done].
  exists h, t'. cbn in Hcl. split_and!; congruence.
Qed.

Lemma chunks_concat_from_S fileChunks ts i n :
  chunks_concat_from fileChunks ts i (S n)
  = chunk_data fileChunks ts i ++ chunks_concat_from fileChunks ts (i + 1) n.
Proof.
  unfold chunks_concat_from. rewrite seqZ_cons by lia. cbn [fmap list_fmap concat].
  replace (Z.pred (Z.of_nat (S n))) with (Z.of_nat n) by lia.
  by rewrite <- Z.add_1_r.
Qed.

(** One iteration on a ready chunk: the whole part file is appended at the
    output cursor, wherever the part file's own cursor was. *)
Lemma combine_chunk_ok env fileChunks path i st h t cur :
  os_Write_fails env path i = false ->
  fileChunks !! i = Some h -> temps (cb_disk st) !! h = Some t ->
  t_closed t = false -> files (cb_disk st) !! path = Some cur ->
  exists st',
    combine_chunk env fileChunks path i st = (st', None)
    /\ files (cb_disk st') = <[path := write_at cur (cb_outPos st) (t_data t)]> (files (cb_disk st))
    /\ cb_outPos st' = (cb_outPos st + length (t_data t))%nat
    /\ same_data (temps (cb_disk st)) (temps (cb_disk st')).
Proof.
  intros Hw Hh Ht Hc Hcur. unfold combine_chunk.
  rewrite Hh, Ht, Hc. cbn [file_ReadAll file_Seek0 t_pos t_data]. rewrite Hw, Hcur.
  rewrite drop_0. eexists. split; [reflexivity|]. cbn.
  split_and!; [done..|]. by eapply same_data_insert.
Qed.

Lemma combine_loop_ok env fileChunks path :
  (forall i, os_Write_fails env path i = false) ->
  Z.of_nat (size fileChunks) <= GoInt.max_int ->
  forall fuel i st cur,
    0 <= i -> i + Z.of_nat fuel = Z.of_nat (size fileChunks) ->
    chunks_ready fileChunks (temps (cb_disk st)) ->
    files (cb_disk st) !! path = Some cur ->
    exists st',
      combine_loop fuel env fileChunks path i st = (st', None)
      /\ files (cb_disk st')
         = <[path := write_at cur (cb_outPos st)
                       (chunks_concat_from fileChunks (temps (cb_disk st)) i fuel)]>
             (files (cb_disk st))
      /\ cb_outPos st'
         = (cb_outPos st
            + length (chunks_concat_from fileChunks (temps (cb_disk st)) i fuel))%nat
      /\ same_data (temps (cb_disk st)) (temps (cb_disk st')).
Proof.
  intros Hw Hmax. induction fuel as [|fuel IH]; intros i st cur Hi Hfuel Hready Hcur.
  - exists st. cbn [combine_loop]. split; [done|].
    unfold chunks_concat_from. cbn. rewrite Nat.add_0_r.
    split_and!; [by rewrite insert_id|done|apply same_data_refl].
  - cbn [combine_loop]. destruct (Z.ltb_spec i (Z.of_nat (size fileChunks))); [|lia].
    destruct (Hready i ltac:(lia)) as (h & t & Hh & Ht & Hc).
    destruct (combine_chunk_ok env fileChunks path i st h t cur (Hw i) Hh Ht Hc Hcur)
      as (st1 & -> & Hf1 & Hp1 & Hs1).
    unfold GoInt.add, GoInt.max_int in *. rewrite wrap_small by lia.
    destruct (IH (i + 1) st1 (write_at cur (cb_outPos st) (t_data t)))
      as (st' & -> & Hf' & Hp' & Hs'); [lia|lia| |..].
    { by eapply chunks_ready_same. }
    { rewrite Hf1. apply lookup_insert_eq. }
    exists st'. split; [done|].
    rewrite chunks_concat_from_S.
    rewrite <- (chunks_concat_from_same _ _ _ _ _ Hs1) in Hf', Hp'.
    assert (chunk_data fileChunks (temps (cb_disk st)) i = t_data t) as ->
      by (unfold chunk_data; by rewrite Hh, Ht).
    split_and!.
    + rewrite Hf', Hf1, Hp1, insert_insert_eq. by rewrite write_at_app.
    + rewrite Hp', Hp1, length_app. lia.
    + by eapply same_data_trans.
Qed.

(** C7. [combineChunks] copies the chunks in ascending index order
    [0..N-1], each part file rewound to offset 0 and copied whole, whatever
    cursor positions the fetches left behind: the bytes written at the
    output cursor are the concatenation of the chunks in index order, and a
    freshly created output file ends up holding exactly that
    concatenation. *)
Theorem C7_combineChunks_in_index_order env (fileChunks : gmap Z nat)
    (path : string) (outPos : nat) (dk : Disk) (old : list byte) :
  chunks_ready fileChunks (temps dk) ->
  (forall i, os_Write_fails env path i = false) ->
  Z.of_nat (size fileChunks) <= GoInt.max_int ->
  files dk !! path = Some old ->
  combined env fileChunks path outPos dk old.
Proof.
  intros Hready Hw Hmax Hold. unfold combineChunks.
  destruct (combine_loop_ok env fileChunks path Hw Hmax (size fileChunks) 0
              {| cb_disk := dk; cb_outPos := outPos; cb_w := 0 |} old)
    as (st & Hrun & Hf & Hp & Hs); [lia|lia|done|done|].
  exists st. cbn in Hf, Hp, Hs. unfold combineChunks. split_and!; [done..|].
  intros -> ->. rewrite Hf, lookup_insert_eq. by rewrite write_at_fresh.
Qed.

Lemma C7_combineChunks_in_index_order_witness :
  combined (Scenario.server "4" 206 []) Scenario.two_chunks "d/f" 0
    Scenario.two_parts [].
Proof.
  assert (size Scenario.two_chunks = 2%nat) as Hsz by (vm_compute; reflexivity).
  apply (C7_combineChunks_in_index_order (Scenario.server "4" 206 [])
           Scenario.two_chunks "d/f" 0 Scenario.two_parts []).
  - intros i Hi. rewrite Hsz in Hi.
    assert (i = 0 \/ i = 1) as [-> | ->] by lia.
    + exists 1%nat. eexists. split_and!; [vm_compute; reflexivity|reflexivity|reflexivity].
    + exists 0%nat. eexists. split_and!; [vm_compute; reflexivity|reflexivity|reflexivity].
  - reflexivity.
  - rewrite Hsz. unfold GoInt.max_int. lia.
  - vm_compute; reflexivity.
Defined.

Example combineChunks_two_parts :
  let '(st, r) := combineChunks (Scenario.server "4" 206 []) Scenario.two_chunks
                    "d/f" 0 Scenario.two_parts in
  r = None /\ files (cb_disk st) !! "d/f"%string = Some [x01; x02; x03; x04].
Proof. vm_compute. split; reflexivity. Qed.

(** ** The goroutines: what a step leaves alone *)

Ltac bool_hyps :=
  repeat match goal with
    | H : (_ <? _) = false |- _ => apply Z.ltb_ge in H
    | H : (_ <? _) = true |- _ => apply Z.ltb_lt in H
    end.

Ltac crack_step H :=
  unfold step_main, step_job, step_fetch in H;
  simplify_option_eq;
  repeat (case_match; simplify_option_eq);
  bool_hyps.

Lemma step_job_frame env s c j s' :
  step_job env s c j = Some s' ->
  m_pc s' = m_pc s /\ pending s' = pending s /\ results s' = results s
  /\ downloadOptions (d s') = downloadOptions (d s)
  /\ length (calls s') = length (calls s).
Proof.
  intros H. crack_step H.
  all: unfold job_return; repeat case_match; cbn; rewrite ?length_insert.
  all: by split_and!.
Qed.

Lemma step_fetch_frame env s c k s' :
  step_fetch env s c k = Some s' ->
  m_pc s' = m_pc s /\ pending s' = pending s /\ results s' = results s
  /\ downloadOptions (d s') = downloadOptions (d s)
  /\ downloadPaths (d s') = downloadPaths (d s)
  /\ length (calls s') = length (calls s)
  /\ files (disk s') = files (disk s).
Proof.
  intros H. crack_step H.
  all: unfold fetch_return; repeat case_match; cbn; rewrite ?length_insert.
  all: by split_and!.
Qed.

Lemma step_main_frame env s s' :
  step_main env s = Some s' ->
  downloadOptions (d s') = downloadOptions (d s)
  /\ downloadPaths (d s') = downloadPaths (d s)
  /\ err (d s') = err (d s)
  /\ disk s' = disk s.
Proof. intros H. crack_step H; by cbn. Qed.

Lemma step_options env s t s' :
  step env s t = Some s' -> downloadOptions (d s') = downloadOptions (d s).
Proof.
  unfold step. intros H. destruct (crashed s); [done|]. destruct t.
  - by apply step_main_frame in H as (? & _).
  - by apply step_job_frame in H as (_ & _ & _ & ? & _).
  - by apply step_fetch_frame in H as (_ & _ & _ & ? & _).
Qed.

(** An invariant of every step holds along every schedule. *)
Lemma run_invariant env (I : State -> Prop) :
  (forall s t s', I s -> step env s t = Some s' -> I s') ->
  forall sched s, I s -> I (run env sched s).
Proof.
  intros Hstep. induction sched as [|t sched IH]; intros s Hs; [done|].
  cbn [run]. apply IH. destruct (step env s t) eqn:E; [|done]. by eapply Hstep.
Qed.

(** ** The Concurrency Limiter *)

Lemma count_if_insert {A} (P : A -> bool) (l : list A) (k : nat) x y :
  l !! k = Some x ->
  (count_if P (<[k := y]> l) + (if P x then 1 else 0)
   = count_if P l + (if P y then 1 else 0))%nat.
Proof.
  unfold count_if. revert k. induction l as [|a l IH]; intros k Hk; [done|].
  destruct k as [|k]; cbn in Hk.
  - simplify_eq. change (<[0%nat := y]> (x :: l)) with (y :: l).
    rewrite !filter_cons.
    destruct (P x), (P y); repeat case_decide; cbn [length]; try done; lia.
  - change (<[S k := y]> (a :: l)) with (a :: <[k := y]> l).
    rewrite !filter_cons. specialize (IH k Hk).
    destruct (P x), (P y); case_decide; cbn [length]; lia.
Qed.

Lemma count_if_snoc {A} (P : A -> bool) (l : list A) x :
  count_if P (l ++ [x]) = (count_if P l + (if P x then 1 else 0))%nat.
Proof.
  unfold count_if. rewrite filter_app, length_app. f_equal.
  rewrite filter_cons, filter_nil. destruct (P x); by case_decide.
Qed.

Lemma count_if_pos {A} (P : A -> bool) (l : list A) (k : nat) x :
  l !! k = Some x -> P x = true -> (1 <= count_if P l)%nat.
Proof.
  unfold count_if. intros Hk HP. revert k Hk.
  induction l as [|a l IH]; intros k Hk; [done|].
  rewrite filter_cons. destruct k as [|k]; cbn in Hk.
  - simplify_eq. rewrite decide_True by done. cbn. lia.
  - specialize (IH k Hk). case_decide; cbn [length]; lia.
Qed.

Lemma count_if_none {A} (P : A -> bool) (l : list A) :
  Forall (fun x => P x = false) l -> count_if P l = 0%nat.
Proof.
  unfold count_if. induction 1 as [|x l Hx _ IH]; [done|].
  rewrite filter_cons, decide_False by congruence. done.
Qed.

Lemma step_limiter env s t s' :
  limiter_inv s -> step env s t = Some s' -> limiter_inv s'.
Proof.
  unfold limiter_inv, step. intros Hinv H.
  destruct (crashed s); [done|]. destruct t.
  - crack_step H; cbn; try done.
    + apply Forall_app. split; [done|]. apply Forall_singleton.
      split; [vm_compute; lia|cbn; lia].
    + apply Forall_insert; [done|].
      match goal with Hc : calls _ !! _ = Some ?call |- _ =>
        pose proof (Forall_lookup_1 _ _ _ _ Hinv Hc) as [Hfl Hcap] end.
      by split.
  - crack_step H.
    all: unfold job_return; repeat case_match; cbn; try done.
    all: apply Forall_insert; [done|].
    all: match goal with Hc : calls _ !! _ = Some ?call |- _ =>
           pose proof (Forall_lookup_1 _ _ _ _ Hinv Hc) as [Hfl Hcap] end.
    all: unfold permits_bounded, in_flight in *; cbn.
    all: rewrite ?count_if_snoc; cbn; try (split; lia).
  - crack_step H.
    all: unfold fetch_return; repeat case_match; cbn; try done.
    all: apply Forall_insert; [done|].
    all: match goal with Hc : calls _ !! _ = Some ?call |- _ =>
           pose proof (Forall_lookup_1 _ _ _ _ Hinv Hc) as [Hfl Hcap] end.
    all: unfold permits_bounded, in_flight in *; cbn.
    all: match goal with Hf : c_fetchers _ !! ?k = Some ?f |- context [<[?k := ?f']> _] =>
           pose proof (count_if_insert holds_permit _ _ _ f' Hf) as Hins end.
    all: unfold holds_permit in *; cbn in *.
    all: repeat match goal with H : f_pc _ = _ |- _ => rewrite H in * end.
    all: split; try lia.
Qed.

Lemma run_options env sched s :
  downloadOptions (d (run env sched s)) = downloadOptions (d s).
Proof.
  revert s. induction sched as [|t sched IH]; intros s; [done|].
  cbn [run]. rewrite IH. destruct (step env s t) eqn:E; [|done].
  by eapply step_options.
Qed.

(** C5 (as amended). Along every schedule of every program of [Download]
    calls, in every call the range fetches that hold a permit (launched,
    which follows the send of the job on [waitchan], and not yet past their
    deferred receive; the HTTP exchange and the copy of the body fall into
    this span) number at most the permits in the call's channel, which
    number at most [MaxLimitConcurrency]. The bound does not extend to the
    fetches that are still running, or to the responses that are still
    open: see the example that follows. *)
Theorem C5_in_flight_bounded env (dl : Downloader) (dk : Disk)
    (program : list (list string)) (sched : list Tid) :
  Forall (fun call =>
            (in_flight call <= c_waitChan call)%nat
            /\ Z.of_nat (c_waitChan call) <= MaxLimitConcurrency (downloadOptions dl)
            /\ Z.of_nat (in_flight call) <= MaxLimitConcurrency (downloadOptions dl))
         (calls (run env sched (init dl dk program))).
Proof.
  assert (limiter_inv (run env sched (init dl dk program))) as Hinv.
  { apply run_invariant; [intros; by eapply step_limiter|]. by apply Forall_nil. }
  unfold limiter_inv in Hinv. rewrite run_options in Hinv. cbn in Hinv.
  eapply Forall_impl; [exact Hinv|]. intros call [H1 H2]. split_and!; [done..|lia].
Qed.

(** C5 as stated fails for the fetches that have not finished. With a
    single permit and a batch of two small files, the first fetch copies
    its body and gives its permit back; its deferred [Body.Close()] and
    [wg.Done()] are still to run when the second job sends on [waitchan]
    and its fetch receives a response. Two fetches are running, each with
    an open response, under [MaxLimitConcurrency = 1]; one of them holds a
    permit. *)
Lemma C5_fetch_outlives_its_permit :
  let env := Scenario.server_with_missing in
  let s := run env
             ([TMain; TMain; TMain; TMain; TMain; TMain]
                ++ [TJob 0 0; TJob 0 0; TJob 0 0; TJob 0 0]
                ++ [TFetch 0 0; TFetch 0 0; TFetch 0 0]
                ++ [TJob 0 1; TJob 0 1; TJob 0 1; TJob 0 1]
                ++ [TFetch 0 1])
             (init (NewDownloader Scenario.opts_one_permit) Scenario.empty_disk
                [["http://h/a"; "http://h/b"]%string]) in
  MaxLimitConcurrency (downloadOptions (d s)) = 1
  /\ (map f_pc <$> (c_fetchers <$> calls s))
     = [[FClosing; FResponse 200 [x01; x02; x03; x04] false]]
  /\ (alive <$> calls s) = [2%nat]
  /\ (open_responses <$> calls s) = [2%nat]
  /\ (in_flight <$> calls s) = [1%nat]
  /\ (c_waitChan <$> calls s) = [1%nat].
Proof. vm_compute. repeat split; reflexivity. Qed.

(** ** [Download]: a failing probe *)

Lemma job_urls_insert (j : nat) job job' call call' :
  c_jobs call' = <[j := job']> (c_jobs call) ->
  c_jobs call !! j = Some job -> j_url job' = j_url job ->
  job_urls call' = job_urls call.
Proof.
  intros Hc Hj Hu. unfold job_urls. rewrite Hc.
  rewrite list_fmap_insert, Hu. apply list_insert_id.
  by rewrite list_lookup_fmap, Hj.
Qed.

Lemma call_urls_insert (c : nat) call call' s s' :
  calls s' = <[c := call']> (calls s) ->
  calls s !! c = Some call -> job_urls call' = job_urls call ->
  call_urls s' = call_urls s.
Proof.
  intros Hs Hc Hu. unfold call_urls. rewrite Hs.
  rewrite list_fmap_insert, Hu. apply list_insert_id.
  by rewrite list_lookup_fmap, Hc.
Qed.

Ltac solve_urls :=
  try done;
  (eapply call_urls_insert; [by cbn|eassumption|]);
  try done;
  (eapply job_urls_insert; [by cbn|eassumption|by cbn]).

Lemma step_job_urls env s c j s' :
  step_job env s c j = Some s' -> call_urls s' = call_urls s.
Proof.
  intros H. crack_step H.
  all: unfold job_return; repeat case_match; solve_urls.
Qed.

Lemma step_fetch_urls env s c k s' :
  step_fetch env s c k = Some s' -> call_urls s' = call_urls s.
Proof.
  intros H. crack_step H.
  all: unfold fetch_return; repeat case_match; solve_urls.
Qed.

Lemma crashed_step env s t : crashed s = true -> step env s t = None.
Proof. unfold step. by intros ->. Qed.

Lemma crashed_run env sched s : crashed s = true -> run env sched s = s.
Proof.
  intros H. induction sched as [|t sched IH]; [done|].
  cbn [run]. by rewrite crashed_step.
Qed.

Section probe_failure.
Variable env : Env.
Variables pre post : list string.
Variable u : string.
Hypothesis pre_ok : Forall (fun v => probe_fails env v = false) pre.
Hypothesis u_fails : probe_fails env u = true.

Lemma probe_phase_other s n t s' :
  t <> TMain -> probe_phase pre u post s n -> step env s t = Some s' ->
  probe_phase pre u post s' n.
Proof.
  intros Ht Hph Hstep. unfold step in Hstep. destruct (crashed s); [done|].
  assert (m_pc s' = m_pc s /\ pending s' = pending s /\ results s' = results s
          /\ call_urls s' = call_urls s) as (Hm & Hp & Hr & Hu).
  { destruct t; [done|..].
    - pose proof (step_job_frame _ _ _ _ _ Hstep) as (? & ? & ? & _).
      by pose proof (step_job_urls _ _ _ _ _ Hstep).
    - pose proof (step_fetch_frame _ _ _ _ _ Hstep) as (? & ? & ? & _).
      by pose proof (step_fetch_urls _ _ _ _ _ Hstep). }
  unfold probe_phase. by rewrite Hm, Hp, Hr, Hu.
Qed.

Lemma probe_phase_main s n :
  probe_phase pre u post s n ->
  match step_main env s with
  | None => n = O
  | Some s' =>
      crashed s' = true /\ probe_phase pre u post s' n
      \/ exists n', probe_phase pre u post s' n' /\ (n' < n)%nat
  end.
Proof.
  intros [(Hm & Hp & Hr & Hu & ->) | [(launched & rest & -> & Hpc & Hp & Hr & Hu)
                                     | (Hm & Hp & -> & _)]].
  - unfold step_main. rewrite Hm, Hp.
    destruct (MaxLimitConcurrency (downloadOptions (d s)) <? 0).
    { left. split; [done|]. by left. }
    right.
    exists (2 * length pre + 1)%nat. split; [|lia]. right; left.
    exists [], pre. split; [done|]. cbn.
    split; [left; split; [|done]|].
    + do 2 f_equal. unfold call_urls in Hu. by destruct (calls s).
    + split_and!; [done..|]. unfold call_urls in *. cbn.
      rewrite fmap_app, Hu. done.
  - unfold call_urls in Hu.
    destruct (calls s) as [|call [|]] eqn:Hcalls; try done.
    cbn in Hu. injection Hu as Hu.
    destruct Hpc as [[Hm ->] | [Hm ->]]; unfold step_main; rewrite Hm.
    + destruct rest as [|v rest]; cbn [app].
      * unfold probe_fails in u_fails.
        destruct (checkFileSizeWithHeaderContentLength env u); [|done].
        right. exists O. split; [|cbn; lia]. right; right. cbn.
        rewrite Hr, Hcalls. split_and!; [done..|by eexists|].
        exists launched. cbn. rewrite Hu.
        split; [done|]. by rewrite app_nil_r.
      * apply Forall_app in pre_ok as [_ Hv]. apply Forall_cons in Hv as [Hv _].
        unfold probe_fails in Hv.
        destruct (checkFileSizeWithHeaderContentLength env v); [done|].
        rewrite Hcalls. cbn.
        right. exists (2 * length rest + 2)%nat. split; [|cbn; lia]. right; left.
        exists (launched ++ [v]), rest. rewrite <- app_assoc. split; [done|].
        split; [by right|]. split_and!; [done..|].
        unfold call_urls. cbn. rewrite Hcalls. cbn. unfold job_urls in *. cbn.
        by rewrite fmap_app, Hu.
    + destruct (err (d s)).
      * right. exists O. split; [|lia]. right; right. cbn.
        rewrite Hr, Hcalls. split_and!; [done..|by eexists|].
        exists launched. cbn. rewrite Hu.
        split; [done|]. by apply prefix_app_r.
      * right. exists (2 * length rest + 1)%nat. split; [|lia]. right; left.
        exists launched, rest. split; [done|]. split; [by left|].
        split_and!; [done..|]. unfold call_urls. cbn. by rewrite Hcalls, <- Hu.
  - unfold step_main. by rewrite Hm, Hp.
Qed.

End probe_failure.

Lemma first_failing_probe env (urls : list string) (i : nat) u :
  urls !! i = Some u -> probe_fails env u = true ->
  exists pre u0 post,
    urls = pre ++ u0 :: post
    /\ Forall (fun v => probe_fails env v = false) pre
    /\ probe_fails env u0 = true
    /\ pre `prefix_of` take i urls.
Proof.
  revert i. induction urls as [|v urls IH]; intros i Hi Hu; [done|].
  destruct (probe_fails env v) eqn:Hv.
  - exists [], v, urls. split_and!; [done..|]. apply prefix_nil.
  - destruct i as [|i]; cbn in Hi; [simplify_eq; congruence|].
    destruct (IH i Hi Hu) as (pre & u0 & post & -> & Hpre & Hu0 & Hpf).
    exists (v :: pre), u0, post. split_and!; [done|by constructor|done|].
    cbn [take]. by apply prefix_cons.
Qed.

Lemma probe_phase_run env pre u post sched :
  Forall (fun v => probe_fails env v = false) pre ->
  probe_fails env u = true ->
  forall s n,
    probe_phase pre u post s n ->
    exists n',
      probe_phase pre u post (run env sched s) n'
      /\ (crashed (run env sched s) = false -> (n' <= n - main_steps sched)%nat).
Proof.
  intros Hpre Hu. induction sched as [|t sched IH]; intros s n Hph.
  { exists n. split; [done|]. cbn. lia. }
  cbn [run]. destruct (decide (t = TMain)) as [->|Ht].
  - cbn [main_steps]. destruct (crashed s) eqn:Hcr.
    { rewrite crashed_step by done. cbn. exists n. rewrite crashed_run by done.
      split; [done|intros; congruence]. }
    assert (step env s TMain = step_main env s) as ->
      by (unfold step; by rewrite Hcr).
    pose proof (probe_phase_main env pre post u Hpre Hu s n Hph) as Hmain.
    destruct (step_main env s) as [s'|] eqn:Hstep; cbn.
    + destruct Hmain as [[Hcr' Hph'] | (n' & Hph' & Hlt)].
      * rewrite crashed_run by done.
        exists n. split; [done|intros; congruence].
      * destruct (IH s' n' Hph') as (n'' & Hph'' & Hle).
        exists n''. split; [done|]. intros Hc. specialize (Hle Hc). lia.
    + subst n. destruct (IH s O Hph) as (n'' & Hph'' & Hle).
      exists n''. split; [done|]. intros Hc. specialize (Hle Hc). lia.
  - assert (main_steps (t :: sched) = main_steps sched) as ->
      by (destruct t; done).
    destruct (step env s t) as [s'|] eqn:Hstep; cbn.
    + apply IH. by eapply probe_phase_other.
    + by apply IH.
Qed.

(** C8. If the HEAD probe of some URL of the batch fails (transport error,
    status other than 200, or an unparsable [Content-Length]), [Download]
    returns a nil path list and a non-nil error without ever waiting for
    the jobs it launched, and launches no job for the failing URL or any
    URL after it. *)
Theorem C8_probe_failure_aborts_batch env (dl : Downloader) (dk : Disk)
    (fileUrls : list string) (i : nat) (u : string) (sched : list Tid) :
  fileUrls !! i = Some u -> probe_fails env u = true ->
  aborted_by_probe fileUrls i sched (run env sched (init dl dk [fileUrls])).
Proof.
  intros Hi Hu.
  destruct (first_failing_probe env fileUrls i u Hi Hu)
    as (pre & u0 & post & -> & Hpre & Hu0 & Hpf).
  assert (length pre <= i)%nat as Hlen.
  { apply prefix_length in Hpf. rewrite length_take in Hpf. lia. }
  destruct (probe_phase_run env pre u0 post sched Hpre Hu0
              (init dl dk [pre ++ u0 :: post]) (2 * length pre + 2)%nat)
    as (n' & Hph & Hn').
  { left. by cbn. }
  set (s := run env sched _) in *.
  assert (forall launched, launched `prefix_of` pre ->
            launched `prefix_of` take i (pre ++ u0 :: post)) as Hpref.
  { intros launched Hl. by etrans. }
  destruct Hph as [(Hm & Hp & Hr & Hcu & ->)
                  | [(launched & rest & Hsplit & Hpc & Hp & Hr & Hcu)
                    | (Hm & Hp & -> & Hres & launched & Hcu & Hl)]].
  - split_and!.
    + intros c. by rewrite Hm.
    + by left.
    + by left.
    + intros Hc Hsteps. specialize (Hn' Hc). lia.
  - split_and!.
    + intros c. by destruct Hpc as [[-> _] | [-> _]].
    + by left.
    + right. exists launched. split; [done|]. apply Hpref. rewrite Hsplit.
      by apply prefix_app_r.
    + intros Hc Hsteps. specialize (Hn' Hc). destruct Hpc as [[_ ->] | [_ ->]]; lia.
  - split_and!.
    + intros c. by rewrite Hm.
    + by right.
    + right. exists launched. split; [done|]. by apply Hpref.
    + done.
Qed.

Lemma C8_probe_failure_aborts_batch_witness :
  exists e,
    results (run Scenario.server_with_missing [TMain; TMain; TMain; TMain]
               (init (NewDownloader Scenario.opts) Scenario.empty_disk
                  [Scenario.batch_with_missing]))
    = [([], Some e)].
Proof.
  refine (proj2 (proj2 (proj2
            (C8_probe_failure_aborts_batch Scenario.server_with_missing
               (NewDownloader Scenario.opts) Scenario.empty_disk
               Scenario.batch_with_missing 1 "http://h/missing"
               [TMain; TMain; TMain; TMain] _ _))) _ _).
  - reflexivity.
  - reflexivity.
  - reflexivity.
  - cbn. lia.
Defined.

(** ** The ledger: [err] and [downloadPaths] *)

Lemma never_reset_refl s : never_reset s s.
Proof. by split. Qed.

Lemma never_reset_trans s1 s2 s3 :
  never_reset s1 s2 -> never_reset s2 s3 -> never_reset s1 s3.
Proof. intros [? ?] [? ?]. split; auto. Qed.

Lemma step_ledger env s t s' : step env s t = Some s' -> never_reset s s'.
Proof.
  unfold step, never_reset. intros H. destruct (crashed s); [done|]. destruct t.
  - apply step_main_frame in H as (_ & -> & -> & _). done.
  - crack_step H.
    all: unfold job_return; repeat case_match; cbn; split; try done.
    all: intros _; by destruct paths.
  - crack_step H.
    all: unfold fetch_return; repeat case_match; cbn; by split.
Qed.

Lemma step_results env s t s' :
  step env s t = Some s' ->
  results s' = results s
  \/ exists r, results s' = results s ++ [r] /\ returned_from (downloadPaths (d s)) r.
Proof.
  unfold step. intros H. destruct (crashed s); [done|]. destruct t.
  - crack_step H; cbn; try (by left); right; eexists; (split; [done|]).
    + right. by eexists.
    + right. by eexists.
    + by left.
  - left. by apply step_job_frame in H as (_ & _ & ? & _).
  - left. by apply step_fetch_frame in H as (_ & _ & ? & _).
Qed.

Lemma run_ledger env sched s : never_reset s (run env sched s).
Proof.
  revert s. induction sched as [|t sched IH]; intros s; [apply never_reset_refl|].
  cbn [run]. destruct (step env s t) as [s'|] eqn:E; cbn; [|done].
  eapply never_reset_trans; [by eapply step_ledger|done].
Qed.

(** Every result of [Download] carries a nil error or a nil path list. *)
Lemma returned_error_or_paths paths r :
  returned_from paths r -> snd r = None \/ fst r = [].
Proof. intros [-> | [e ->]]; [by left|by right]. Qed.

Lemma run_returns env sched s : returns_since s (run env sched s).
Proof.
  revert s. induction sched as [|t sched IH]; intros s.
  { exists []. by rewrite app_nil_r. }
  cbn [run]. destruct (step env s t) as [s'|] eqn:E; cbn; [|done].
  destruct (IH s') as (new & Hres & Hnew).
  destruct (step_results _ _ _ _ E) as [Heq | (r & Heq & Hr)].
  - exists new. by rewrite Hres, Heq.
  - exists (r :: new). rewrite Hres, Heq, <- app_assoc. split; [done|].
    constructor; [|done]. by eapply returned_error_or_paths.
Qed.

(** ** A failed range fetch *)

(** C2, evaluated on a batch of two files of which the second answers its
    GET with 404: the fetch stores the error in [d.err], yet after
    [wg.Wait()] [Download] returns a nil error, and the path of the failed
    job is in the returned list next to the one of the job that
    succeeded. *)
Lemma C2_fetch_failure_returns_nil_error :
  let s := run Scenario.server_with_gone (Scenario.download_two 0)
             (Scenario.one_call ["http://h/a"; "http://h/gone"]%string) in
  results s = [(["d/a"; "d/gone"]%string, None)]
  /\ err (d s) = Some (ErrStatusCode 404)
  /\ files (disk s) !! "d/a"%string = Some [x01; x02; x03; x04]
  /\ files (disk s) !! "d/gone"%string = Some [].
Proof. vm_compute. repeat split; reflexivity. Qed.

(** X2. On no schedule does [Download] return an error together with
    paths: every result of every call carries a nil error or the nil path
    list. *)
Lemma Download_error_or_paths env (dl : Downloader) (dk : Disk)
    (program : list (list string)) (sched : list Tid) :
  Forall (fun r => snd r = None \/ fst r = [])
         (results (run env sched (init dl dk program))).
Proof.
  by destruct (run_returns env sched (init dl dk program)) as (new & -> & Hnew).
Qed.

(** ** A fetch that fails before it has a response *)

(** When [http.NewRequest] or [client.Do] fails, [downloadFileForRange]
    returns before its deferred receive from [waitchan] is registered: the
    fetch is over and the channel holds as many permits as before. *)
Lemma fetch_failure_keeps_permit env s (c k : nat) call f :
  crashed s = false ->
  calls s !! c = Some call -> c_fetchers call !! k = Some f ->
  f_pc f = FRequest ->
  (http_NewRequest_fails env (f_url f) = true
   \/ client_Do env (f_url f) (request_headers (f_byteRange f)) = GetFailed) ->
  exists s',
    step env s (TFetch c k) = Some s'
    /\ is_Some (err (d s'))
    /\ (crashed s' = true
        \/ exists call',
             calls s' !! c = Some call'
             /\ c_waitChan call' = c_waitChan call
             /\ c_fetchers call' !! k = Some (fetcher_at FReturned f)).
Proof.
  intros Hcr Hc Hk Hpc Hfail. unfold step, step_fetch. rewrite Hcr, Hc. cbn.
  rewrite Hk. cbn. rewrite Hpc.
  assert (exists e,
            (if http_NewRequest_fails env (f_url f)
             then Some (fetch_return c k call f (set_err ErrNewRequest s))
             else match client_Do env (f_url f) (request_headers (f_byteRange f)) with
                  | GetFailed => Some (fetch_return c k call f (set_err ErrClientDo s))
                  | GetResponse status body readError =>
                      Some (put_call c
                              (put_fetcher k (fetcher_at (FResponse status body readError) f)
                                 call) s)
                  end)
            = Some (fetch_return c k call f (set_err e s))) as [e ->].
  { destruct Hfail as [-> | Hdo]; [by eexists|].
    destruct (http_NewRequest_fails env (f_url f)); [by eexists|].
    rewrite Hdo. by eexists. }
  eexists. split; [done|]. unfold fetch_return.
  destruct (c_jobs call !! f_job f) as [job|]; [|by split; [|left]].
  destruct (wg_Done (j_wg1 job)) as [n|]; [|by split; [|left]].
  split; [done|]. right. cbn.
  exists (put_fetcher k (fetcher_at FReturned f) (put_job (f_job f) (job_wg1 n job) call)).
  split_and!.
  - apply list_lookup_insert_eq. by eapply lookup_lt_Some.
  - done.
  - cbn. apply list_lookup_insert_eq. by eapply lookup_lt_Some.
Qed.

(** C3, evaluated on a large file in two parts with one permit, on a host
    whose GET connections fail: the first fetch returns with [d.err] set
    and without receiving from [waitchan], so the channel stays full; the
    job's second send can never proceed and no goroutine can move: the call
    of [Download] never returns. *)
Lemma C3_transport_failure_keeps_permit :
  let env := Scenario.server_refusing_get in
  let s := run env
             [TMain; TMain; TMain; TMain;
              TJob 0 0; TJob 0 0; TJob 0 0; TJob 0 0; TJob 0 0; TFetch 0 0]
             (init (NewDownloader Scenario.opts_one_permit) Scenario.empty_disk
                [["http://h/big"%string]]) in
  (exists call f job,
      calls s = [call] /\ c_fetchers call = [f] /\ c_jobs call = [job]
      /\ f_pc f = FReturned
      /\ f_byteRange f = "0-5767167"%string
      /\ j_pc job = JSend (5767168, 11534335) 1
      /\ c_waitChan call = 1%nat)
  /\ err (d s) = Some ErrClientDo
  /\ crashed s = false
  /\ results s = []
  /\ forall t, step env s t = None.
Proof.
  cbv zeta. remember (run _ _ _) as s eqn:Hs. vm_compute in Hs. subst s.
  split; [eexists _, _, _; by split_and!|].
  split_and!; [done..|].
  intros [|c j|c k].
  - reflexivity.
  - destruct c as [|c]; [destruct j as [|j]|]; reflexivity.
  - destruct c as [|c]; [destruct k as [|k]|]; reflexivity.
Qed.

(** ** A job whose output file already exists *)

Lemma combine_chunk_files env fileChunks path i st p :
  is_Some (files (cb_disk st) !! p) ->
  is_Some (files (cb_disk (combine_chunk env fileChunks path i st).1) !! p).
Proof.
  intros Hp. unfold combine_chunk. repeat case_match; simplify_eq; cbn; try done.
  apply lookup_insert_is_Some'. by right.
Qed.

Lemma combine_loop_files env fileChunks path p fuel : forall i st,
  is_Some (files (cb_disk st) !! p) ->
  is_Some (files (cb_disk (combine_loop fuel env fileChunks path i st).1) !! p).
Proof.
  induction fuel as [|fuel IH]; intros i st Hp; [done|].
  cbn [combine_loop]. case_match; [|done].
  pose proof (combine_chunk_files env fileChunks path i st p Hp) as Hc.
  destruct (combine_chunk env fileChunks path i st) as [st' [e|]]; [done|].
  by apply IH.
Qed.

(** Output files are created and written, never removed. *)
Lemma step_files_mono env s t s' p :
  step env s t = Some s' ->
  is_Some (files (disk s) !! p) -> is_Some (files (disk s') !! p).
Proof.
  unfold step. intros H Hp. destruct (crashed s); [done|]. destruct t.
  - by apply step_main_frame in H as (_ & _ & _ & ->).
  - crack_step H.
    all: unfold job_return; repeat case_match; cbn; try done.
    all: try (apply lookup_insert_is_Some'; by right).
    all: match goal with
         | Hc : combineChunks _ _ _ _ _ = (?st, _) |- _ =>
             unfold combineChunks in Hc;
             change st with ((st, @None error).1) || idtac
         end.
    all: match goal with
         | Hc : combine_loop ?f ?e ?m ?pa ?i ?st0 = _ |- _ =>
             pose proof (combine_loop_files e m pa p f i st0 Hp) as Hm;
             rewrite Hc in Hm
         end; done.
  - by apply step_fetch_frame in H as (_ & _ & _ & _ & _ & _ & ->).
Qed.

Lemma job_view_put (c c' j : nat) call0 call' s s' (v : JobView) :
  calls s' = <[c' := call']> (calls s) -> calls s !! c' = Some call0 ->
  (c = c' -> view_in call0 j = Some v -> view_in call' j = Some v) ->
  job_view s c j = Some v -> job_view s' c j = Some v.
Proof.
  unfold job_view. intros -> Hc Hv. rewrite list_lookup_insert.
  case_decide as Hd; [|done]. destruct Hd as [-> _]. rewrite Hc. cbn. auto.
Qed.

Lemma view_in_put_other (j j' : nat) job' call (v : JobView) :
  j <> j' -> view_in call j = Some v -> view_in (put_job j' job' call) j = Some v.
Proof.
  intros Hne. unfold view_in, put_job. cbn. by rewrite list_lookup_insert_ne.
Qed.

(** The steps of the other goroutines do not move job [j] of call [c]. *)
Lemma step_job_view env s t s' (c j : nat) (v : JobView) :
  t <> TJob c j -> step env s t = Some s' ->
  job_view s c j = Some v -> job_view s' c j = Some v.
Proof.
  unfold step. intros Ht H Hv. destruct (crashed s); [done|]. destruct t as [|c' j'|c' k].
  - crack_step H; try done.
    + unfold job_view in *. cbn. destruct (calls s !! c) eqn:E; [|done].
      by rewrite (lookup_app_l_Some _ _ _ _ E).
    + eapply job_view_put; [by cbn|eassumption| |done].
      intros _. unfold view_in. cbn. destruct (c_jobs _ !! j) eqn:E; [|done].
      by rewrite (lookup_app_l_Some _ _ _ _ E).
  - crack_step H.
    all: unfold job_return; repeat case_match; try done.
    all: eapply job_view_put; [by cbn|eassumption| |done].
    all: intros -> Hview; unfold view_in in *; cbn.
    all: rewrite list_lookup_insert_ne by congruence; exact Hview.
  - crack_step H.
    all: unfold fetch_return; repeat case_match; try done.
    all: eapply job_view_put; [by cbn|eassumption| |done].
    all: intros _ Hview; unfold view_in in *; cbn; try exact Hview.
    all: rewrite list_lookup_insert; case_decide as Hd; [|exact Hview].
    all: destruct Hd as [<- _].
    all: by simplify_option_eq.
Qed.

(** The one step of a job that finds its output path taken. *)
Lemma refused_job_step env (c j : nat) path s s2 :
  refused_job env c j path s -> step env s (TJob c j) = Some s2 ->
  disk s2 = disk s
  /\ err (d s2) = Some (ErrFileExists path)
  /\ downloadPaths (d s2) = downloadPaths (d s)
  /\ (c_fetchers <$> calls s2) = (c_fetchers <$> calls s)
  /\ (crashed s2 = true
      \/ exists fileName, job_view s2 c j = Some (fileName, JReturned, []))
  /\ refused_job env c j path s2.
Proof.
  intros (Hex & fileName & pc & deferred & Hview & Hpath & Hpc) Hstep.
  unfold step in Hstep. destruct (crashed s) eqn:Hcr; [done|].
  unfold job_view, view_in in Hview.
  destruct (calls s !! c) as [call|] eqn:Hc; [|done]. cbn in Hview.
  destruct (c_jobs call !! j) as [job|] eqn:Hj; [|done]. cbn in Hview.
  injection Hview as Hfn Hjpc Hdef.
  unfold step_job in Hstep. rewrite Hc in Hstep. cbn in Hstep.
  rewrite Hj in Hstep. cbn in Hstep. rewrite Hjpc in Hstep.
  destruct Hpc as [[-> ->] | ->]; [|done].
  rewrite Hfn, Hpath in Hstep.
  rewrite (bool_decide_eq_true_2 _ Hex) in Hstep. cbn in Hstep.
  injection Hstep as <-. unfold job_return.
  assert (job_view s c j = Some (fileName, JStat, [])) as Hview
    by (unfold job_view, view_in; rewrite Hc; cbn; rewrite Hj; cbn; congruence).
  destruct (wg_Done (c_wg call)) as [n|].
  - rewrite Hdef. cbn. destruct (disk s) as [fs ts] eqn:Hdisk. cbn.
    assert (job_view
              (set_disk {| files := fs; temps := ts |}
                 (put_call c (put_job j (job_at JReturned job) (set_wg n call))
                    (set_err (ErrFileExists path) s))) c j
            = Some (fileName, JReturned, [])) as Hview'.
    { unfold job_view, view_in. cbn.
      rewrite list_lookup_insert_eq by (by eapply lookup_lt_Some). cbn.
      rewrite list_lookup_insert_eq by (by eapply lookup_lt_Some). cbn.
      by rewrite Hfn, Hdef. }
    split_and!; [done..| | |].
    + rewrite list_fmap_insert. cbn. apply list_insert_id.
      by rewrite list_lookup_fmap, Hc.
    + right. by eexists.
    + split; [done|].
      exists fileName, JReturned, []. split_and!; [done|done|by right].
  - cbn. split_and!; [done..|by left|].
    split; [done|]. exists fileName, JStat, []. split_and!; [done|done|by left].
Qed.

Lemma refused_job_other env (c j : nat) path s t s' :
  t <> TJob c j -> refused_job env c j path s -> step env s t = Some s' ->
  refused_job env c j path s'.
Proof.
  intros Ht (Hex & fileName & pc & deferred & Hview & Hpath & Hpc) Hstep.
  split; [by eapply step_files_mono|].
  exists fileName, pc, deferred. split_and!; [|by rewrite (step_options _ _ _ _ Hstep)|done].
  by eapply step_job_view.
Qed.

Lemma refused_job_run env (c j : nat) path sched : forall s,
  refused_job env c j path s -> refused_job env c j path (run env sched s).
Proof.
  induction sched as [|t sched IH]; intros s Hs; [done|].
  cbn [run]. apply IH. destruct (step env s t) as [s'|] eqn:Hstep; [|done]. cbn.
  destruct (decide (t = TJob c j)) as [->|Ht].
  - by apply (refused_job_step env c j path s s' Hs) in Hstep as (_ & _ & _ & _ & _ & ?).
  - by eapply refused_job_other.
Qed.

(** C6. A job that has been launched for a file name whose output path
    (the download directory joined with the URL's last path segment)
    already exists fails at [os.Stat]: on every schedule, whenever the job
    takes a step, that step stores the "file already exists" error, leaves
    all files and part files untouched, records no path, launches no fetch,
    and is the job's last; and while the job has not run it is able to take
    that step. *)
Theorem C6_existing_output_refused env (s : State) (c j : nat) (call : Call)
    (fileUri fileName : string) (contentLength : Z) (path : string)
    (sched : list Tid) :
  calls s !! c = Some call ->
  c_jobs call !! j = Some (new_job fileUri fileName contentLength) ->
  path = outputFilePath env (downloadOptions (d s)) fileName ->
  is_Some (files (disk s) !! path) ->
  refuses_existing env c j path (run env sched s).
Proof.
  intros Hc Hj -> Hex.
  set (path := outputFilePath env (downloadOptions (d s)) fileName).
  assert (refused_job env c j path s) as Hs.
  { split; [done|]. exists fileName, JStat, []. split_and!; [|done|by left].
    unfold job_view, view_in. rewrite Hc. cbn. by rewrite Hj. }
  pose proof (refused_job_run env c j path sched s Hs) as Hs1.
  set (s1 := run env sched s) in *. split.
  - intros Hcr [fn Hview]. unfold step. rewrite Hcr.
    destruct Hs1 as (Hex1 & fn' & pc & dfr & Hview' & Hpath & _).
    rewrite Hview in Hview'. injection Hview' as <- <- <-.
    unfold job_view, view_in in Hview.
    destruct (calls s1 !! c) as [call1|] eqn:Hc1; [|done]. cbn in Hview.
    destruct (c_jobs call1 !! j) as [job1|] eqn:Hj1; [|done]. cbn in Hview.
    injection Hview as Hfn Hpc Hdef.
    unfold step_job. rewrite Hc1. cbn. rewrite Hj1. cbn. rewrite Hpc, Hfn, Hpath.
    by rewrite (bool_decide_eq_true_2 _ Hex1).
  - intros s2 Hstep.
    by apply (refused_job_step env c j path s1 s2 Hs1) in Hstep
      as (? & ? & ? & ? & ? & _).
Qed.

Lemma C6_existing_output_refused_witness :
  refuses_existing Scenario.server_with_missing 0 0 "d/a"
    (run Scenario.server_with_missing [TMain; TMain] Scenario.launched_onto_a).
Proof.
  eapply (C6_existing_output_refused Scenario.server_with_missing
            Scenario.launched_onto_a 0 0 _ "http://h/a" "a" 4 "d/a"
            [TMain; TMain]).
  - vm_compute. reflexivity.
  - vm_compute. reflexivity.
  - reflexivity.
  - eexists. vm_compute. reflexivity.
Defined.

Example existing_output_untouched :
  let s := run Scenario.server_with_missing [TMain; TMain; TJob 0 0; TMain]
             Scenario.launched_onto_a in
  files (disk s) !! "d/a"%string = Some [x09]
  /\ temps (disk s) = []
  /\ err (d s) = Some (ErrFileExists "d/a")
  /\ results s = [([], None)].
Proof. vm_compute. repeat split; reflexivity. Qed.

(** The bound of C5 is reached: with two permits and a file in four parts,
    two fetches are in flight and the job's third send has to wait. *)
Example limiter_is_tight :
  let env := Scenario.server_refusing_get in
  let s := run env
             [TMain; TMain; TMain; TMain;
              TJob 0 0; TJob 0 0; TJob 0 0; TJob 0 0; TJob 0 0; TJob 0 0; TJob 0 0]
             (Scenario.one_call ["http://h/big"%string]) in
  (in_flight <$> calls s) = [2%nat]
  /\ (c_waitChan <$> calls s) = [2%nat]
  /\ step env s (TJob 0 0) = None.
Proof. vm_compute. repeat split; reflexivity. Qed.

(** ** The WaitGroups: no panic under a valid configuration *)

Lemma wg_ok_main_spawn call job :
  j_wg1 job = 0%nat ->
  wg_ok call ->
  wg_ok (set_jobs (c_jobs call ++ [job]) (set_wg (S (c_wg call)) call)).
Proof.
  intros Hwg1 (Hwg & Hidx & Hwg1s). unfold wg_ok. cbn. split_and!.
  - rewrite count_if_snoc. destruct (job_live job); lia.
  - eapply Forall_impl; [exact Hidx|]. intros f Hf. cbn in Hf. rewrite length_app. cbn. lia.
  - intros j job' Hj. apply lookup_app_Some in Hj as [Hj | [Hlen Hj]]; [by apply Hwg1s|].
    apply list_lookup_singleton_Some in Hj as [Hj0 <-].
    rewrite count_if_none; [lia|].
    eapply Forall_impl; [exact Hidx|]. intros f Hf. cbn in Hf. unfold fetch_of.
    destruct (Nat.eqb_spec (f_job f) j); [lia|done].
Qed.

Lemma wg_ok_put_job (j : nat) job job' call :
  c_jobs call !! j = Some job ->
  job_live job' = job_live job -> j_wg1 job' = j_wg1 job ->
  wg_ok call -> wg_ok (put_job j job' call).
Proof.
  intros Hj Hlive Hwg1 (Hwg & Hidx & Hwg1s). unfold wg_ok, put_job. cbn. split_and!.
  - pose proof (count_if_insert job_live _ _ _ job' Hj) as H. rewrite Hlive in H.
    destruct (job_live job); lia.
  - by rewrite length_insert.
  - intros j0 job0 Hj0. apply list_lookup_insert_Some in Hj0 as [(<- & <- & _) | [_ Hj0]].
    + rewrite Hwg1. by apply Hwg1s.
    + by apply Hwg1s.
Qed.

Lemma wg_ok_job_return (j : nat) job job' call :
  c_jobs call !! j = Some job -> job_live job = true ->
  j_pc job' = JReturned -> j_wg1 job' = j_wg1 job ->
  wg_ok call ->
  exists n, wg_Done (c_wg call) = Some n /\ wg_ok (put_job j job' (set_wg n call)).
Proof.
  intros Hj Hlive Hpc Hwg1 (Hwg & Hidx & Hwg1s).
  pose proof (count_if_pos job_live _ _ _ Hj Hlive) as Hpos.
  destruct (c_wg call) as [|n] eqn:Hn; [lia|]. exists n. split; [done|].
  unfold wg_ok, put_job. cbn. split_and!.
  - pose proof (count_if_insert job_live _ _ _ job' Hj) as H. rewrite Hlive in H.
    unfold job_live at 3 in H. rewrite Hpc in H. lia.
  - by rewrite length_insert.
  - intros j0 job0 Hj0. apply list_lookup_insert_Some in Hj0 as [(<- & <- & _) | [_ Hj0]].
    + rewrite Hwg1. by apply Hwg1s.
    + by apply Hwg1s.
Qed.

Lemma wg_ok_spawn (j : nat) job f n call :
  c_jobs call !! j = Some job -> job_live job = true -> f_job f = j ->
  wg_ok call ->
  wg_ok (set_fetchers (c_fetchers call ++ [f])
           (set_waitChan n (put_job j (job_spawned job) call))).
Proof.
  intros Hj Hlive Hf (Hwg & Hidx & Hwg1s). unfold wg_ok, put_job. cbn. split_and!.
  - pose proof (count_if_insert job_live _ _ _ (job_spawned job) Hj) as H.
    change (job_live (job_spawned job)) with true in H.
    rewrite Hlive in H. lia.
  - rewrite length_insert. apply Forall_app. split; [done|].
    apply Forall_singleton. rewrite Hf. by eapply lookup_lt_Some.
  - intros j0 job0 Hj0. rewrite count_if_snoc. unfold fetch_of at 2. rewrite Hf.
    apply list_lookup_insert_Some in Hj0 as [(<- & <- & _) | [Hne Hj0]].
    + rewrite Nat.eqb_refl. specialize (Hwg1s _ _ Hj). cbn.
      destruct (fetch_active f); lia.
    + destruct (Nat.eqb_spec j j0); [done|]. specialize (Hwg1s _ _ Hj0). cbn. lia.
Qed.

Lemma wg_ok_put_fetcher (k : nat) f pc call :
  c_fetchers call !! k = Some f ->
  fetch_active f = true -> fetch_active (fetcher_at pc f) = true ->
  wg_ok call -> wg_ok (put_fetcher k (fetcher_at pc f) call).
Proof.
  intros Hk Hf Hpc (Hwg & Hidx & Hwg1s). unfold wg_ok, put_fetcher. cbn. split_and!.
  - done.
  - apply Forall_insert; [done|]. cbn.
    by eapply (Forall_lookup_1 _ _ _ _ Hidx Hk).
  - intros j job Hj. specialize (Hwg1s j job Hj).
    pose proof (count_if_insert (fetch_of j) _ _ _ (fetcher_at pc f) Hk) as H.
    assert (fetch_of j (fetcher_at pc f) = fetch_of j f) as Heq
      by (unfold fetch_of; by rewrite Hf, Hpc).
    rewrite Heq in H. destruct (fetch_of j f); lia.
Qed.

Lemma wg_ok_fetch_return (k : nat) f call :
  c_fetchers call !! k = Some f -> fetch_active f = true ->
  wg_ok call ->
  exists job n,
    c_jobs call !! f_job f = Some job /\ wg_Done (j_wg1 job) = Some n
    /\ wg_ok (put_fetcher k (fetcher_at FReturned f)
                (put_job (f_job f) (job_wg1 n job) call)).
Proof.
  intros Hk Hf (Hwg & Hidx & Hwg1s).
  pose proof (Forall_lookup_1 _ _ _ _ Hidx Hk) as Hlt. cbn in Hlt.
  destruct (lookup_lt_is_Some_2 _ _ Hlt) as [job Hj].
  pose proof (Hwg1s _ _ Hj) as Hle.
  assert (fetch_of (f_job f) f = true) as Hof
    by (unfold fetch_of; by rewrite Nat.eqb_refl, Hf).
  pose proof (count_if_pos (fetch_of (f_job f)) _ _ _ Hk Hof) as Hpos.
  destruct (j_wg1 job) as [|n] eqn:Hn; [lia|]. exists job, n.
  split; [done|]. split; [by rewrite Hn|].
  unfold wg_ok, put_fetcher, put_job. cbn. split_and!.
  - pose proof (count_if_insert job_live _ _ _ (job_wg1 n job) Hj) as H.
    change (job_live (job_wg1 n job)) with (job_live job) in H.
    destruct (job_live job); lia.
  - rewrite length_insert. apply Forall_insert; [done|]. done.
  - intros j0 job0 Hj0.
    pose proof (count_if_insert (fetch_of j0) _ _ _ (fetcher_at FReturned f) Hk) as H.
    assert (fetch_of j0 (fetcher_at FReturned f) = false) as Hret
      by (unfold fetch_of; apply andb_false_r).
    rewrite Hret in H.
    apply list_lookup_insert_Some in Hj0 as [(<- & <- & _) | [Hne Hj0]].
    + rewrite Hof in H. cbn [j_wg1 job_wg1]. lia.
    + specialize (Hwg1s _ _ Hj0). destruct (fetch_of j0 f); lia.
Qed.

Lemma planning_Some L P : P <> 0 -> is_Some (planning L P).
Proof.
  intros HP. unfold planning. case_match; [done|].
  destruct (Z.eqb_spec P 0); done.
Qed.

Lemma job_return_no_panic (c j : nat) call job job' s :
  c_jobs call !! j = Some job -> job_live job = true ->
  j_wg1 job' = j_wg1 job ->
  wg_ok call -> crashed s = false -> Forall wg_ok (calls s) ->
  no_panic_inv (job_return c j call job' s).
Proof.
  intros Hj Hlive Hwg1 Hok Hcr Hall. unfold job_return.
  destruct (wg_ok_job_return j job (job_at JReturned job') call Hj Hlive eq_refl Hwg1 Hok)
    as (n & -> & Hok').
  split; [done|]. cbn. by apply Forall_insert.
Qed.

Lemma fetch_return_no_panic (c k : nat) call f s :
  c_fetchers call !! k = Some f -> fetch_active f = true ->
  wg_ok call -> crashed s = false -> Forall wg_ok (calls s) ->
  no_panic_inv (fetch_return c k call f s).
Proof.
  intros Hk Hf Hok Hcr Hall. unfold fetch_return.
  destruct (wg_ok_fetch_return k f call Hk Hf Hok) as (job & n & -> & -> & Hok').
  split; [done|]. cbn. by apply Forall_insert.
Qed.

Ltac live_from_pc :=
  match goal with
  | Hpc : j_pc ?job = _ |- job_live ?job = true => unfold job_live; by rewrite Hpc
  | Hpc : f_pc ?f = _ |- fetch_active ?f = true => unfold fetch_active; by rewrite Hpc
  end.

Lemma step_no_panic env s t s' :
  valid_options (downloadOptions (d s)) ->
  no_panic_inv s -> step env s t = Some s' -> no_panic_inv s'.
Proof.
  intros [Hcap Hparts] [Hcr Hall] H. unfold step in H. rewrite Hcr in H.
  destruct t.
  - crack_step H; try (split; [done|]; cbn; try done).
    + lia.
    + apply Forall_app. split; [done|]. apply Forall_singleton.
      split_and!; cbn; [done|done|]. by intros j job Hj.
    + apply Forall_insert; [done|]. apply wg_ok_main_spawn; [done|].
      by eapply (Forall_lookup_1 _ _ _ _ Hall).
  - unfold step_job in H. simplify_option_eq.
    match goal with Hc : calls s !! _ = Some ?call |- _ =>
      pose proof (Forall_lookup_1 _ _ _ _ Hall Hc) as Hok end.
    repeat (case_match; simplify_option_eq); bool_hyps.
    all: try (eapply job_return_no_panic; [eassumption|live_from_pc|done..]).
    all: try (split; [done|]; cbn; apply Forall_insert; [done|]).
    all: try (eapply wg_ok_put_job; [eassumption|cbn; symmetry; live_from_pc|done..]).
    all: try (eapply wg_ok_spawn; [eassumption|live_from_pc|done..]).
    + match goal with Hp : planning _ _ = None |- _ =>
        destruct (planning_Some (j_contentLength H1) _ Hparts) as [? Hs];
        rewrite Hs in Hp; done end.
  - unfold step_fetch in H. simplify_option_eq.
    match goal with Hc : calls s !! _ = Some ?call |- _ =>
      pose proof (Forall_lookup_1 _ _ _ _ Hall Hc) as Hok end.
    repeat (case_match; simplify_option_eq); bool_hyps.
    all: try (eapply fetch_return_no_panic; [eassumption|live_from_pc|done..]).
    all: try (split; [done|]; cbn; apply Forall_insert; [done|]).
    all: try (eapply wg_ok_put_fetcher; [eassumption|live_from_pc|done..]).
Qed.

Lemma no_panic_run env sched : forall s,
  valid_options (downloadOptions (d s)) ->
  no_panic_inv s -> no_panic_inv (run env sched s).
Proof.
  induction sched as [|t sched IH]; intros s Hv Hs; [done|].
  cbn [run]. destruct (step env s t) as [s'|] eqn:E; cbn; [|by apply IH].
  apply IH; [by rewrite (step_options _ _ _ _ E)|by eapply step_no_panic].
Qed.

Lemma no_panic_init (dl : Downloader) (dk : Disk) (program : list (list string)) :
  no_panic_inv (init dl dk program).
Proof. split; [done|]. by apply Forall_nil. Qed.

(** X1. With a non-negative concurrency ceiling and a non-zero part count
    no goroutine ever panics, on any schedule of any program of calls: no
    channel of negative size is made, no division by zero happens in the
    planning, and no WaitGroup counter becomes negative. *)
Lemma valid_options_never_panic env (dl : Downloader) (dk : Disk)
    (program : list (list string)) (sched : list Tid) :
  valid_options (downloadOptions dl) ->
  crashed (run env sched (init dl dk program)) = false.
Proof.
  intros Hvalid.
  by apply (no_panic_run env sched (init dl dk program) Hvalid (no_panic_init dl dk program)).
Qed.

Lemma valid_options_never_panic_witness :
  crashed (run Scenario.server_with_gone (Scenario.download_two 0)
             (Scenario.one_call ["http://h/a"; "http://h/gone"]%string)) = false.
Proof.
  apply (valid_options_never_panic Scenario.server_with_gone
           (NewDownloader Scenario.opts) Scenario.empty_disk
           [["http://h/a"; "http://h/gone"]%string] (Scenario.download_two 0)).
  split; cbn; lia.
Defined.

(** Under a valid configuration the return of [Download] after a failing
    probe needs no side condition: [2*i+2] steps of [Download] suffice. *)
Corollary probe_failure_returns env (dl : Downloader) (dk : Disk)
    (fileUrls : list string) (i : nat) (u : string) (sched : list Tid) :
  valid_options (downloadOptions dl) ->
  fileUrls !! i = Some u -> probe_fails env u = true ->
  (2 * i + 2 <= main_steps sched)%nat ->
  exists e, results (run env sched (init dl dk [fileUrls])) = [([], Some e)].
Proof.
  intros Hvalid Hi Hu Hsteps.
  destruct (first_failing_probe env fileUrls i u Hi Hu)
    as (pre & u0 & post & -> & Hpre & Hu0 & Hpf).
  assert (length pre <= i)%nat as Hlen.
  { apply prefix_length in Hpf. rewrite length_take in Hpf. lia. }
  destruct (probe_phase_run env pre u0 post sched Hpre Hu0
              (init dl dk [pre ++ u0 :: post]) (2 * length pre + 2)%nat)
    as (n' & Hph & Hn'); [left; by cbn|].
  pose proof (no_panic_run env sched (init dl dk [pre ++ u0 :: post]) Hvalid
                (no_panic_init dl dk [pre ++ u0 :: post])) as [Hcr _].
  specialize (Hn' Hcr).
  destruct Hph as [(_ & _ & _ & _ & ->) | [(_ & rest & _ & Hpc & _)
                                          | (_ & _ & _ & Hres & _)]].
  - lia.
  - destruct Hpc as [[_ ->] | [_ ->]]; lia.
  - done.
Qed.

(** ** The planner inside a run

    The batch of a 3 MB and a 50 MB file with four parts and two permits:
    the fetches that the jobs launch carry exactly the planned ranges, and
    both paths are returned. *)
Example planned_ranges_are_requested :
  let s := run Scenario.sizes_site Scenario.sizes_schedule
             (Scenario.one_call ["http://h/small"; "http://h/big"]%string) in
  exists small big,
    planned_ranges 3000000 4 = Some small
    /\ planned_ranges 50000000 4 = Some big
    /\ ((fun call => f_byteRange <$> c_fetchers call) <$> calls s)
       = [byteRange_of <$> small ++ big]
    /\ results s = [(["d/small"; "d/big"]%string, None)]
    /\ err (d s) = None.
Proof.
  eexists _, _. split; [vm_compute; reflexivity|].
  split; [vm_compute; reflexivity|]. vm_compute. repeat split; reflexivity.
Qed.

(** * Part III: further properties of the code *)

(** ** The file name derived from a URL *)

Lemma append_cons (a : ascii) (s t : string) :
  String a s +:+ t = String a (s +:+ t).
Proof. reflexivity. Qed.

Lemma append_empty_r (s : string) : s +:+ "" = s.
Proof. induction s as [|a s IH]; [done|]. by rewrite append_cons, IH. Qed.

Lemma append_assoc_string (s1 s2 s3 : string) :
  (s1 +:+ s2) +:+ s3 = s1 +:+ (s2 +:+ s3).
Proof. induction s1 as [|a s1 IH]; [done|]. by rewrite !append_cons, IH. Qed.

Lemma has_slash_snoc (s : string) (a : ascii) :
  has_slash (s +:+ String a "") = has_slash s || Ascii.eqb a "/"%char.
Proof.
  induction s as [|b s IH].
  - change ("" +:+ String a "") with (String a ""). cbn.
    by destruct (Ascii.eqb a "/").
  - rewrite append_cons. cbn [has_slash]. rewrite IH. by rewrite orb_assoc.
Qed.

(** [strings.Split] never returns an empty slice. *)
Lemma split_slash_aux_cons (s cur : string) :
  exists x l, split_slash_aux s cur = x :: l.
Proof.
  revert cur. induction s as [|a s IH]; intros cur; cbn [split_slash_aux].
  - by eexists _, _.
  - case_match; [by eexists _, _|apply IH].
Qed.

Lemma split_slash_aux_last (s cur : string) :
  has_slash cur = false ->
  let name := List.last (split_slash_aux s cur) "" in
  has_slash name = false
  /\ exists pre,
       cur +:+ s = pre +:+ name
       /\ (pre = ""%string \/ exists pre', pre = pre' +:+ "/").
Proof.
  revert cur. induction s as [|a s IH]; intros cur Hcur; cbn zeta.
  - cbn [split_slash_aux List.last]. split; [done|]. exists ""%string.
    split; [apply append_empty_r|by left].
  - cbn [split_slash_aux]. destruct (Ascii.eqb_spec a "/"%char) as [->|Hne].
    + destruct (IH ""%string eq_refl) as (Hname & pre & Heq & Hpre).
      assert (List.last (cur :: split_slash_aux s "") ""%string
              = List.last (split_slash_aux s "") ""%string) as ->.
      { by destruct (split_slash_aux_cons s "") as (x & l & ->). }
      split; [done|]. change ("" +:+ s) with s in Heq.
      exists (cur +:+ "/" +:+ pre). split.
      * rewrite !append_assoc_string. by rewrite <- Heq.
      * right. destruct Hpre as [-> | [pre' ->]].
        -- exists cur. done.
        -- exists (cur +:+ "/" +:+ pre'). by rewrite !append_assoc_string.
    + destruct (IH (cur +:+ String a "")) as (Hname & pre & Heq & Hpre).
      { rewrite has_slash_snoc, Hcur. cbn. by apply Ascii.eqb_neq. }
      split; [done|]. exists pre. split; [|done].
      rewrite <- Heq. by rewrite append_assoc_string.
Qed.

(** X3. The file name that [Download] derives from a URL never contains
    the separator, and the URL is that name preceded by nothing or by a
    prefix ending in the separator: the name is the part after the last
    ["/"]. *)
Theorem url_fileName_last_segment (fileUri : string) :
  has_slash (url_fileName fileUri) = false
  /\ exists pre,
       fileUri = pre +:+ url_fileName fileUri
       /\ (pre = ""%string \/ exists pre', pre = pre' +:+ "/").
Proof. apply (split_slash_aux_last fileUri ""). reflexivity. Qed.

(** ** Calls of [Download] that launch nothing *)

Lemma empty_batch_run env (dl : Downloader) (dk : Disk) :
  0 <= MaxLimitConcurrency (downloadOptions dl) ->
  forall sched (k : nat),
    (k <= 3)%nat ->
    run env sched (empty_batch_state dl dk k)
    = empty_batch_state dl dk (Nat.min 3 (k + main_steps sched)).
Proof.
  intros Hcap. induction sched as [|t sched IH]; intros k Hk.
  { cbn [run main_steps]. by rewrite Nat.add_0_r, Nat.min_r by lia. }
  cbn [run]. destruct t as [|c j|c j].
  - cbn [main_steps].
    assert (k = 0 \/ k = 1 \/ k = 2 \/ k = 3)%nat as [-> | [-> | [-> | ->]]] by lia.
    + assert (step env (empty_batch_state dl dk 0) TMain
              = Some (empty_batch_state dl dk 1)) as ->.
      { unfold step, step_main, empty_batch_state. cbn.
        destruct (Z.ltb_spec (MaxLimitConcurrency (downloadOptions dl)) 0); [lia|done]. }
      cbn. rewrite IH by lia. f_equal; lia.
    + change (step env (empty_batch_state dl dk 1) TMain)
        with (Some (empty_batch_state dl dk 2)).
      cbn. rewrite IH by lia. f_equal; lia.
    + change (step env (empty_batch_state dl dk 2) TMain)
        with (Some (empty_batch_state dl dk 3)).
      cbn. rewrite IH by lia. f_equal; lia.
    + change (step env (empty_batch_state dl dk 3) TMain) with (@None State).
      cbn. rewrite IH by lia. f_equal; lia.
  - assert (step env (empty_batch_state dl dk k) (TJob c j) = None) as ->.
    { do 4 (destruct k as [|k]; [by destruct c as [|[|c]]|]). by destruct c as [|[|c]]. }
    cbn. by apply IH.
  - assert (step env (empty_batch_state dl dk k) (TFetch c j) = None) as ->.
    { do 4 (destruct k as [|k]; [by destruct c as [|[|c]]|]). by destruct c as [|[|c]]. }
    cbn. by apply IH.
Qed.

(** X4. A call of [Download] without URLs, on a [Downloader] whose
    concurrency ceiling is not negative, returns within three of its own
    steps: it returns the ledger as it stands with a nil error, launches
    no goroutine, and leaves the [Downloader] and the disk as they were. *)
Theorem Download_empty_batch env (dl : Downloader) (dk : Disk) (sched : list Tid) :
  0 <= MaxLimitConcurrency (downloadOptions dl) ->
  (3 <= main_steps sched)%nat ->
  let s := run env sched (init dl dk [[]]) in
  results s = [(downloadPaths dl, None)]
  /\ d s = dl /\ disk s = dk /\ crashed s = false
  /\ calls s = [new_call].
Proof.
  intros Hcap Hsteps s. subst s.
  change (init dl dk [[]]) with (empty_batch_state dl dk 0).
  rewrite empty_batch_run by (done || lia).
  replace (Nat.min 3 (0 + main_steps sched)) with 3%nat by lia.
  unfold empty_batch_state. cbn. by destruct dl, dk.
Qed.

Lemma Download_empty_batch_witness :
  let s := run Scenario.server_with_missing [TMain; TJob 0 0; TMain; TMain]
             (init (NewDownloader Scenario.opts) Scenario.disk_with_a [[]]) in
  results s = [([], None)]
  /\ d s = NewDownloader Scenario.opts /\ disk s = Scenario.disk_with_a
  /\ crashed s = false /\ calls s = [new_call].
Proof.
  apply (Download_empty_batch Scenario.server_with_missing
           (NewDownloader Scenario.opts) Scenario.disk_with_a
           [TMain; TJob 0 0; TMain; TMain]).
  - cbn. lia.
  - cbn. lia.
Defined.

(** X5. With a negative [MaxLimitConcurrency] the first call of [Download]
    panics when it makes the channel: as soon as [Download] has run, the
    process is dead, nothing was launched or returned, and the
    [Downloader] and the disk are as they were. *)
Theorem Download_negative_ceiling_panics env (dl : Downloader) (dk : Disk)
    (fileUrls : list string) (rest : list (list string)) (sched : list Tid) :
  MaxLimitConcurrency (downloadOptions dl) < 0 ->
  (1 <= main_steps sched)%nat ->
  let s := run env sched (init dl dk (fileUrls :: rest)) in
  crashed s = true /\ results s = [] /\ calls s = []
  /\ d s = dl /\ disk s = dk.
Proof.
  intros Hcap Hsteps s. subst s.
  assert (step env (init dl dk (fileUrls :: rest)) TMain
          = Some (crash (init dl dk (fileUrls :: rest)))) as Hmain.
  { unfold step, step_main. cbn.
    destruct (Z.ltb_spec (MaxLimitConcurrency (downloadOptions dl)) 0); [done|lia]. }
  assert (forall sch, (1 <= main_steps sch)%nat ->
            run env sch (init dl dk (fileUrls :: rest))
            = crash (init dl dk (fileUrls :: rest))) as Hrun.
  { induction sch as [|t sch IH]; intros Hn; [cbn in Hn; lia|].
    cbn [run]. destruct t as [|c j|c j].
    - rewrite Hmain. cbn. by apply crashed_run.
    - change (step env (init dl dk (fileUrls :: rest)) (TJob c j)) with (@None State).
      cbn. by apply IH.
    - change (step env (init dl dk (fileUrls :: rest)) (TFetch c j)) with (@None State).
      cbn. by apply IH. }
  rewrite Hrun by done. by cbn.
Qed.

Lemma Download_negative_ceiling_panics_witness :
  let s := run Scenario.server_with_missing [TJob 0 0; TMain; TMain]
             (init (NewDownloader {| DownloadDir := "d"; NumConcParts := 2;
                                     MaxLimitConcurrency := -1 |})
                Scenario.empty_disk [["http://h/a"%string]]) in
  crashed s = true /\ results s = [] /\ calls s = []
  /\ d s = NewDownloader {| DownloadDir := "d"; NumConcParts := 2;
                            MaxLimitConcurrency := -1 |}
  /\ disk s = Scenario.empty_disk.
Proof.
  apply (Download_negative_ceiling_panics Scenario.server_with_missing
           (NewDownloader {| DownloadDir := "d"; NumConcParts := 2;
                             MaxLimitConcurrency := -1 |})
           Scenario.empty_disk ["http://h/a"%string] []
           [TJob 0 0; TMain; TMain]).
  - cbn. lia.
  - cbn. lia.
Defined.

(** ** Range fetches *)




(** X7. A step of a range fetch writes to nothing but [d.err], its own
    part file and the channel and WaitGroup of its call: the output
    files, the ledger of paths, the results and position of [Download],
    the other calls and all other part files stay as they are. *)
Theorem fetch_step_frame env (s s' : State) (c k : nat) (call : Call) (f : Fetcher) :
  calls s !! c = Some call -> c_fetchers call !! k = Some f ->
  step env s (TFetch c k) = Some s' ->
  fetch_frame c f s s'.
Proof.
  intros Hc Hk H. unfold step in H. destruct (crashed s); [done|].
  unfold step_fetch in H. rewrite Hc in H. cbn in H. rewrite Hk in H. cbn in H.
  unfold fetch_frame.
  repeat (case_match; simplify_eq).
  all: unfold fetch_return; repeat case_match; cbn.
  all: split_and!; try done.
  all: try (intros c' Hne; by rewrite list_lookup_insert_ne).
  all: try by rewrite length_insert.
  all: intros h Hne; by rewrite list_lookup_insert_ne.
Qed.

Lemma fetch_step_frame_witness :
  let s := run Scenario.server_with_missing
             ([TMain; TMain; TMain; TMain] ++ Scenario.job_to_wait 0 0
                ++ [TFetch 0 0])
             (Scenario.one_call ["http://h/a"%string]) in
  exists f s',
    step Scenario.server_with_missing s (TFetch 0 0) = Some s'
    /\ fetch_frame 0 f s s'.
Proof.
  cbv zeta. eexists _, _. split; [vm_compute; reflexivity|].
  eapply (fetch_step_frame Scenario.server_with_missing _ _ 0 0).
  - vm_compute. reflexivity.
  - vm_compute. reflexivity.
  - vm_compute. reflexivity.
Defined.

(** ** [combineChunks]: the first chunk that cannot be copied *)







(** ** [Download]: the barrier of [wg.Wait()] *)

Lemma count_if_zero {A} (P : A -> bool) (l : list A) (k : nat) x :
  count_if P l = 0%nat -> l !! k = Some x -> P x = false.
Proof.
  intros H0 Hk. destruct (P x) eqn:HP; [|done].
  pose proof (count_if_pos P l k x Hk HP). lia.
Qed.

(** The WaitGroup counters cover the live goroutines whether or not the
    process panics. *)
Lemma step_wg_ok env s t s' :
  Forall wg_ok (calls s) -> step env s t = Some s' -> Forall wg_ok (calls s').
Proof.
  intros Hall H. unfold step in H. destruct (crashed s) eqn:Hcr; [done|].
  destruct t.
  - crack_step H; cbn; try done.
    + apply Forall_app. split; [done|]. apply Forall_singleton.
      split_and!; cbn; [done|done|]. by intros j job Hj.
    + apply Forall_insert; [done|]. apply wg_ok_main_spawn; [done|].
      by eapply (Forall_lookup_1 _ _ _ _ Hall).
  - unfold step_job in H. simplify_option_eq.
    match goal with Hc : calls s !! _ = Some ?call |- _ =>
      pose proof (Forall_lookup_1 _ _ _ _ Hall Hc) as Hok end.
    repeat (case_match; simplify_option_eq); bool_hyps.
    all: try (eapply proj2, job_return_no_panic; [eassumption|live_from_pc|done..]).
    all: try (cbn; apply Forall_insert; [done|]).
    all: try (eapply wg_ok_put_job; [eassumption|cbn; symmetry; live_from_pc|done..]).
    all: try (eapply wg_ok_spawn; [eassumption|live_from_pc|done..]).
    all: try done.
  - unfold step_fetch in H. simplify_option_eq.
    match goal with Hc : calls s !! _ = Some ?call |- _ =>
      pose proof (Forall_lookup_1 _ _ _ _ Hall Hc) as Hok end.
    repeat (case_match; simplify_option_eq); bool_hyps.
    all: try (eapply proj2, fetch_return_no_panic; [eassumption|live_from_pc|done..]).
    all: try (cbn; apply Forall_insert; [done|]).
    all: try (eapply wg_ok_put_fetcher; [eassumption|live_from_pc|done..]).
Qed.

Lemma run_wg_ok env sched (dl : Downloader) (dk : Disk) (program : list (list string)) :
  Forall wg_ok (calls (run env sched (init dl dk program))).
Proof.
  apply (run_invariant env (fun s => Forall wg_ok (calls s))).
  - intros s t s' Hs H. by eapply step_wg_ok.
  - by apply Forall_nil.
Qed.

(** A job that has returned takes no further step. *)
Lemma returned_job_stuck env s (c j : nat) :
  job_returned s c j -> step env s (TJob c j) = None.
Proof.
  intros (fn & df & Hv). unfold step, step_job. destruct (crashed s); [done|].
  unfold job_view, view_in in Hv.
  destruct (calls s !! c) as [call|]; [|done]. cbn in *.
  destruct (c_jobs call !! j) as [job|]; [|done]. cbn in *.
  simplify_eq. by rewrite H0.
Qed.

Lemma batch_done_step env s t s' (k : nat) batch :
  step env s t = Some s' -> call_urls s' !! k = call_urls s !! k ->
  batch_done s k batch -> batch_done s' k batch.
Proof.
  intros H Hurls [Hb Hret]. split; [by rewrite Hurls|].
  intros j Hj. specialize (Hret j Hj).
  destruct (decide (t = TJob k j)) as [-> | Hne].
  - by rewrite (returned_job_stuck env s k j Hret) in H.
  - destruct Hret as (fn & df & Hv). exists fn, df. by eapply step_job_view.
Qed.

Lemma step_call_urls env s t s' :
  t <> TMain -> step env s t = Some s' -> call_urls s' = call_urls s.
Proof.
  unfold step. intros Ht H. destruct (crashed s); [done|]. destruct t; [done|..].
  - by eapply step_job_urls.
  - by eapply step_fetch_urls.
Qed.

Lemma call_urls_lookup (s : State) (c : nat) call :
  calls s !! c = Some call -> call_urls s !! c = Some (job_urls call).
Proof. intros H. unfold call_urls. by rewrite list_lookup_fmap, H. Qed.

Lemma step_barrier env program s t s' :
  Forall wg_ok (calls s) -> barrier_inv program s -> step env s t = Some s' ->
  barrier_inv program s'.
Proof.
  intros Hwg (bs & Hprog & Hlen & Hdone & Hpc) Hstep.
  destruct (decide (t = TMain)) as [-> | Hne].
  2: { assert (m_pc s' = m_pc s /\ pending s' = pending s /\ results s' = results s
               /\ length (calls s') = length (calls s)) as (Em & Ep & Er & El).
       { unfold step in Hstep. destruct (crashed s); [done|].
         destruct t; [done|..].
         - by apply step_job_frame in Hstep as (? & ? & ? & _ & ?).
         - by apply step_fetch_frame in Hstep as (? & ? & ? & _ & _ & ? & _). }
       pose proof (step_call_urls _ _ _ _ Hne Hstep) as Eu.
       exists bs. rewrite Em, Ep, Er, El, Eu. split_and!; [done..| |done].
       intros k paths Hk. destruct (Hdone k paths Hk) as (batch & Hb & Hbd).
       exists batch. split; [done|]. eapply batch_done_step; [done|by rewrite Eu|done]. }
  assert (forall k batch, (k < length (results s))%nat ->
            call_urls s' !! k = call_urls s !! k ->
            batch_done s k batch -> batch_done s' k batch) as Hkeep.
  { intros k batch _ Hu Hbd. by eapply batch_done_step. }
  assert (forall k paths, results s !! k = Some (paths, None) ->
            (k < length (results s))%nat) as Hlt.
  { intros k paths Hk. by eapply lookup_lt_Some. }
  pose proof Hstep as H. unfold step in H. destruct (crashed s) eqn:Hcr; [done|].
  unfold step_main in H. destruct (m_pc s) as [|c urls|c rest|c] eqn:Epc.
  - (* MIdle *)
    destruct (pending s) as [|fileUrls rest] eqn:Ep; [done|].
    destruct (MaxLimitConcurrency _ <? 0); simplify_eq.
    + exists bs. cbn. rewrite Epc, Ep. split_and!; [done..| |done].
      intros k paths Hk. destruct (Hdone k paths Hk) as (batch & Hb & Hbd).
      exists batch. split; [done|]. by eapply (Hkeep k batch); [eapply Hlt|..].
    + exists (bs ++ [fileUrls]). cbn. rewrite !length_app. cbn.
      refine (conj _ (conj _ (conj _ _))); [by rewrite <- app_assoc|lia| |].
      * intros k paths Hk. destruct (Hdone k paths Hk) as (batch & Hb & Hbd).
        exists batch. split; [by apply lookup_app_l_Some|].
        eapply (Hkeep k batch); [by eapply Hlt| |done].
        unfold call_urls. cbn. rewrite fmap_app.
        destruct Hbd as [Hu _]. unfold call_urls in Hu.
        by rewrite (lookup_app_l_Some _ _ _ _ Hu).
      * split_and!; [done|lia|]. exists []. split.
        -- unfold call_urls. cbn. rewrite fmap_app.
           rewrite lookup_app_r by (rewrite length_fmap; lia).
           by rewrite length_fmap, Nat.sub_diag.
        -- rewrite lookup_app_r by lia. by rewrite Hlen, Nat.sub_diag.
  - (* MLoop *)
    destruct Hpc as (Hc & Hcalls & launched & Hu & Hb).
    destruct urls as [|fileUri rest].
    + simplify_eq. exists bs. cbn. refine (conj _ (conj _ (conj _ _))); [done..| |].
      * intros k paths Hk. destruct (Hdone k paths Hk) as (batch & Hb' & Hbd).
        exists batch. split; [done|]. by eapply (Hkeep k batch); [eapply Hlt|..].
      * split_and!; [done..|]. exists launched. by rewrite app_nil_r in Hb.
    + destruct (checkFileSizeWithHeaderContentLength env fileUri) as [e|fileSize].
      * simplify_eq. exists bs. cbn. refine (conj _ (conj _ (conj _ _))); [done..| |].
        -- intros k paths Hk. apply lookup_app_Some in Hk as [Hk | [_ Hk]].
           ++ destruct (Hdone k paths Hk) as (batch & Hb' & Hbd).
              exists batch. split; [done|]. by eapply (Hkeep k batch); [eapply Hlt|..].
           ++ by apply list_lookup_singleton_Some in Hk as [_ ?].
        -- rewrite length_app. cbn. lia.
      * destruct (calls s !! c) as [call|] eqn:Ecall; [|done]. cbn in H. simplify_eq.
        assert (job_urls call = launched) as Hl.
        { rewrite (call_urls_lookup _ _ _ Ecall) in Hu. congruence. }
        exists bs. cbn. rewrite length_insert. refine (conj _ (conj _ (conj _ _))); [done..| |].
        -- intros k paths Hk. destruct (Hdone k paths Hk) as (batch & Hb' & Hbd).
           exists batch. split; [done|].
           eapply (Hkeep k batch); [by eapply Hlt| |done].
           unfold call_urls. cbn. rewrite list_fmap_insert.
           apply list_lookup_insert_ne. apply Hlt in Hk. lia.
        -- split_and!; [done..|]. exists (launched ++ [fileUri]). split.
           ++ unfold call_urls. cbn. rewrite list_fmap_insert.
              rewrite list_lookup_insert_eq by (rewrite length_fmap; lia).
              unfold job_urls. cbn. rewrite fmap_app. by rewrite <- Hl.
           ++ by rewrite <- app_assoc.
  - (* MCheck *)
    destruct Hpc as (Hc & Hcalls & launched & Hu & Hb).
    destruct (err (d s)); simplify_eq.
    + exists bs. cbn. refine (conj _ (conj _ (conj _ _))); [done..| |].
      * intros k paths Hk. apply lookup_app_Some in Hk as [Hk | [_ Hk]].
        -- destruct (Hdone k paths Hk) as (batch & Hb' & Hbd).
           exists batch. split; [done|]. by eapply (Hkeep k batch); [eapply Hlt|..].
        -- by apply list_lookup_singleton_Some in Hk as [_ ?].
      * rewrite length_app. cbn. lia.
    + exists bs. cbn. refine (conj _ (conj _ (conj _ _))); [done..| |].
      * intros k paths Hk. destruct (Hdone k paths Hk) as (batch & Hb' & Hbd).
        exists batch. split; [done|]. by eapply (Hkeep k batch); [eapply Hlt|..].
      * split_and!; [done..|]. by exists launched.
  - (* MWait *)
    destruct Hpc as (Hc & Hcalls & launched & Hu & Hb).
    destruct (calls s !! c) as [call|] eqn:Ecall; [|done]. cbn in H.
    destruct (c_wg call) eqn:Ewg; [|done]. simplify_eq.
    exists bs. cbn. refine (conj _ (conj _ (conj _ _))); [done..| |].
    + intros k paths Hk. apply lookup_app_Some in Hk as [Hk | [Hge Hk]].
      * destruct (Hdone k paths Hk) as (batch & Hb' & Hbd).
        exists batch. split; [done|]. by eapply (Hkeep k batch); [eapply Hlt|..].
      * apply list_lookup_singleton_Some in Hk as [Hk _].
        assert (k = length (results s)) as ->
          by (apply Nat.le_antisymm; [by apply Nat.sub_0_le|done]).
        exists launched. split; [done|]. split; [done|].
        intros j Hj.
        assert (job_urls call = launched) as Hl.
        { rewrite (call_urls_lookup _ _ _ Ecall) in Hu. congruence. }
        rewrite <- Hl in Hj. unfold job_urls in Hj. rewrite length_fmap in Hj.
        destruct (lookup_lt_is_Some_2 _ _ Hj) as [job Hjob].
        pose proof (Forall_lookup_1 _ _ _ _ Hwg Ecall) as (Hcount & _).
        assert (job_live job = false) as Hdead.
        { eapply count_if_zero; [|exact Hjob]. lia. }
        unfold job_returned, job_view, view_in. cbn. rewrite Ecall. cbn. rewrite Hjob. cbn.
        unfold job_live in Hdead. destruct (j_pc job); try done. by eexists _, _.
    + rewrite length_app. cbn. lia.
Qed.

Lemma run_barrier env (dl : Downloader) (dk : Disk) (program : list (list string))
    (sched : list Tid) :
  barrier_inv program (run env sched (init dl dk program)).
Proof.
  assert (Forall wg_ok (calls (run env sched (init dl dk program)))
          /\ barrier_inv program (run env sched (init dl dk program))) as [_ H]; [|done].
  apply (run_invariant env (fun s => Forall wg_ok (calls s) /\ barrier_inv program s)).
  - intros s t s' [Hwg Hb] H. split; [by eapply step_wg_ok|by eapply step_barrier].
  - split; [by apply Forall_nil|]. exists []. cbn. split_and!; [done..| |done].
    intros k paths Hk. done.
Qed.

Lemma batch_done_jobs (s : State) (k : nat) batch :
  batch_done s k batch ->
  exists call, calls s !! k = Some call /\ job_urls call = batch
               /\ Forall (fun job => j_pc job = JReturned) (c_jobs call).
Proof.
  intros [Hu Hret]. unfold call_urls in Hu. rewrite list_lookup_fmap in Hu.
  destruct (calls s !! k) as [call|] eqn:Ecall; [|done]. cbn in Hu. simplify_eq.
  exists call. split_and!; [done..|]. apply Forall_lookup_2. intros j job Hj.
  destruct (Hret j) as (fn & df & Hv).
  { unfold job_urls. rewrite length_fmap. by eapply lookup_lt_Some. }
  unfold job_view, view_in in Hv. rewrite Ecall in Hv. cbn in Hv.
  rewrite Hj in Hv. cbn in Hv. by simplify_eq.
Qed.

(** X9. [wg.Wait()] is a barrier for the jobs: on every schedule, when the
    [k]-th call of [Download] has returned a nil error, it had launched
    [downloadLargeFile] for every URL of its batch, in order, and every one
    of these goroutines has returned. *)
Theorem Download_returns_behind_barrier env (dl : Downloader) (dk : Disk)
    (program : list (list string)) (sched : list Tid) (k : nat) (paths : list string) :
  results (run env sched (init dl dk program)) !! k = Some (paths, None) ->
  returned_behind_barrier program (run env sched (init dl dk program)) k.
Proof.
  intros Hk.
  destruct (run_barrier env dl dk program sched) as (bs & Hprog & Hlen & Hdone & _).
  destruct (Hdone k paths Hk) as (batch & Hb & Hbd).
  destruct (batch_done_jobs _ _ _ Hbd) as (call & Hcall & Hurls & Hret).
  exists batch, call. split_and!; [|done..].
  rewrite Hprog. by apply lookup_app_l_Some.
Qed.

Lemma Download_returns_behind_barrier_witness :
  returned_behind_barrier [["http://h/small"; "http://h/big"]%string]
    (run Scenario.sizes_site Scenario.sizes_schedule
       (Scenario.one_call ["http://h/small"; "http://h/big"]%string)) 0.
Proof.
  apply (Download_returns_behind_barrier Scenario.sizes_site
           (NewDownloader Scenario.opts) Scenario.empty_disk
           [["http://h/small"; "http://h/big"]%string] Scenario.sizes_schedule
           0 ["d/small"; "d/big"]%string).
  vm_compute. reflexivity.
Defined.

(** ** The ledger across calls of [Download] *)

Lemma run_app env (a b : list Tid) s :
  run env (a ++ b) s = run env b (run env a s).
Proof. revert s. induction a as [|t a IH]; intros s; [done|]. cbn. apply IH. Qed.

Lemma step_kept env s t s' paths :
  kept_in paths s -> step env s t = Some s' -> kept_in paths s'.
Proof.
  unfold step, kept_in. intros (Hled & Hjobs & Hres) H.
  destruct (crashed s); [done|]. destruct t.
  - crack_step H; cbn.
    all: split_and!; try done.
    all: try (apply Forall_app; split; [done|]; apply Forall_singleton).
    all: try (apply Forall_insert; [done|]).
    all: cbn.
    all: try done.
    apply Forall_app. split; [by eapply (Forall_lookup_1 _ _ _ _ Hjobs)|].
    by apply Forall_singleton.
  - crack_step H.
    all: unfold job_return; repeat case_match; cbn.
    all: split_and!; try done.
    all: try (apply Forall_insert; [done|]; cbn; apply Forall_insert;
              [by eapply (Forall_lookup_1 _ _ _ _ Hjobs)|];
              intros ps Hps; cbn in Hps; try done).
    + by simplify_eq.
    + apply prefix_app_r.
      match goal with Hc : calls _ !! _ = Some ?call, Hj : c_jobs ?call !! _ = Some ?job |- _ =>
        pose proof (Forall_lookup_1 _ _ _ _ (Forall_lookup_1 _ _ _ _ Hjobs Hc) Hj) as Hjob
      end.
      by apply Hjob.
    + apply prefix_app_r.
      match goal with Hc : calls _ !! _ = Some ?call, Hj : c_jobs ?call !! _ = Some ?job |- _ =>
        pose proof (Forall_lookup_1 _ _ _ _ (Forall_lookup_1 _ _ _ _ Hjobs Hc) Hj) as Hjob
      end.
      by apply Hjob.
  - crack_step H.
    all: unfold fetch_return; repeat case_match; cbn.
    all: split_and!; try done.
    all: try (apply Forall_insert; [done|]; cbn; try (by eapply (Forall_lookup_1 _ _ _ _ Hjobs))).
    all: apply Forall_insert; [by eapply (Forall_lookup_1 _ _ _ _ Hjobs)|]; cbn.
    all: match goal with
         | Hc : calls _ !! _ = Some ?call, Hj : c_jobs ?call !! _ = Some ?job |- _ =>
             exact (Forall_lookup_1 _ _ _ _ (Forall_lookup_1 _ _ _ _ Hjobs Hc) Hj)
         end.
Qed.

Lemma step_main_returns env s s' r :
  step_main env s = Some s' -> results s' = results s ++ [r] ->
  m_pc s' = MIdle /\ downloadPaths (d s') = downloadPaths (d s).
Proof.
  intros H Hr. crack_step H; cbn in *; try done.
  all: exfalso; apply (f_equal length) in Hr; rewrite length_app in Hr; cbn in Hr; lia.
Qed.

(** When the first call returns a nil error, it is alone and all its jobs
    have returned: no job holds a slice to store. *)
Lemma step_first_kept env program s t s' :
  Forall wg_ok (calls s) -> barrier_inv program s -> first_return_kept s ->
  step env s t = Some s' -> first_return_kept s'.
Proof.
  intros Hwg Hbar Hinv Hstep paths Hres'.
  pose proof (step_barrier _ _ _ _ _ Hwg Hbar Hstep) as Hbar'.
  destruct (step_results _ _ _ _ Hstep) as [Heq | (r & Heq & Hr)].
  { rewrite Heq in Hres'. eapply step_kept; [by apply Hinv|done]. }
  destruct (results s) as [|r0 rs] eqn:Hrs.
  2:{ eapply step_kept; [|done]. apply Hinv. rewrite Hrs.
      by rewrite Heq in Hres'. }
  cbn in Heq. rewrite Heq in Hres'. cbn in Hres'. simplify_eq.
  destruct Hr as [Hr | [e Hr]]; [|done]. simplify_eq.
  assert (m_pc s' = MIdle /\ downloadPaths (d s') = downloadPaths (d s))
    as [Hidle Hsame].
  { unfold step in Hstep. destruct (crashed s); [done|]. destruct t.
    - eapply step_main_returns; [done|]. by rewrite Hrs.
    - apply step_job_frame in Hstep as (_ & _ & Hr & _).
      rewrite Heq, Hrs in Hr. done.
    - apply step_fetch_frame in Hstep as (_ & _ & Hr & _).
      rewrite Heq, Hrs in Hr. done. }
  destruct Hbar' as (bs & _ & _ & Hdone & Hpc).
  destruct (Hdone 0%nat (downloadPaths (d s)) ltac:(by rewrite Heq))
    as (batch & _ & Hbd).
  destruct (batch_done_jobs _ _ _ Hbd) as (call & Hcall & _ & Hret).
  rewrite Hidle, Heq in Hpc. cbn in Hpc.
  assert (calls s' = [call]) as Hcalls.
  { destruct (calls s') as [|call0 [|call1 cs]]; cbn in Hcall, Hpc; [done| |done].
    by simplify_eq. }
  split_and!.
  - by rewrite Hsame.
  - rewrite Hcalls. apply Forall_singleton.
    eapply Forall_impl; [exact Hret|]. intros job Hj ps Hps. congruence.
  - rewrite Heq. by apply Forall_singleton.
Qed.

Lemma run_first_kept env (dl : Downloader) (dk : Disk) (program : list (list string))
    (sched : list Tid) :
  first_return_kept (run env sched (init dl dk program)).
Proof.
  assert (forall sched s,
            (Forall wg_ok (calls s) /\ barrier_inv program s /\ first_return_kept s) ->
            first_return_kept (run env sched s)) as Hrun.
  { clear sched. intros sched s H.
    eapply (run_invariant env
              (fun s => Forall wg_ok (calls s) /\ barrier_inv program s
                        /\ first_return_kept s)); [|exact H].
    clear. intros s t s' (Hwg & Hbar & Hk) Hstep. split_and!.
    - by eapply step_wg_ok.
    - by eapply step_barrier.
    - by eapply step_first_kept. }
  apply Hrun. split_and!.
  - apply Forall_nil_2.
  - apply (run_barrier env dl dk program []).
  - intros paths Hp. done.
Qed.

(** C10 (as amended). [Download] never resets the state of its
    [Downloader]: from the return of a first call to the return of a second
    one a stored [err] stays set and a ledger [downloadPaths] that holds
    paths is not emptied. A list that the first call returned with a nil
    error stays a prefix of the ledger, and of the list that the second
    call returns with a nil error; a second call that returns an error
    returns the nil path list. (A path recorded before a call that returns
    an error can be lost: see the example that follows.) *)
Theorem C10_ledger_persists env (dl : Downloader) (dk : Disk)
    (fileUrls1 fileUrls2 : list string) (sched1 sched2 : list Tid)
    (r1 r2 : Result) :
  let s1 := run env sched1 (init dl dk [fileUrls1; fileUrls2]) in
  let s2 := run env sched2 s1 in
  results s1 = [r1] -> results s2 = [r1; r2] ->
  second_call_keeps_state s1 s2 r1 r2.
Proof.
  intros s1 s2 Hr1 Hr2. split; [apply run_ledger|]. split.
  - intros Hnil.
    pose proof (run_first_kept env dl dk [fileUrls1; fileUrls2] (sched1 ++ sched2))
      as Hkept.
    rewrite run_app in Hkept. fold s1 s2 in Hkept.
    destruct (Hkept r1.1) as (Hled & _ & Hres).
    { rewrite Hr2. cbn. destruct r1 as [paths1 e1]. cbn in Hnil. by subst e1. }
    split; [done|]. intros Hnil2. rewrite Hr2 in Hres.
    by apply (Forall_lookup_1 _ _ 1%nat r2 Hres).
  - intros Herr.
    destruct (run_returns env sched2 s1) as (new & Hres & Hnew). fold s2 in Hres.
    rewrite Hr1, Hr2 in Hres. cbn in Hres. simplify_eq.
    by apply Forall_singleton in Hnew as [?|?].
Qed.

Lemma C10_ledger_persists_witness :
  let s0 := init (NewDownloader Scenario.opts) Scenario.empty_disk
              [["http://h/a"]; ["http://h/b"]]%string in
  let s1 := run Scenario.server_with_missing (Scenario.download_one 0) s0 in
  let s2 := run Scenario.server_with_missing (Scenario.download_one 1) s1 in
  second_call_keeps_state s1 s2
    (["d/a"]%string, None) (["d/a"; "d/b"]%string, None).
Proof.
  apply (C10_ledger_persists Scenario.server_with_missing
           (NewDownloader Scenario.opts) Scenario.empty_disk
           ["http://h/a"%string] ["http://h/b"%string]
           (Scenario.download_one 0) (Scenario.download_one 1)
           (["d/a"%string], None) (["d/a"; "d/b"]%string, None)).
  - vm_compute. reflexivity.
  - vm_compute. reflexivity.
Defined.

(** C10 as stated fails. The first call is given three URLs of which the
    third fails its probe. The job of ["a"] reads the empty ledger for its
    [append] and is not scheduled again; the job of ["b"] appends ["d/b"];
    then [Download] returns the probe error, with ["d/b"] recorded. Only
    now the job of ["a"] stores its slice, [["d/a"]], over the ledger. The
    second call returns a nil error and [["d/a"; "d/c"]]: the path ["d/b"]
    recorded by the first call is gone. *)
Lemma C10_recorded_path_lost :
  let env := Scenario.server_with_missing in
  let s0 := init (NewDownloader Scenario.opts) Scenario.empty_disk
              [["http://h/a"; "http://h/b"; "http://h/missing"]; ["http://h/c"]]%string in
  let s1 := run env
              ([TMain; TMain; TMain; TMain; TMain]
                 ++ Scenario.job_to_wait 0 0 ++ Scenario.fetch_to_end 0 0
                 ++ [TJob 0 0; TJob 0 0; TJob 0 0]
                 ++ Scenario.job_to_wait 0 1 ++ Scenario.fetch_to_end 0 1
                 ++ Scenario.job_to_end 0 1 ++ [TMain]) s0 in
  let s2 := run env (TJob 0 0 :: Scenario.download_one 1) s1 in
  results s1 = [([], Some ErrCheckingSize)]
  /\ downloadPaths (d s1) = ["d/b"]%string
  /\ (j_pc <$> (calls s1 !! 0%nat) ≫= (fun call => c_jobs call !! 0%nat))
     = Some (JStore [])
  /\ results s2 = [([], Some ErrCheckingSize); (["d/a"; "d/c"]%string, None)]
  /\ downloadPaths (d s2) = ["d/a"; "d/c"]%string.
Proof. vm_compute. repeat split; reflexivity. Qed.

(** A second call that returns an error returns the nil path list, although
    the ledger still holds the path that the first call recorded. *)
Example second_call_error_returns_no_paths :
  let s := run Scenario.server_with_missing
             (Scenario.download_one 0 ++ [TMain; TMain])
             (init (NewDownloader Scenario.opts) Scenario.empty_disk
                [["http://h/a"]; ["http://h/missing"]]%string) in
  results s = [(["d/a"]%string, None); ([], Some ErrCheckingSize)]
  /\ downloadPaths (d s) = ["d/a"]%string.
Proof. vm_compute. split; reflexivity. Qed.

(** ** [downloadLargeFile]: the deferred removal of the part files *)

Lemma temps_extend_refl ts : temps_extend ts ts.
Proof. by split. Qed.

Lemma temps_extend_trans ts1 ts2 ts3 :
  temps_extend ts1 ts2 -> temps_extend ts2 ts3 -> temps_extend ts1 ts3.
Proof. intros [L1 G1] [L2 G2]. split; [lia|auto]. Qed.


(** A write to, or a read of, an open part file. *)
Lemma temps_extend_insert ts (h : nat) t t' :
  ts !! h = Some t -> t_closed t = false -> temps_extend ts (<[h := t']> ts).
Proof.
  intros Hh Hopen. split; [by rewrite length_insert|].
  intros h0 (t0 & Hh0 & Hc & Hr). exists t0. split; [|done].
  rewrite list_lookup_insert_ne; [done|]. intros <-. congruence.
Qed.

Lemma run_deferred_cons h hs ts :
  run_deferred (h :: hs) ts = alter file_RemoveClose h (run_deferred hs ts).
Proof. reflexivity. Qed.

Lemma run_deferred_length hs ts : length (run_deferred hs ts) = length ts.
Proof.
  induction hs as [|h hs IH]; [done|]. by rewrite run_deferred_cons, length_alter.
Qed.




Lemma combine_chunk_extend env fileChunks path i st :
  temps_extend (temps (cb_disk st))
    (temps (cb_disk (combine_chunk env fileChunks path i st).1)).
Proof.
  unfold combine_chunk. repeat case_match; simplify_eq; cbn;
    try apply temps_extend_refl.
  all: by eapply temps_extend_insert.
Qed.

Lemma combine_loop_extend env fileChunks path fuel : forall i st,
  temps_extend (temps (cb_disk st))
    (temps (cb_disk (combine_loop fuel env fileChunks path i st).1)).
Proof.
  induction fuel as [|fuel IH]; intros i st; [apply temps_extend_refl|].
  cbn [combine_loop]. case_match; [|apply temps_extend_refl].
  pose proof (combine_chunk_extend env fileChunks path i st) as Hc.
  destruct (combine_chunk env fileChunks path i st) as [st' [e|]]; [done|].
  eapply temps_extend_trans; [exact Hc|apply IH].
Qed.










(** ** The paths that [Download] returns *)

Lemma job_has_output_extend env opts fs fs' job :
  (forall p, file_exists fs p -> file_exists fs' p) ->
  job_has_output env opts fs job -> job_has_output env opts fs' job.
Proof.
  unfold job_has_output. intros Hm. destruct (j_pc job); auto.
  intros [Hp Hps]. split; [auto|]. eapply Forall_impl; [exact Hps|]. exact Hm.
Qed.

Lemma outputs_extend env (s s' : State) :
  calls s' = calls s -> downloadOptions (d s') = downloadOptions (d s) ->
  (forall p, file_exists (files (disk s)) p -> file_exists (files (disk s')) p) ->
  outputs_inv env s -> outputs_inv env s'.
Proof.
  intros Hc Ho Hm Hinv. unfold outputs_inv. rewrite Hc, Ho.
  eapply Forall_impl; [exact Hinv|]. intros call Hcall.
  eapply Forall_impl; [exact Hcall|]. intros job. by apply job_has_output_extend.
Qed.

Lemma outputs_lookup env (s : State) (c j : nat) call job :
  outputs_inv env s -> calls s !! c = Some call -> c_jobs call !! j = Some job ->
  job_has_output env (downloadOptions (d s)) (files (disk s)) job.
Proof.
  intros Hinv Hc Hj.
  by apply (Forall_lookup_1 _ _ _ _ (Forall_lookup_1 _ _ _ _ Hinv Hc) Hj).
Qed.

Lemma outputs_put_job env (c j : nat) call call0 job' (s : State) :
  outputs_inv env s -> calls s !! c = Some call -> c_jobs call0 = c_jobs call ->
  job_has_output env (downloadOptions (d s)) (files (disk s)) job' ->
  outputs_inv env (put_call c (put_job j job' call0) s).
Proof.
  intros Hinv Hc Hjobs Hjob. unfold outputs_inv. cbn.
  apply Forall_insert; [done|]. cbn. rewrite Hjobs. apply Forall_insert; [|done].
  by apply (Forall_lookup_1 _ _ _ _ Hinv Hc).
Qed.

Lemma job_return_outputs env (c j : nat) call job (s : State) :
  outputs_inv env s -> calls s !! c = Some call ->
  outputs_inv env (job_return c j call job s).
Proof.
  intros Hinv Hc. unfold job_return.
  destruct (wg_Done (c_wg call)) as [n|]; [|done].
  unfold outputs_inv. cbn.
  apply Forall_insert; [done|]. cbn. apply Forall_insert; [|done].
  by apply (Forall_lookup_1 _ _ _ _ Hinv Hc).
Qed.

Lemma job_return_paths (c j : nat) call job (s : State) :
  downloadPaths (d (job_return c j call job s)) = downloadPaths (d s)
  /\ files (disk (job_return c j call job s)) = files (disk s).
Proof. unfold job_return. by destruct (wg_Done (c_wg call)). Qed.

Lemma step_outputs env s t s' :
  Forall (file_exists (files (disk s))) (downloadPaths (d s)) ->
  outputs_inv env s -> step env s t = Some s' -> outputs_inv env s'.
Proof.
  intros Hledger Hinv Hstep. pose proof Hstep as H.
  unfold step in H. destruct (crashed s); [done|]. destruct t as [|c j|c k].
  - crack_step H; try done; unfold outputs_inv; cbn.
    + apply Forall_app. split; [done|]. by apply Forall_singleton, Forall_nil.
    + apply Forall_insert; [done|]. cbn. apply Forall_app. split.
      * by eapply (Forall_lookup_1 _ _ _ _ Hinv).
      * by apply Forall_singleton.
  - unfold step_job in H.
    destruct (calls s !! c) as [call|] eqn:Ec; [|done]. cbn in H.
    destruct (c_jobs call !! j) as [job|] eqn:Ej; [|done]. cbn in H.
    pose proof (outputs_lookup env s c j call job Hinv Ec Ej) as Hjob.
    unfold job_has_output in Hjob.
    destruct (j_pc job) eqn:Epc.
    + (* JStat *)
      case_match; simplify_eq; [by apply job_return_outputs|].
      by apply (outputs_put_job env c j call).
    + (* JCreate *)
      case_match; simplify_eq; [by apply job_return_outputs|].
      case_match; simplify_eq.
      * apply (outputs_put_job env c j call); [|done|done|].
        -- apply (outputs_extend env s); [done|done| |done].
           intros p0 Hp0. cbn. apply lookup_insert_is_Some'. by right.
        -- unfold job_has_output. cbn. apply lookup_insert_is_Some'. by left.
      * apply (outputs_extend env s); [done|done| |done].
        intros p0 Hp0. cbn. apply lookup_insert_is_Some'. by right.
    + (* JLoop *)
      case_match; simplify_eq; [|by apply (outputs_put_job env c j call)].
      case_match; simplify_eq; [by apply job_return_outputs|].
      apply (outputs_put_job env c j call); [|done|done|done].
      by apply (outputs_extend env s).
    + (* JSend *)
      case_match; simplify_eq.
      unfold outputs_inv. cbn. apply Forall_insert; [done|]. cbn.
      apply Forall_insert; [by apply (Forall_lookup_1 _ _ _ _ Hinv Ec)|done].
    + (* JCheckErr *)
      case_match; simplify_eq; [by apply job_return_outputs|].
      by apply (outputs_put_job env c j call).
    + (* JWait *)
      case_match; simplify_eq. by apply (outputs_put_job env c j call).
    + (* JCombine *)
      destruct (combineChunks env (j_fileChunks job) _ (j_outPos job) (disk s))
        as [st r] eqn:Ecomb.
      assert (forall p, file_exists (files (disk s)) p ->
                        file_exists (files (cb_disk st)) p) as Hm.
      { intros p Hp.
        pose proof (combine_loop_files env (j_fileChunks job)
                      (outputFilePath env (downloadOptions (d s)) (j_fileName job))
                      p (size (j_fileChunks job)) 0
                      {| cb_disk := disk s; cb_outPos := j_outPos job; cb_w := 0 |} Hp)
          as Hf.
        unfold combineChunks in Ecomb. by rewrite Ecomb in Hf. }
      assert (outputs_inv env (set_disk (cb_disk st) s)) as Hinv1
        by (by apply (outputs_extend env s)).
      destruct r as [e|]; simplify_eq.
      * by apply (job_return_outputs env c j call _ (set_err e (set_disk (cb_disk st) s))).
      * apply (outputs_put_job env c j call); [done..|].
        unfold job_has_output. cbn. by apply Hm.
    + (* JAppend *)
      simplify_eq. apply (outputs_put_job env c j call); [done..|].
      unfold job_has_output. cbn. by split.
    + (* JStore *)
      simplify_eq. by apply (job_return_outputs env c j call job (set_paths _ s)).
    + done.
  - assert (files (disk s') = files (disk s)
            /\ downloadOptions (d s') = downloadOptions (d s)) as [Ef Eo]
      by (by apply step_fetch_frame in H as (_ & _ & _ & ? & _ & _ & ?)).
    unfold outputs_inv. rewrite Ef, Eo.
    crack_step H.
    all: unfold fetch_return; repeat case_match; try done.
    all: cbn.
    all: repeat (apply Forall_insert; cbn).
    all: try done.
    all: try by eapply (Forall_lookup_1 _ _ _ _ Hinv).
    all: try (match goal with |- job_has_output _ _ _ (job_wg1 _ ?job) =>
                change (job_has_output env (downloadOptions (d s)) (files (disk s)) job)
              end; by eapply (outputs_lookup env s)).
Qed.

(** A step of a job leaves the ledger of paths as it is, or it is the
    store of the slice that the job has read, with the job's own output
    path appended. *)
Lemma step_job_paths env s (c j : nat) s' :
  step_job env s c j = Some s' ->
  downloadPaths (d s') = downloadPaths (d s)
  \/ exists call job paths,
       calls s !! c = Some call /\ c_jobs call !! j = Some job
       /\ j_pc job = JStore paths
       /\ downloadPaths (d s')
          = paths ++ [outputFilePath env (downloadOptions (d s)) (j_fileName job)].
Proof.
  intros H. crack_step H.
  all: unfold job_return; repeat case_match; cbn; try (by left).
  all: right; eexists _, _, _; by split_and!.
Qed.

Lemma step_paths env s t s' :
  outputs_inv env s -> paths_inv s -> step env s t = Some s' -> paths_inv s'.
Proof.
  intros Hout [Hledger Hres] Hstep.
  assert (forall p, file_exists (files (disk s)) p -> file_exists (files (disk s')) p)
    as Hm by (intros p; by eapply step_files_mono).
  assert (forall ps, Forall (file_exists (files (disk s))) ps ->
                     Forall (file_exists (files (disk s'))) ps) as Hms.
  { intros ps Hps. eapply Forall_impl; [exact Hps|]. exact Hm. }
  split.
  - pose proof Hstep as H. unfold step in H. destruct (crashed s); [done|].
    destruct t as [|c j|c k].
    + apply step_main_frame in H as (_ & -> & _). by apply Hms.
    + apply step_job_paths in H as [-> | (call & job & ps & Hc & Hj & Hpc & ->)];
        [by apply Hms|].
      pose proof (outputs_lookup env s c j call job Hout Hc Hj) as Hjob.
      unfold job_has_output in Hjob. rewrite Hpc in Hjob. destruct Hjob as [Hp Hps].
      apply Forall_app. split; [by apply Hms|]. by apply Forall_singleton, Hm.
    + apply step_fetch_frame in H as (_ & _ & _ & _ & -> & _). by apply Hms.
  - destruct (step_results _ _ _ _ Hstep) as [-> | (r & -> & Hr)].
    + eapply Forall_impl; [exact Hres|]. intros r. apply Hms.
    + apply Forall_app. split.
      * eapply Forall_impl; [exact Hres|]. intros r0. apply Hms.
      * apply Forall_singleton. destruct Hr as [-> | [e ->]]; cbn; [by apply Hms|done].
Qed.

(** X11. Every path that [Download] reports names a file that exists: on
    every schedule, the paths in the ledger [d.downloadPaths] and the paths
    of every result returned so far are output files on disk, provided the
    paths that the [Downloader] started with were. *)
Theorem reported_paths_exist env (dl : Downloader) (dk : Disk)
    (program : list (list string)) (sched : list Tid) :
  Forall (file_exists (files dk)) (downloadPaths dl) ->
  paths_inv (run env sched (init dl dk program)).
Proof.
  intros Hdl.
  assert (outputs_inv env (run env sched (init dl dk program))
          /\ paths_inv (run env sched (init dl dk program))) as [_ H]; [|done].
  apply (run_invariant env (fun s => outputs_inv env s /\ paths_inv s)).
  - intros s t s' [Hout Hp] H.
    split; [eapply step_outputs; [exact (proj1 Hp)|done..]|by eapply step_paths].
  - split; [by apply Forall_nil|]. split; [done|by apply Forall_nil].
Qed.

Lemma reported_paths_exist_witness :
  paths_inv (run Scenario.sizes_site Scenario.sizes_schedule
               (Scenario.one_call ["http://h/small"; "http://h/big"]%string)).
Proof.
  apply (reported_paths_exist Scenario.sizes_site
           (NewDownloader Scenario.opts) Scenario.empty_disk
           [["http://h/small"; "http://h/big"]%string] Scenario.sizes_schedule).
  apply Forall_nil_2.
Defined.

(** ** The fetches of a job carry the planned ranges *)

Lemma requests_of_snoc (j : nat) fs f :
  requests_of j (fs ++ [f])
  = requests_of j fs ++ (if decide (f_job f = j) then [f_byteRange f] else []).
Proof.
  unfold requests_of. rewrite filter_app, fmap_app. f_equal.
  rewrite filter_cons, filter_nil. by case_decide.
Qed.

Lemma requests_of_insert (j k : nat) fs f f' :
  fs !! k = Some f -> f_job f' = f_job f -> f_byteRange f' = f_byteRange f ->
  requests_of j (<[k := f']> fs) = requests_of j fs.
Proof.
  unfold requests_of. intros Hk Hj Hr. revert k Hk.
  induction fs as [|a fs IH]; intros k Hk; [done|].
  destruct k as [|k]; cbn in Hk.
  - simplify_eq. change (<[0%nat := f']> (f :: fs)) with (f' :: fs).
    rewrite !filter_cons, Hj. case_decide; cbn; by rewrite ?Hr.
  - change (<[S k := f']> (a :: fs)) with (a :: <[k := f']> fs).
    rewrite !filter_cons. case_decide; cbn; by rewrite IH.
Qed.

Lemma requests_of_none (j n : nat) fs :
  Forall (fun f => (f_job f < n)%nat) fs -> (n <= j)%nat -> requests_of j fs = [].
Proof.
  unfold requests_of. intros Hfs Hn. induction Hfs as [|f fs Hf _ IH]; [done|].
  rewrite filter_cons. rewrite decide_False by lia. done.
Qed.

Lemma ranges_upto_0 pl : ranges_upto pl 0 = [].
Proof. reflexivity. Qed.

Lemma ranges_upto_S pl i :
  0 <= i ->
  ranges_upto pl (i + 1) = ranges_upto pl i ++ [byteRange_of (chunk_bounds pl i)].
Proof.
  intros Hi. unfold ranges_upto. rewrite seqZ_app by lia. by rewrite !fmap_app.
Qed.

Lemma chunk_ranges_upto pl :
  numConcParts pl <= GoInt.max_int ->
  byteRange_of <$> chunk_ranges pl = ranges_upto pl (numConcParts pl).
Proof.
  intros Hmax. unfold ranges_upto. destruct (Z.le_gt_cases 0 (numConcParts pl)).
  - by rewrite chunk_ranges_map by lia.
  - unfold chunk_ranges. rewrite Z2Nat.nonpos by lia.
    by rewrite seqZ_nil by lia.
Qed.

Lemma ranges_upto_prefix pl i n :
  0 <= i -> i <= n \/ i = 0 -> ranges_upto pl i `prefix_of` ranges_upto pl n.
Proof.
  intros Hi [Hn | ->]; [|apply prefix_nil].
  unfold ranges_upto. replace n with (i + (n - i)) by lia.
  rewrite seqZ_app by lia. rewrite !fmap_app. by apply prefix_app_r.
Qed.

Lemma ranges_upto_all pl i :
  numConcParts pl <= GoInt.max_int ->
  0 <= i -> i <= numConcParts pl \/ i = 0 -> numConcParts pl <= i ->
  ranges_upto pl i = byteRange_of <$> chunk_ranges pl.
Proof.
  intros Hmax Hi Hle Hge. rewrite chunk_ranges_upto by done.
  destruct Hle as [Hle | ->].
  - by replace i with (numConcParts pl) by lia.
  - unfold ranges_upto. by rewrite (seqZ_nil 0 (numConcParts pl)) by lia.
Qed.

Lemma planning_parts L P pl :
  planning L P = Some pl -> P <= GoInt.max_int -> numConcParts pl <= GoInt.max_int.
Proof.
  unfold planning. intros H HP. repeat case_match; simplify_eq; cbn; [|done].
  unfold GoInt.max_int. lia.
Qed.

(** Whatever a job has requested so far, it has requested when it returns. *)
Lemma req_inv_return P reqs job :
  P <= GoInt.max_int -> req_inv P reqs job -> req_inv P reqs (job_at JReturned job).
Proof.
  intros HP. unfold req_inv. cbn.
  destruct (j_pc job); intros H; try (by left); try done.
  all: try (destruct H as (Hpl & ->); by right).
  - destruct H as (Hpl & Hi & Hle & ->). right. split; [done|].
    rewrite chunk_ranges_upto by (by eapply planning_parts).
    by apply ranges_upto_prefix.
  - destruct H as (Hpl & Hi & _ & ->). right. split; [done|].
    rewrite chunk_ranges_upto by (by eapply planning_parts).
    apply ranges_upto_prefix; lia.
Qed.

Lemma call_req_put_job P (j : nat) call call0 job' :
  call_req P call -> c_jobs call0 = c_jobs call -> c_fetchers call0 = c_fetchers call ->
  req_inv P (job_requests call j) job' ->
  call_req P (put_job j job' call0).
Proof.
  intros Hinv Hjobs Hfs Hjob j0 job0 Hj0. unfold put_job, job_requests in *. cbn in *.
  rewrite Hfs. rewrite Hjobs in Hj0.
  apply list_lookup_insert_Some in Hj0 as [(<- & <- & _) | [_ Hj0]]; [done|].
  by apply Hinv.
Qed.

Lemma call_req_lookup (s : State) (c j : nat) call job :
  plan_inv s -> calls s !! c = Some call -> c_jobs call !! j = Some job ->
  req_inv (NumConcParts (downloadOptions (d s))) (job_requests call j) job.
Proof. intros Hinv Hc Hj. by apply (Forall_lookup_1 _ _ _ _ Hinv Hc). Qed.

Lemma job_return_plan (c j : nat) call job' (s s0 : State) :
  NumConcParts (downloadOptions (d s)) <= GoInt.max_int ->
  downloadOptions (d s) = downloadOptions (d s0) -> calls s = calls s0 ->
  plan_inv s0 -> calls s0 !! c = Some call ->
  req_inv (NumConcParts (downloadOptions (d s0))) (job_requests call j) job' ->
  plan_inv (job_return c j call job' s).
Proof.
  intros HP Ho Hcs Hinv Hc Hjob. unfold job_return.
  destruct (wg_Done (c_wg call)) as [n|]; unfold plan_inv; cbn; rewrite Ho, Hcs; [|done].
  apply Forall_insert; [done|].
  apply (call_req_put_job _ j call); [|done|done|].
  - by apply (Forall_lookup_1 _ _ _ _ Hinv Hc).
  - apply req_inv_return; [by rewrite <- Ho|done].
Qed.

Lemma step_plan env s t s' :
  NumConcParts (downloadOptions (d s)) <= GoInt.max_int ->
  Forall wg_ok (calls s) -> plan_inv s -> step env s t = Some s' -> plan_inv s'.
Proof.
  intros HP Hwg Hinv H. unfold step in H. destruct (crashed s); [done|].
  destruct t as [|c j|c k].
  - crack_step H; try done; unfold plan_inv; cbn.
    + apply Forall_app. split; [done|]. apply Forall_singleton. by intros j job Hj.
    + apply Forall_insert; [done|].
      match goal with Hc : calls s !! _ = Some ?call |- _ =>
        pose proof (Forall_lookup_1 _ _ _ _ Hinv Hc) as Hcall;
        pose proof (Forall_lookup_1 _ _ _ _ Hwg Hc) as (_ & Hidx & _) end.
      intros j job Hj. unfold job_requests. cbn in *.
      apply lookup_app_Some in Hj as [Hj | [Hlen Hj]]; [by apply Hcall|].
      apply list_lookup_singleton_Some in Hj as [_ <-]. unfold req_inv. cbn.
      by eapply requests_of_none.
  - unfold step_job in H.
    destruct (calls s !! c) as [call|] eqn:Ec; [|done]. cbn in H.
    destruct (c_jobs call !! j) as [job|] eqn:Ej; [|done]. cbn in H.
    pose proof (call_req_lookup s c j call job Hinv Ec Ej) as Hjob.
    pose proof (Forall_lookup_1 _ _ _ _ Hinv Ec) as Hcall.
    set (P := NumConcParts (downloadOptions (d s))) in *.
    assert (forall job' (s0 : State),
              downloadOptions (d s0) = downloadOptions (d s) -> calls s0 = calls s ->
              req_inv P (job_requests call j) job' ->
              plan_inv (put_call c (put_job j job' call) s0)) as Hput.
    { intros job' s0 Ho Hcs Hjob'. unfold plan_inv. cbn. rewrite Ho, Hcs.
      apply Forall_insert; [done|]. by apply (call_req_put_job _ j call). }
    assert (forall job' (s0 : State),
              downloadOptions (d s0) = downloadOptions (d s) -> calls s0 = calls s ->
              req_inv P (job_requests call j) job' ->
              plan_inv (job_return c j call job' s0)) as Hret.
    { intros job' s0 Ho Hcs Hjob'.
      apply (job_return_plan c j call job' s0 s); [by rewrite Ho|done..]. }
    unfold req_inv in Hjob.
    destruct (j_pc job) eqn:Epc.
    + (* JStat *)
      case_match; simplify_eq.
      * apply Hret; [done|done|]. unfold req_inv. by rewrite Epc.
      * by apply Hput.
    + (* JCreate *)
      case_match; simplify_eq.
      { apply Hret; [done|done|]. unfold req_inv. by rewrite Epc. }
      case_match; simplify_eq; [|done].
      apply Hput; [done|done|]. unfold req_inv. cbn.
      split_and!; [done|done|by right|by rewrite Hjob].
    + (* JLoop *)
      destruct Hjob as (Hpl & Hi & Hle & Hreqs).
      case_match; simplify_eq; bool_hyps.
      * case_match; simplify_eq.
        -- apply Hret; [done|done|]. unfold req_inv. by rewrite Epc.
        -- apply Hput; [done|done|]. unfold req_inv. cbn. split_and!; [done|lia|lia|done|done].
      * apply Hput; [done|done|]. unfold req_inv. cbn. split; [done|].
        rewrite Hreqs. apply ranges_upto_all; [by eapply planning_parts|done|done|lia].
    + (* JSend *)
      destruct Hjob as (Hpl & Hi & Hb & Hreqs).
      case_match; simplify_eq.
      pose proof (planning_parts _ _ _ Hpl HP) as Hmax.
      unfold plan_inv. cbn. apply Forall_insert; [done|].
      intros j0 job0 Hj0. unfold job_requests. cbn in *.
      rewrite requests_of_snoc. cbn.
      apply list_lookup_insert_Some in Hj0 as [(<- & <- & _) | [Hne Hj0]].
      * rewrite decide_True by done. unfold req_inv. cbn.
        unfold GoInt.add, GoInt.max_int in *. rewrite wrap_small by lia.
        split_and!; [done|lia|lia|].
        rewrite ranges_upto_S by lia. unfold job_requests in Hreqs. by rewrite Hreqs.
      * rewrite decide_False by done. rewrite app_nil_r. by apply Hcall.
    + (* JCheckErr *)
      case_match; simplify_eq.
      * apply Hret; [done|done|]. unfold req_inv. by rewrite Epc.
      * apply Hput; [done|done|]. by unfold req_inv.
    + (* JWait *)
      case_match; simplify_eq. apply Hput; [done|done|]. by unfold req_inv.
    + (* JCombine *)
      destruct (combineChunks env (j_fileChunks job) _ (j_outPos job) (disk s))
        as [st r] eqn:Ecomb.
      destruct r as [e|]; simplify_eq.
      * apply Hret; [done|done|]. by unfold req_inv.
      * apply Hput; [done|done|]. by unfold req_inv.
    + (* JAppend *)
      simplify_eq. apply Hput; [done|done|]. by unfold req_inv.
    + (* JStore *)
      simplify_eq. apply Hret; [done|done|]. unfold req_inv. by rewrite Epc.
    + done.
  - unfold step_fetch in H.
    destruct (calls s !! c) as [call|] eqn:Ec; [|done]. cbn in H.
    destruct (c_fetchers call !! k) as [f|] eqn:Ek; [|done]. cbn in H.
    pose proof (Forall_lookup_1 _ _ _ _ Hinv Ec) as Hcall.
    set (P := NumConcParts (downloadOptions (d s))) in *.
    assert (forall pc call0,
              c_jobs call0 = c_jobs call -> c_fetchers call0 = c_fetchers call ->
              call_req P (put_fetcher k (fetcher_at pc f) call0)) as Hpf.
    { intros pc call0 Hjs Hfs j0 job0 Hj0. unfold job_requests. cbn in *.
      rewrite Hjs, Hfs in *.
      rewrite (requests_of_insert j0 k _ f) by done. by apply Hcall. }
    assert (forall (s0 : State) call0,
              downloadOptions (d s0) = downloadOptions (d s) -> calls s0 = calls s ->
              call_req P call0 ->
              plan_inv (put_call c call0 s0)) as Hput.
    { intros s0 call0 Ho Hcs Hc0. unfold plan_inv. cbn. rewrite Ho, Hcs.
      by apply Forall_insert. }
    assert (forall (s0 : State) call0,
              downloadOptions (d s0) = downloadOptions (d s) -> calls s0 = calls s ->
              c_jobs call0 = c_jobs call -> c_fetchers call0 = c_fetchers call ->
              plan_inv (fetch_return c k call0 f s0)) as Hret.
    { intros s0 call0 Ho Hcs Hjobs Hfs. unfold fetch_return. rewrite Hjobs.
      destruct (c_jobs call !! f_job f) as [job|] eqn:Ej;
        [|unfold plan_inv; cbn; by rewrite Ho, Hcs].
      destruct (wg_Done (j_wg1 job)) as [n|];
        [|unfold plan_inv; cbn; by rewrite Ho, Hcs].
      apply Hput; [done|done|].
      intros j0 job0 Hj0. unfold job_requests. cbn in *. rewrite Hjobs, Hfs in *.
      rewrite (requests_of_insert j0 k _ f) by done.
      apply list_lookup_insert_Some in Hj0 as [(<- & <- & _) | [Hne Hj0]].
      - by apply (Hcall _ _ Ej).
      - by apply Hcall. }
    destruct (f_pc f) eqn:Epc.
    + repeat case_match; simplify_eq; try (by apply Hret);
        (apply Hput; [done|done|by apply Hpf]).
    + repeat case_match; simplify_eq; (apply Hput; [done|done|by apply Hpf]).
    + case_match; simplify_eq. apply Hput; [done|done|by apply Hpf].
    + simplify_eq. apply Hput; [done|done|by apply Hpf].
    + simplify_eq. by apply Hret.
    + done.
Qed.

Lemma req_inv_follow P reqs job :
  P <= GoInt.max_int -> req_inv P reqs job -> requests_follow_plan P reqs job.
Proof.
  intros HP. unfold req_inv, requests_follow_plan, planned_ranges.
  destruct (planning (j_contentLength job) P) as [pl0|] eqn:Hpl0; cbn.
  - pose proof (planning_parts _ _ _ Hpl0 HP) as Hmax.
    destruct (j_pc job); cbn; intros H.
    + subst. split; [apply prefix_nil|done].
    + subst. split; [apply prefix_nil|done].
    + destruct H as (Hpl & Hi & Hle & ->). simplify_eq. split; [|done].
      rewrite chunk_ranges_upto by done. by apply ranges_upto_prefix.
    + destruct H as (Hpl & Hi & _ & ->). simplify_eq. split; [|done].
      rewrite chunk_ranges_upto by done. apply ranges_upto_prefix; lia.
    + destruct H as (Hpl & ->). by simplify_eq.
    + destruct H as (Hpl & ->). by simplify_eq.
    + destruct H as (Hpl & ->). by simplify_eq.
    + destruct H as (Hpl & ->). by simplify_eq.
    + destruct H as (Hpl & ->). by simplify_eq.
    + destruct H as [-> | (Hpl & Hpre)]; [split; [apply prefix_nil|done]|].
      by simplify_eq.
  - destruct (j_pc job); intros H; try done.
    all: try by destruct H as (? & _).
    by destruct H as [-> | (? & _)].
Qed.

Lemma run_plan env (dl : Downloader) (dk : Disk) (program : list (list string))
    (sched : list Tid) :
  NumConcParts (downloadOptions dl) <= GoInt.max_int ->
  plan_inv (run env sched (init dl dk program)).
Proof.
  intros HP.
  assert (let s := run env sched (init dl dk program) in
          NumConcParts (downloadOptions (d s)) <= GoInt.max_int
          /\ Forall wg_ok (calls s) /\ plan_inv s) as (_ & _ & H); [|done].
  apply (run_invariant env
           (fun s => NumConcParts (downloadOptions (d s)) <= GoInt.max_int
                     /\ Forall wg_ok (calls s) /\ plan_inv s)).
  - intros s t s' (Hs & Hwg & Hp) H. split_and!.
    + by rewrite (step_options _ _ _ _ H).
    + by eapply step_wg_ok.
    + by eapply step_plan.
  - split_and!; [done|by apply Forall_nil|by apply Forall_nil].
Qed.

(** X12. The ranges that are requested are the ranges that were planned:
    on every schedule, the fetches launched by a job carry, in launch order,
    the first of the byte ranges planned for the job's content length, and
    all of them once the job has left its loop; a job whose planning would
    divide by zero has requested nothing. [NumConcParts] is a Go [int]. *)
Theorem requests_are_the_planned_ranges env (dl : Downloader) (dk : Disk)
    (program : list (list string)) (sched : list Tid) (c j : nat) call job :
  NumConcParts (downloadOptions dl) <= GoInt.max_int ->
  calls (run env sched (init dl dk program)) !! c = Some call ->
  c_jobs call !! j = Some job ->
  requests_follow_plan (NumConcParts (downloadOptions dl)) (job_requests call j) job.
Proof.
  intros HP Hc Hj. apply req_inv_follow; [done|].
  pose proof (run_plan env dl dk program sched HP) as Hinv.
  pose proof (call_req_lookup _ c j call job Hinv Hc Hj) as H.
  by rewrite run_options in H.
Qed.

Lemma requests_are_the_planned_ranges_witness :
  let s := run Scenario.sizes_site Scenario.sizes_schedule
             (Scenario.one_call ["http://h/small"; "http://h/big"]%string) in
  exists call job,
    calls s !! 0%nat = Some call /\ c_jobs call !! 1%nat = Some job
    /\ j_contentLength job = 50000000
    /\ requests_follow_plan 4 (job_requests call 1) job.
Proof.
  cbv zeta. eexists _, _. split; [vm_compute; reflexivity|].
  split; [vm_compute; reflexivity|]. split; [vm_compute; reflexivity|].
  eapply (requests_are_the_planned_ranges Scenario.sizes_site
            (NewDownloader Scenario.opts) Scenario.empty_disk
            [["http://h/small"; "http://h/big"]%string] Scenario.sizes_schedule 0 1).
  - vm_compute. discriminate.
  - vm_compute. reflexivity.
  - vm_compute. reflexivity.
Defined.

(** ** The probe reads back a decimal [Content-Length] *)

Lemma parse_digits_acc (u : Decimal.uint) (acc : positive) :
  parse_digits (NilEmpty.string_of_uint u) (Z.pos acc)
  = Some (Z.pos (Pos.of_uint_acc u acc)).
Proof.
  revert acc. induction u as [|u IH|u IH|u IH|u IH|u IH|u IH|u IH|u IH|u IH|u IH];
    intros acc; [done|..].
  all: cbn [NilEmpty.string_of_uint parse_digits Pos.of_uint_acc].
  all: match goal with |- context [digit_of ?a] =>
         let v := eval vm_compute in (digit_of a) in change (digit_of a) with v end.
  all: rewrite <- IH; f_equal; lia.
Qed.

Lemma parse_digits_uint (u : Decimal.uint) :
  parse_digits (NilEmpty.string_of_uint u) 0 = Some (Z.of_N (Pos.of_uint u)).
Proof.
  induction u as [|u IH|u IH|u IH|u IH|u IH|u IH|u IH|u IH|u IH|u IH]; [done|..].
  all: cbn [NilEmpty.string_of_uint parse_digits Pos.of_uint].
  all: match goal with |- context [digit_of ?a] =>
         let v := eval vm_compute in (digit_of a) in change (digit_of a) with v end.
  all: cbn [Z.mul Z.add].
  - exact IH.
  - apply (parse_digits_acc u 1).
  - apply (parse_digits_acc u 2).
  - apply (parse_digits_acc u 3).
  - apply (parse_digits_acc u 4).
  - apply (parse_digits_acc u 5).
  - apply (parse_digits_acc u 6).
  - apply (parse_digits_acc u 7).
  - apply (parse_digits_acc u 8).
  - apply (parse_digits_acc u 9).
Qed.

Lemma parse_digits_pos (p : positive) :
  parse_digits (NilEmpty.string_of_uint (Pos.to_uint p)) 0 = Some (Z.pos p).
Proof. by rewrite parse_digits_uint, DecimalPos.Unsigned.of_to. Qed.

(** The decimal rendering of a positive number: not empty, and its first
    character is a digit. *)
Lemma string_of_pos_shape (p : positive) :
  exists a r,
    NilZero.string_of_uint (Pos.to_uint p) = String a r
    /\ NilEmpty.string_of_uint (Pos.to_uint p) = String a r
    /\ is_Some (digit_of a).
Proof.
  pose proof (DecimalPos.Unsigned.to_uint_nonnil p) as Hnil.
  destruct (Pos.to_uint p); [done|..]; eexists _, _; by split_and!.
Qed.

(** [strconv.Atoi] reads back what [strconv.Itoa] has written. *)
Lemma Atoi_Itoa (z : Z) : GoInt.in_range z -> Atoi (Itoa z) = Some z.
Proof.
  unfold GoInt.in_range, Itoa. intros Hz. destruct z as [|p|p].
  - reflexivity.
  - cbn [Z.to_int NilZero.string_of_int].
    destruct (string_of_pos_shape p) as (a & r & -> & Hs & [k Hk]).
    pose proof (parse_digits_pos p) as Hp. rewrite Hs in Hp.
    unfold Atoi.
    assert (a <> "+"%char /\ a <> "-"%char) as [Hplus Hminus]
      by (split; intros ->; vm_compute in Hk; discriminate).
    destruct a as [[] [] [] [] [] [] [] []]; try done.
    all: rewrite Hp.
    all: destruct (Z.leb_spec GoInt.min_int (Z.pos p)); [|lia].
    all: destruct (Z.leb_spec (Z.pos p) GoInt.max_int); [done|lia].
  - cbn [Z.to_int NilZero.string_of_int].
    destruct (string_of_pos_shape p) as (a & r & -> & Hs & _).
    pose proof (parse_digits_pos p) as Hp. rewrite Hs in Hp.
    unfold Atoi. rewrite Hp.
    change (- Z.pos p) with (Z.neg p).
    destruct (Z.leb_spec GoInt.min_int (Z.neg p)); [|lia].
    destruct (Z.leb_spec (Z.neg p) GoInt.max_int); [done|lia].
Qed.

Lemma Itoa_nonempty (z : Z) : Itoa z <> ""%string.
Proof.
  unfold Itoa. destruct z as [|p|p]; [done| |done].
  cbn [Z.to_int NilZero.string_of_int].
  by destruct (string_of_pos_shape p) as (a & r & -> & _).
Qed.

(** X13. The probe reads the size that the server announces: for a HEAD
    response with status 200 whose [Content-Length] is the decimal
    rendering of a Go [int] [n], [checkFileSizeWithHeaderContentLength]
    returns [n] and no error. *)
Theorem probe_reads_content_length env (fileUrl : string) (n : Z) :
  GoInt.in_range n ->
  http_Head env fileUrl = HeadResponse 200 (Itoa n) ->
  checkFileSizeWithHeaderContentLength env fileUrl = inr n.
Proof.
  intros Hn Hhead. unfold checkFileSizeWithHeaderContentLength. rewrite Hhead.
  cbn [Z.eqb negb Pos.eqb].
  destruct (String.eqb_spec (Itoa n) "") as [He|_];
    [by apply Itoa_nonempty in He|].
  by rewrite Atoi_Itoa.
Qed.

Lemma probe_reads_content_length_witness :
  checkFileSizeWithHeaderContentLength Scenario.sizes_site "http://h/big" = inr 50000000.
Proof.
  apply (probe_reads_content_length Scenario.sizes_site "http://h/big" 50000000).
  - unfold GoInt.in_range, GoInt.min_int, GoInt.max_int. lia.
  - vm_compute. reflexivity.
Defined.

(** ** [Download] on a [Downloader] that holds an error *)

Lemma barrier_pc program (s : State) :
  barrier_inv program s ->
  match m_pc s with
  | MIdle => True
  | MLoop c _ | MCheck c _ | MWait c => c = length (results s)
  end.
Proof.
  intros (bs & _ & _ & _ & Hpc). destruct (m_pc s); [done|..]; by destruct Hpc as [? _].
Qed.

Lemma step_sticky env program s t s' :
  barrier_inv program s -> sticky_inv s -> step env s t = Some s' -> sticky_inv s'.
Proof.
  intros Hbar (Herr & Hloop & Hwait & Hres) Hstep.
  pose proof (step_ledger _ _ _ _ Hstep) as [Herr' _].
  specialize (Herr' Herr).
  pose proof (barrier_pc _ _ Hbar) as Hc.
  destruct (decide (t = TMain)) as [-> | Hne].
  2: { assert (m_pc s' = m_pc s /\ results s' = results s) as (Em & Er).
       { unfold step in Hstep. destruct (crashed s); [done|].
         destruct t; [done|..].
         - by apply step_job_frame in Hstep as (? & _ & ? & _).
         - by apply step_fetch_frame in Hstep as (? & _ & ? & _). }
       pose proof (step_call_urls _ _ _ _ Hne Hstep) as Eu.
       unfold sticky_inv. by rewrite Em, Er, Eu. }
  pose proof Hstep as H. unfold step in H. destruct (crashed s) eqn:Hcr; [done|].
  unfold step_main in H. destruct (m_pc s) as [|c urls|c rest|c] eqn:Epc; cbn in Hc.
  - (* MIdle *)
    destruct (pending s) as [|fileUrls rest] eqn:Ep; [done|].
    destruct (MaxLimitConcurrency _ <? 0); simplify_eq.
    + unfold sticky_inv. cbn. rewrite Epc. by split_and!.
    + split; [done|]. unfold call_urls. cbn. rewrite fmap_app. split_and!.
      * intros c rest0 ?. simplify_eq.
        rewrite lookup_app_r by (by rewrite length_fmap).
        by rewrite length_fmap, Nat.sub_diag.
      * done.
      * intros k paths Hk. by apply lookup_app_l_Some, (Hres k paths).
  - (* MLoop *)
    destruct urls as [|fileUri rest].
    + simplify_eq. split; [done|]. cbn. split_and!; [done| |done].
      intros c0 ?. simplify_eq. by eapply Hloop.
    + destruct (checkFileSizeWithHeaderContentLength env fileUri) as [e|fileSize].
      * simplify_eq. split; [done|]. cbn. split_and!; [done..|].
        intros k paths Hk. apply lookup_app_Some in Hk as [Hk | [_ Hk]].
        -- by eapply Hres.
        -- by apply list_lookup_singleton_Some in Hk as [_ ?].
      * destruct (calls s !! c) as [call|] eqn:Ecall; [|done]. cbn in H. simplify_eq.
        split; [done|]. cbn. split_and!; [done..|].
        intros k paths Hk. unfold call_urls. cbn. rewrite list_fmap_insert.
        rewrite list_lookup_insert_ne; [by eapply Hres|].
        apply lookup_lt_Some in Hk. intros <-. by apply Nat.lt_irrefl in Hk.
  - (* MCheck *)
    destruct (err (d s)) eqn:Ee; [|by destruct Herr]. simplify_eq.
    split; [done|]. cbn. split_and!; [done..|].
    intros k paths Hk. apply lookup_app_Some in Hk as [Hk | [_ Hk]].
    + by eapply Hres.
    + by apply list_lookup_singleton_Some in Hk as [_ ?].
  - (* MWait *)
    destruct (calls s !! c) as [call|] eqn:Ecall; [|done]. cbn in H.
    destruct (c_wg call) eqn:Ewg; [|done]. simplify_eq.
    split; [done|]. cbn. split_and!; [done..|].
    intros k paths Hk. apply lookup_app_Some in Hk as [Hk | [Hge Hk]].
    + by eapply Hres.
    + apply list_lookup_singleton_Some in Hk as [Hk _].
      assert (k = length (results s)) as ->
        by (apply Nat.le_antisymm; [by apply Nat.sub_0_le|done]).
      by apply Hwait.
Qed.

(** X14. An error, once stored, spoils every later call: on a [Downloader]
    whose [err] is set, on every schedule, a call of [Download] that returns
    a nil error is a call without URLs. *)
Theorem Download_after_error_needs_empty_batch env (dl : Downloader) (dk : Disk)
    (program : list (list string)) (sched : list Tid) (k : nat) (paths : list string) :
  is_Some (err dl) ->
  results (run env sched (init dl dk program)) !! k = Some (paths, None) ->
  program !! k = Some [].
Proof.
  intros Herr Hk.
  assert (let s := run env sched (init dl dk program) in
          Forall wg_ok (calls s) /\ barrier_inv program s /\ sticky_inv s)
    as (_ & Hbar & (_ & _ & _ & Hres)).
  { apply (run_invariant env
             (fun s => Forall wg_ok (calls s) /\ barrier_inv program s /\ sticky_inv s)).
    - intros s t s' (Hwg & Hb & Hs) H. split_and!.
      + by eapply step_wg_ok.
      + by eapply step_barrier.
      + by eapply step_sticky.
    - split_and!; [by apply Forall_nil|apply (run_barrier env dl dk program [])|].
      by split_and!. }
  destruct Hbar as (bs & Hprog & _ & Hdone & _).
  destruct (Hdone k paths Hk) as (batch & Hb & [Hu _]).
  rewrite (Hres k paths Hk) in Hu. simplify_eq.
  rewrite Hprog. by apply lookup_app_l_Some.
Qed.

Lemma Download_after_error_needs_empty_batch_witness :
  results (run Scenario.server_with_missing [TMain; TMain; TMain]
             (init (failed_downloader Scenario.opts ErrClientDo) Scenario.empty_disk
                [[]; ["http://h/a"%string]])) !! 0%nat = Some ([], None)
  /\ [[]; ["http://h/a"%string]] !! 0%nat = Some [].
Proof.
  split; [vm_compute; reflexivity|].
  apply (Download_after_error_needs_empty_batch Scenario.server_with_missing
           (failed_downloader Scenario.opts ErrClientDo) Scenario.empty_disk
           [[]; ["http://h/a"%string]] [TMain; TMain; TMain] 0 []).
  - by eexists.
  - vm_compute. reflexivity.
Defined.

(** ** The arguments of the goroutines *)

Lemma launch_put_job env (j : nat) call job job' :
  c_jobs call !! j = Some job -> same_job_args job job' ->
  launch_call env call ->
  Forall (job_fields env) (<[j := job']> (c_jobs call))
  /\ Forall (fetch_fields (<[j := job']> (c_jobs call))) (c_fetchers call).
Proof.
  intros Hj (Hu & Hn & Hl) [Hjobs Hfs]. split.
  - apply Forall_insert; [done|].
    destruct (Forall_lookup_1 _ _ _ _ Hjobs Hj) as [Hname Hsize].
    unfold job_fields. by rewrite Hu, Hn, Hl.
  - eapply Forall_impl; [exact Hfs|]. intros f (Hr & job0 & Hj0 & Hurl).
    split; [done|]. destruct (decide (f_job f = j)) as [E | Hne].
    + exists job'. rewrite E in Hj0 |- *.
      rewrite list_lookup_insert_eq by (by eapply lookup_lt_Some).
      split; [done|]. rewrite Hu. congruence.
    + exists job0. by rewrite list_lookup_insert_ne.
Qed.

Lemma launch_put_fetcher (k : nat) jobs fs f pc :
  fs !! k = Some f -> Forall (fetch_fields jobs) fs ->
  Forall (fetch_fields jobs) (<[k := fetcher_at pc f]> fs).
Proof.
  intros Hk Hfs. apply Forall_insert; [done|].
  exact (Forall_lookup_1 _ _ _ _ Hfs Hk).
Qed.

Lemma job_return_launch env (c j : nat) call job job' (s s0 : State) :
  calls s0 = calls s -> launch_inv env s -> calls s !! c = Some call ->
  c_jobs call !! j = Some job -> same_job_args job job' ->
  launch_inv env (job_return c j call job' s0).
Proof.
  intros Hcs Hinv Hc Hj Hargs. unfold job_return.
  destruct (wg_Done (c_wg call)) as [n|]; unfold launch_inv; cbn; rewrite Hcs; [|done].
  apply Forall_insert; [done|].
  apply (launch_put_job env j call job); [done|done|].
  by apply (Forall_lookup_1 _ _ _ _ Hinv Hc).
Qed.

Lemma step_launch env s t s' :
  launch_inv env s -> step env s t = Some s' -> launch_inv env s'.
Proof.
  intros Hinv H. unfold step in H. destruct (crashed s); [done|].
  destruct t as [|c j|c k].
  - unfold step_main in H. destruct (m_pc s) as [|c urls|c rest|c].
    + destruct (pending s) as [|fileUrls rest]; [done|].
      destruct (MaxLimitConcurrency _ <? 0); simplify_eq; [done|].
      unfold launch_inv. cbn. apply Forall_app. split; [done|].
      apply Forall_singleton. by split.
    + destruct urls as [|fileUri rest]; [by simplify_eq|].
      destruct (checkFileSizeWithHeaderContentLength env fileUri) as [e|fileSize] eqn:Hprobe;
        [by simplify_eq|].
      destruct (calls s !! c) as [call|] eqn:Ecall; [|done]. cbn in H. simplify_eq.
      destruct (Forall_lookup_1 _ _ _ _ Hinv Ecall) as [Hjobs Hfs].
      unfold launch_inv. cbn. apply Forall_insert; [done|]. split; cbn.
      * apply Forall_app. split; [done|]. by apply Forall_singleton.
      * eapply Forall_impl; [exact Hfs|]. intros f (Hr & job0 & Hj0 & Hurl).
        split; [done|]. exists job0. split; [|done]. by apply lookup_app_l_Some.
    + destruct (err (d s)); by simplify_eq.
    + destruct (calls s !! c) as [call|] eqn:Ecall; [|done]. cbn in H.
      destruct (c_wg call); by simplify_eq.
  - unfold step_job in H.
    destruct (calls s !! c) as [call|] eqn:Ec; [|done]. cbn in H.
    destruct (c_jobs call !! j) as [job|] eqn:Ej; [|done]. cbn in H.
    pose proof (Forall_lookup_1 _ _ _ _ Hinv Ec) as Hcall.
    assert (forall job' (s0 : State),
              calls s0 = calls s -> same_job_args job job' ->
              launch_inv env (put_call c (put_job j job' call) s0)) as Hput.
    { intros job' s0 Hcs Hargs. unfold launch_inv. cbn. rewrite Hcs.
      apply Forall_insert; [done|]. by apply (launch_put_job env j call job). }
    assert (forall job' (s0 : State),
              calls s0 = calls s -> same_job_args job job' ->
              launch_inv env (job_return c j call job' s0)) as Hret.
    { intros job' s0 Hcs Hargs. by apply (job_return_launch env c j call job job' s). }
    destruct (j_pc job) eqn:Epc.
    + case_match; simplify_eq; [by apply Hret|by apply Hput].
    + case_match; simplify_eq; [by apply Hret|].
      case_match; simplify_eq; [by apply Hput|done].
    + case_match; simplify_eq; [|by apply Hput].
      case_match; simplify_eq; [by apply Hret|by apply Hput].
    + case_match; simplify_eq.
      unfold launch_inv. cbn. apply Forall_insert; [done|].
      destruct (launch_put_job env j call job (job_spawned job) Ej) as [Hjobs Hfs];
        [done|done|].
      split; cbn; [done|]. apply Forall_app. split; [done|].
      apply Forall_singleton. split; cbn.
      * apply request_headers_range, byteRange_of_nonempty.
      * exists (job_spawned job).
        by rewrite list_lookup_insert_eq by (by eapply lookup_lt_Some).
    + case_match; simplify_eq; [by apply Hret|by apply Hput].
    + case_match; simplify_eq. by apply Hput.
    + destruct (combineChunks env (j_fileChunks job) _ (j_outPos job) (disk s))
        as [st r] eqn:Ecomb.
      destruct r as [e|]; simplify_eq; [by apply Hret|by apply Hput].
    + simplify_eq. by apply Hput.
    + simplify_eq. by apply Hret.
    + done.
  - unfold step_fetch in H.
    destruct (calls s !! c) as [call|] eqn:Ec; [|done]. cbn in H.
    destruct (c_fetchers call !! k) as [f|] eqn:Ek; [|done]. cbn in H.
    destruct (Forall_lookup_1 _ _ _ _ Hinv Ec) as [Hjobs Hfs].
    assert (forall pc (s0 : State) call0,
              calls s0 = calls s ->
              c_jobs call0 = c_jobs call -> c_fetchers call0 = c_fetchers call ->
              launch_inv env (put_call c (put_fetcher k (fetcher_at pc f) call0) s0)) as Hput.
    { intros pc s0 call0 Hcs Hjs0 Hfs0. unfold launch_inv. cbn. rewrite Hcs.
      apply Forall_insert; [done|]. split; cbn; rewrite Hjs0, ?Hfs0; [done|].
      by apply launch_put_fetcher. }
    assert (forall (s0 : State) call0,
              calls s0 = calls s ->
              c_jobs call0 = c_jobs call -> c_fetchers call0 = c_fetchers call ->
              launch_inv env (fetch_return c k call0 f s0)) as Hret.
    { intros s0 call0 Hcs Hjs Hfs0. unfold fetch_return. rewrite Hjs.
      destruct (c_jobs call !! f_job f) as [job|] eqn:Ej;
        [|unfold launch_inv; cbn; by rewrite Hcs].
      destruct (wg_Done (j_wg1 job)) as [n|];
        [|unfold launch_inv; cbn; by rewrite Hcs].
      unfold launch_inv. cbn. rewrite Hcs.
      apply Forall_insert; [done|].
      destruct (launch_put_job env (f_job f) call job (job_wg1 n job) Ej) as [Hjobs' Hfs'];
        [done|done|].
      split; cbn; rewrite Hjs, ?Hfs0; [done|]. by apply launch_put_fetcher. }
    destruct (f_pc f) eqn:Epc.
    + repeat case_match; simplify_eq; try (by apply Hret); by apply Hput.
    + repeat case_match; simplify_eq; by apply Hput.
    + case_match; simplify_eq. by apply Hput.
    + simplify_eq. by apply Hput.
    + simplify_eq. by apply Hret.
    + done.
Qed.

Lemma run_launch env (dl : Downloader) (dk : Disk) (program : list (list string))
    (sched : list Tid) :
  launch_inv env (run env sched (init dl dk program)).
Proof.
  apply run_invariant; [intros; by eapply step_launch|]. by apply Forall_nil.
Qed.

(** X15. [downloadLargeFile] always runs with the arguments that [Download]
    computed for its URL: on every schedule, the file name of a job is the
    last segment of its URL, and its content length is the size that the
    probe of that URL reports. *)
Theorem job_runs_with_probed_size env (dl : Downloader) (dk : Disk)
    (program : list (list string)) (sched : list Tid) (c j : nat) call job :
  calls (run env sched (init dl dk program)) !! c = Some call ->
  c_jobs call !! j = Some job ->
  job_fields env job.
Proof.
  intros Hc Hj.
  destruct (Forall_lookup_1 _ _ _ _ (run_launch env dl dk program sched) Hc) as [Hjobs _].
  exact (Forall_lookup_1 _ _ _ _ Hjobs Hj).
Qed.

Lemma job_runs_with_probed_size_witness :
  let s := run Scenario.sizes_site Scenario.sizes_schedule
             (Scenario.one_call ["http://h/small"; "http://h/big"]%string) in
  exists call job,
    calls s !! 0%nat = Some call /\ c_jobs call !! 1%nat = Some job
    /\ j_url job = "http://h/big"%string /\ job_fields Scenario.sizes_site job.
Proof.
  cbv zeta. eexists _, _. split; [vm_compute; reflexivity|].
  split; [vm_compute; reflexivity|]. split; [vm_compute; reflexivity|].
  eapply (job_runs_with_probed_size Scenario.sizes_site
            (NewDownloader Scenario.opts) Scenario.empty_disk
            [["http://h/small"; "http://h/big"]%string] Scenario.sizes_schedule 0 1).
  - vm_compute. reflexivity.
  - vm_compute. reflexivity.
Defined.

(** X16. Every range fetch asks for the file of the job that launched it,
    and never for the whole file: on every schedule, a fetch carries the URL
    of its job, and its request has a [Range] header. *)
Theorem fetch_requests_a_range_of_its_job env (dl : Downloader) (dk : Disk)
    (program : list (list string)) (sched : list Tid) (c k : nat) call f :
  calls (run env sched (init dl dk program)) !! c = Some call ->
  c_fetchers call !! k = Some f ->
  fetch_fields (c_jobs call) f.
Proof.
  intros Hc Hk.
  destruct (Forall_lookup_1 _ _ _ _ (run_launch env dl dk program sched) Hc) as [_ Hfs].
  exact (Forall_lookup_1 _ _ _ _ Hfs Hk).
Qed.

Lemma fetch_requests_a_range_of_its_job_witness :
  let s := run Scenario.sizes_site Scenario.sizes_schedule
             (Scenario.one_call ["http://h/small"; "http://h/big"]%string) in
  exists call f,
    calls s !! 0%nat = Some call /\ c_fetchers call !! 2%nat = Some f
    /\ f_job f = 1%nat /\ fetch_fields (c_jobs call) f.
Proof.
  cbv zeta. eexists _, _. split; [vm_compute; reflexivity|].
  split; [vm_compute; reflexivity|]. split; [vm_compute; reflexivity|].
  eapply (fetch_requests_a_range_of_its_job Scenario.sizes_site
            (NewDownloader Scenario.opts) Scenario.empty_disk
            [["http://h/small"; "http://h/big"]%string] Scenario.sizes_schedule 0 2).
  - vm_compute. reflexivity.
  - vm_compute. reflexivity.
Defined.

(** ** The fetch of a small file *)

Lemma planned_ranges_small (L P : Z) :
  0 <= L -> L <= threshold -> planned_ranges L P = Some [(0, L - 1)].
Proof.
  intros HL0 HL. unfold planned_ranges.
  rewrite planning_small by done. cbn [fmap option_fmap option_map]. f_equal.
  rewrite chunk_ranges_map by (cbn; unfold GoInt.max_int; lia).
  cbn [numConcParts]. change (seqZ 0 1) with [0]. cbn [fmap list_fmap].
  by rewrite small_chunk_bounds.
Qed.

Lemma requests_of_elem (j k : nat) (fs : list Fetcher) f :
  fs !! k = Some f -> f_job f = j -> f_byteRange f ∈ requests_of j fs.
Proof.
  intros Hk Hj. unfold requests_of. apply list_elem_of_fmap.
  exists f. split; [done|]. apply list_elem_of_filter. split; [done|].
  by eapply list_elem_of_lookup_2.
Qed.

(** C9 (as amended). On every schedule, a job for a file of [L] bytes,
    [0 <= L <= 10 MiB], launches a single fetch, with the byte range
    ["0-<L-1>"]: the argument that [downloadLargeFile] passes is not empty,
    and the exchange of that fetch carries the header
    [Range: bytes=0-<L-1>]. The fetcher leaves the header out exactly when
    it is handed an empty byte range. [NumConcParts] is a Go [int]. *)
Theorem C9_small_file_request env (dl : Downloader) (dk : Disk)
    (program : list (list string)) (sched : list Tid) (c j : nat) call job :
  NumConcParts (downloadOptions dl) <= GoInt.max_int ->
  calls (run env sched (init dl dk program)) !! c = Some call ->
  c_jobs call !! j = Some job ->
  0 <= j_contentLength job -> j_contentLength job <= threshold ->
  small_file_fetch env (run env sched (init dl dk program)) c j call job.
Proof.
  intros HP Hc Hj HL0 HL. set (s := run env sched (init dl dk program)) in *.
  assert (requests_follow_plan (NumConcParts (downloadOptions dl))
            (job_requests call j) job) as Hfollow.
  { apply req_inv_follow; [done|].
    pose proof (run_plan env dl dk program sched HP) as Hinv.
    pose proof (call_req_lookup _ c j call job Hinv Hc Hj) as H.
    by rewrite run_options in H. }
  unfold requests_follow_plan in Hfollow.
  rewrite planned_ranges_small in Hfollow by done.
  change (byteRange_of <$> [(0, j_contentLength job - 1)])
    with ["0-" +:+ Itoa (j_contentLength job - 1)] in Hfollow.
  destruct Hfollow as [Hpre Hall].
  unfold small_file_fetch. cbv zeta. split_and!; [done|done| |apply request_headers_nil].
  intros k f Hk Hfj.
  destruct (Forall_lookup_1 _ _ _ _ (run_launch env dl dk program sched) Hc)
    as [_ Hfs].
  destruct (Forall_lookup_1 _ _ _ _ Hfs Hk) as (_ & job' & Hj' & Hurl).
  rewrite Hfj, Hj in Hj'. simplify_eq.
  assert (f_byteRange f = "0-" +:+ Itoa (j_contentLength job' - 1)) as Hrange.
  { pose proof (requests_of_elem (f_job f) k _ f Hk eq_refl) as Hin.
    fold (job_requests call (f_job f)) in Hin.
    destruct Hpre as [rest Hrest].
    assert (f_byteRange f ∈ job_requests call (f_job f) ++ rest) as Hin'
      by (apply elem_of_app; by left).
    rewrite <- Hrest in Hin'. by apply list_elem_of_singleton in Hin'. }
  split_and!; [done..|].
  intros Hpc Hnr. unfold fetch_exchanges, step_fetch.
  rewrite Hc. cbn. rewrite Hk. cbn. rewrite Hpc, Hnr, Hrange, Hurl.
  by destruct (client_Do _ _ _).
Qed.

Lemma C9_small_file_request_witness :
  let env := Scenario.server "3000000" 206 [] in
  let s := run env [TMain; TMain; TJob 0 0; TJob 0 0; TJob 0 0; TJob 0 0]
             (Scenario.one_call ["http://h/f"%string]) in
  exists call job,
    calls s !! 0%nat = Some call /\ c_jobs call !! 0%nat = Some job
    /\ j_contentLength job = 3000000
    /\ small_file_fetch env s 0 0 call job.
Proof.
  cbv zeta. eexists _, _. split; [vm_compute; reflexivity|].
  split; [vm_compute; reflexivity|]. split; [vm_compute; reflexivity|].
  eapply (C9_small_file_request (Scenario.server "3000000" 206 [])
            (NewDownloader Scenario.opts) Scenario.empty_disk
            [["http://h/f"%string]]
            [TMain; TMain; TJob 0 0; TJob 0 0; TJob 0 0; TJob 0 0] 0 0).
  - vm_compute. discriminate.
  - vm_compute. reflexivity.
  - vm_compute. reflexivity.
  - vm_compute. discriminate.
  - vm_compute. discriminate.
Defined.

(** ** [downloadLargeFile]: the barrier of [wg1.Wait()] *)

Lemma step_wait env s t s' :
  wait_inv s -> step env s t = Some s' -> wait_inv s'.
Proof.
  intros Hinv H. unfold step in H. destruct (crashed s); [done|].
  destruct t as [|c j|c k].
  - crack_step H; try done; unfold wait_inv; cbn.
    + apply Forall_app. split; [done|]. by apply Forall_singleton.
    + apply Forall_insert; [done|]. cbn. apply Forall_app. split.
      * by eapply (Forall_lookup_1 _ _ _ _ Hinv).
      * by apply Forall_singleton.
  - unfold step_job in H.
    destruct (calls s !! c) as [call|] eqn:Ec; [|done]. cbn in H.
    destruct (c_jobs call !! j) as [job|] eqn:Ej; [|done]. cbn in H.
    pose proof (Forall_lookup_1 _ _ _ _ Hinv Ec) as Hcall.
    pose proof (Forall_lookup_1 _ _ _ _ Hcall Ej) as Hjob.
    assert (forall job' call0 (s0 : State),
              calls s0 = calls s -> c_jobs call0 = c_jobs call -> wait_ok job' ->
              wait_inv (put_call c (put_job j job' call0) s0)) as Hput.
    { intros job' call0 s0 Hcs Hjs Hjob'. unfold wait_inv. cbn. rewrite Hcs.
      apply Forall_insert; [done|]. cbn. rewrite Hjs. by apply Forall_insert. }
    assert (forall job' (s0 : State),
              calls s0 = calls s -> wait_inv (job_return c j call job' s0)) as Hret.
    { intros job' s0 Hcs. unfold job_return.
      destruct (wg_Done (c_wg call)) as [n|]; [|unfold wait_inv; cbn; by rewrite Hcs].
      apply (Hput _ _ (set_disk _ s0)); done. }
    unfold wait_ok in Hjob.
    destruct (j_pc job) eqn:Epc.
    + case_match; simplify_eq; [by apply Hret|by apply Hput].
    + case_match; simplify_eq; [by apply Hret|].
      case_match; simplify_eq; [by apply Hput|done].
    + case_match; simplify_eq; [|by apply Hput].
      case_match; simplify_eq; [by apply Hret|by apply Hput].
    + case_match; simplify_eq.
      unfold wait_inv. cbn. apply Forall_insert; [done|]. cbn.
      by apply Forall_insert.
    + case_match; simplify_eq; [by apply Hret|by apply Hput].
    + case_match; simplify_eq. apply Hput; [done|done|]. by intros _.
    + destruct (combineChunks env (j_fileChunks job) _ (j_outPos job) (disk s))
        as [st r] eqn:Ecomb.
      destruct r as [e|]; simplify_eq; [by apply Hret|].
      apply Hput; [done|done|]. intros _. by apply Hjob.
    + simplify_eq. apply Hput; [done|done|]. intros _. by apply Hjob.
    + simplify_eq. by apply Hret.
    + done.
  - unfold step_fetch in H.
    destruct (calls s !! c) as [call|] eqn:Ec; [|done]. cbn in H.
    destruct (c_fetchers call !! k) as [f|] eqn:Ek; [|done]. cbn in H.
    pose proof (Forall_lookup_1 _ _ _ _ Hinv Ec) as Hcall.
    assert (forall call0 (s0 : State),
              calls s0 = calls s -> c_jobs call0 = c_jobs call ->
              wait_inv (put_call c call0 s0)) as Hput.
    { intros call0 s0 Hcs Hjs. unfold wait_inv. cbn. rewrite Hcs.
      apply Forall_insert; [done|]. by rewrite Hjs. }
    assert (forall (s0 : State) call0,
              calls s0 = calls s -> c_jobs call0 = c_jobs call ->
              wait_inv (fetch_return c k call0 f s0)) as Hret.
    { intros s0 call0 Hcs Hjs. unfold fetch_return. rewrite Hjs.
      destruct (c_jobs call !! f_job f) as [job|] eqn:Ej;
        [|unfold wait_inv; cbn; by rewrite Hcs].
      destruct (wg_Done (j_wg1 job)) as [n|] eqn:Ewg;
        [|unfold wait_inv; cbn; by rewrite Hcs].
      unfold wait_inv. cbn. rewrite Hcs.
      apply Forall_insert; [done|]. cbn. rewrite Hjs. apply Forall_insert; [done|].
      pose proof (Forall_lookup_1 _ _ _ _ Hcall Ej) as Hjob.
      intros Hpast. cbn in Hpast. rewrite (Hjob Hpast) in Ewg. done. }
    destruct (f_pc f) eqn:Epc.
    + repeat case_match; simplify_eq; try (by apply Hret); by apply Hput.
    + repeat case_match; simplify_eq; by apply Hput.
    + case_match; simplify_eq. by apply Hput.
    + simplify_eq. by apply Hput.
    + simplify_eq. by apply Hret.
    + done.
Qed.

(** X17. [wg1.Wait()] is a barrier for the fetches: on every schedule, a
    job that is past it (about to combine the chunks, or to append its
    path) has seen every range fetch that it launched return. *)
Theorem combine_after_fetches_returned env (dl : Downloader) (dk : Disk)
    (program : list (list string)) (sched : list Tid) (c j : nat) call job :
  calls (run env sched (init dl dk program)) !! c = Some call ->
  c_jobs call !! j = Some job ->
  past_wait (j_pc job) = true ->
  fetches_returned call j.
Proof.
  intros Hc Hj Hpast k f Hk Hf.
  assert (wait_inv (run env sched (init dl dk program))) as Hinv.
  { apply run_invariant; [intros; by eapply step_wait|]. by apply Forall_nil. }
  pose proof (Forall_lookup_1 _ _ _ _ (Forall_lookup_1 _ _ _ _ Hinv Hc) Hj Hpast) as Hwg1.
  destruct (Forall_lookup_1 _ _ _ _ (run_wg_ok env sched dl dk program) Hc)
    as (_ & _ & Hcount).
  specialize (Hcount j job Hj). rewrite Hwg1 in Hcount.
  assert (fetch_of j f = false) as Hof.
  { eapply count_if_zero; [|exact Hk]. lia. }
  unfold fetch_of in Hof. rewrite Hf, Nat.eqb_refl in Hof. cbn in Hof.
  unfold fetch_active in Hof. by destruct (f_pc f).
Qed.

Lemma combine_after_fetches_returned_witness :
  let s := run Scenario.server_with_missing
             ([TMain; TMain; TMain; TMain] ++ Scenario.job_to_wait 0 0
                ++ Scenario.fetch_to_end 0 0 ++ [TJob 0 0])
             (Scenario.one_call ["http://h/a"%string]) in
  exists call job,
    calls s !! 0%nat = Some call /\ c_jobs call !! 0%nat = Some job
    /\ j_pc job = JCombine /\ length (c_fetchers call) = 1%nat
    /\ fetches_returned call 0.
Proof.
  cbv zeta. eexists _, _. split; [vm_compute; reflexivity|].
  split; [vm_compute; reflexivity|]. split; [vm_compute; reflexivity|].
  split; [vm_compute; reflexivity|].
  eapply (combine_after_fetches_returned Scenario.server_with_missing
            (NewDownloader Scenario.opts) Scenario.empty_disk
            [["http://h/a"%string]]
            ([TMain; TMain; TMain; TMain] ++ Scenario.job_to_wait 0 0
               ++ Scenario.fetch_to_end 0 0 ++ [TJob 0 0]) 0 0).
  - vm_compute. reflexivity.
  - vm_compute. reflexivity.
  - vm_compute. reflexivity.
Defined.

(** ** A concurrency ceiling of zero *)

Lemma step_no_fetch env s t s' :
  MaxLimitConcurrency (downloadOptions (d s)) <= 0 ->
  no_fetch s -> step env s t = Some s' -> no_fetch s'.
Proof.
  unfold no_fetch, step. intros Hcap Hinv H.
  destruct (crashed s); [done|]. destruct t.
  - crack_step H; cbn; try done.
    + apply Forall_app. split; [done|]. by apply Forall_singleton.
    + apply Forall_insert; [done|]. cbn. by eapply (Forall_lookup_1 _ _ _ _ Hinv).
  - crack_step H.
    all: unfold job_return; repeat case_match; cbn; try done.
    all: try (apply Forall_insert; [done|]; cbn; by eapply (Forall_lookup_1 _ _ _ _ Hinv)).
    lia.
  - unfold step_fetch in H.
    destruct (calls s !! c) as [call|] eqn:Ec; [|done]. cbn in H.
    pose proof (Forall_lookup_1 _ _ _ _ Hinv Ec) as Hcall. cbn in Hcall.
    by rewrite Hcall in H.
Qed.

(** X18. With [MaxLimitConcurrency] zero nothing is ever fetched: the
    channel of permits has no room, so on every schedule every job stays
    before its first send and no call launches a range fetch. *)
Theorem zero_ceiling_launches_no_fetch env (dl : Downloader) (dk : Disk)
    (program : list (list string)) (sched : list Tid) :
  MaxLimitConcurrency (downloadOptions dl) <= 0 ->
  no_fetch (run env sched (init dl dk program)).
Proof.
  intros Hcap.
  assert (let s := run env sched (init dl dk program) in
          MaxLimitConcurrency (downloadOptions (d s)) <= 0 /\ no_fetch s) as [_ H];
    [|done].
  apply (run_invariant env
           (fun s => MaxLimitConcurrency (downloadOptions (d s)) <= 0 /\ no_fetch s)).
  - intros s t s' [Hc Hn] H. split.
    + by rewrite (step_options _ _ _ _ H).
    + by eapply step_no_fetch.
  - split; [done|by apply Forall_nil].
Qed.

Lemma zero_ceiling_launches_no_fetch_witness :
  no_fetch (run Scenario.server_with_missing
              ([TMain; TMain; TMain; TMain] ++ Scenario.job_to_wait 0 0)
              (init (NewDownloader {| DownloadDir := "d"; NumConcParts := 4;
                                      MaxLimitConcurrency := 0 |})
                 Scenario.empty_disk [["http://h/a"%string]])).
Proof.
  apply (zero_ceiling_launches_no_fetch Scenario.server_with_missing
           (NewDownloader {| DownloadDir := "d"; NumConcParts := 4;
                             MaxLimitConcurrency := 0 |})
           Scenario.empty_disk [["http://h/a"%string]]
           ([TMain; TMain; TMain; TMain] ++ Scenario.job_to_wait 0 0)).
  cbn. lia.
Defined.

(** ** Part files: one holder each *)

Lemma sum_with_insert {A} (g : A -> nat) (l : list A) (k : nat) x y :
  l !! k = Some x ->
  (sum_list_with g (<[k := y]> l) + g x = sum_list_with g l + g y)%nat.
Proof.
  revert k. induction l as [|a l IH]; intros k Hk; [done|].
  destruct k as [|k]; cbn in Hk.
  - simplify_eq. change (<[0%nat := y]> (x :: l)) with (y :: l). cbn. lia.
  - change (<[S k := y]> (a :: l)) with (a :: <[k := y]> l). cbn.
    specialize (IH k Hk). lia.
Qed.

Lemma sum_with_lookup {A} (g : A -> nat) (l : list A) (k : nat) x :
  l !! k = Some x -> (g x <= sum_list_with g l)%nat.
Proof.
  revert k. induction l as [|a l IH]; intros k Hk; [done|].
  destruct k as [|k]; cbn in Hk; cbn.
  - simplify_eq. lia.
  - specialize (IH k Hk). lia.
Qed.

Lemma sum_with_two {A} (g : A -> nat) (l : list A) (k1 k2 : nat) x1 x2 :
  k1 <> k2 -> l !! k1 = Some x1 -> l !! k2 = Some x2 ->
  (g x1 + g x2 <= sum_list_with g l)%nat.
Proof.
  revert k1 k2. induction l as [|a l IH]; intros k1 k2 Hne H1 H2; [done|].
  destruct k1 as [|k1], k2 as [|k2]; cbn in H1, H2; cbn; simplify_eq.
  - pose proof (sum_with_lookup g l k2 x2 H2). lia.
  - pose proof (sum_with_lookup g l k1 x1 H1). lia.
  - assert (k1 <> k2) as Hne' by congruence.
    specialize (IH k1 k2 Hne' H1 H2). lia.
Qed.

Lemma count_if_sum {A} (P : A -> bool) (l : list A) :
  count_if P l = sum_list_with (fun x => if P x then 1%nat else 0%nat) l.
Proof.
  unfold count_if. induction l as [|a l IH]; [done|].
  rewrite filter_cons. cbn. destruct (P a); case_decide; try done; cbn; lia.
Qed.

Lemma count_if_two {A} (P : A -> bool) (l : list A) (k1 k2 : nat) x1 x2 :
  k1 <> k2 -> l !! k1 = Some x1 -> l !! k2 = Some x2 ->
  P x1 = true -> P x2 = true -> (2 <= count_if P l)%nat.
Proof.
  intros Hne H1 H2 P1 P2. rewrite count_if_sum.
  pose proof (sum_with_two (fun x => if P x then 1%nat else 0%nat) l k1 k2 x1 x2
                Hne H1 H2) as H.
  cbn in H. by rewrite P1, P2 in H.
Qed.

(** How a step changes the holders of [h] in a call. *)
Lemma holders_put_job (h j : nat) call job job' :
  c_jobs call !! j = Some job ->
  (holders_in h (put_job j job' call) + (if job_holds h job then 1 else 0)
   = holders_in h call + (if job_holds h job' then 1 else 0))%nat.
Proof.
  intros Hj. unfold holders_in, put_job. cbn.
  pose proof (count_if_insert (job_holds h) _ _ _ job' Hj). lia.
Qed.

Lemma holders_put_fetcher (h k : nat) call f pc :
  c_fetchers call !! k = Some f ->
  holders_in h (put_fetcher k (fetcher_at pc f) call) = holders_in h call.
Proof.
  intros Hk. unfold holders_in, put_fetcher. cbn.
  pose proof (count_if_insert (fetch_holds h) _ _ _ (fetcher_at pc f) Hk) as H.
  change (fetch_holds h (fetcher_at pc f)) with (fetch_holds h f) in H.
  destruct (fetch_holds h f); lia.
Qed.

Lemma holders_put_call (h c : nat) call call' (s s0 : State) :
  calls s0 = calls s -> calls s !! c = Some call ->
  (holders h (put_call c call' s0) + holders_in h call
   = holders h s + holders_in h call')%nat.
Proof.
  intros Hcs Hc. unfold holders. cbn. rewrite Hcs. by apply sum_with_insert.
Qed.

Lemma step_temps_length env s t s' :
  step env s t = Some s' ->
  (length (temps (disk s)) <= length (temps (disk s')))%nat.
Proof.
  unfold step. intros H. destruct (crashed s); [done|]. destruct t.
  - by apply step_main_frame in H as (_ & _ & _ & ->).
  - crack_step H.
    all: unfold job_return; repeat case_match; cbn -[run_deferred]; try done.
    all: rewrite ?run_deferred_length, ?length_app; cbn; try lia.
    all: match goal with
         | Hc : combineChunks ?e ?m ?pa ?o ?dk = (?st, _) |- _ =>
             pose proof (combine_loop_extend e m pa (size m) 0
                           {| cb_disk := dk; cb_outPos := o; cb_w := 0 |}) as [Hl _];
             unfold combineChunks in Hc; rewrite Hc in Hl; cbn in Hl
         end; lia.
  - crack_step H.
    all: unfold fetch_return; repeat case_match; cbn; try done.
    all: by rewrite length_insert.
Qed.

(** A step adds a holder only for the part file that it creates. *)
Lemma step_holders env s t s' (h : nat) :
  step env s t = Some s' ->
  (holders h s' <= holders h s)%nat
  \/ (h = length (temps (disk s))
      /\ holders h s' = S (holders h s)
      /\ length (temps (disk s')) = S (length (temps (disk s)))).
Proof.
  intros H. unfold step in H. destruct (crashed s); [done|].
  destruct t as [|c j|c k].
  - left. unfold step_main in H. destruct (m_pc s) as [|c urls|c rest|c].
    + destruct (pending s) as [|fileUrls rest]; [done|].
      destruct (MaxLimitConcurrency _ <? 0); simplify_eq; [done|].
      unfold holders. cbn. rewrite sum_list_with_app. cbn.
      unfold holders_in. cbn. unfold count_if. cbn. lia.
    + destruct urls as [|fileUri rest]; [by simplify_eq|].
      destruct (checkFileSizeWithHeaderContentLength env fileUri) as [e|fileSize];
        [by simplify_eq|].
      destruct (calls s !! c) as [call|] eqn:Ecall; [|done]. cbn in H. simplify_eq.
      match goal with |- (holders h (set_main _ (put_call c ?call' s)) <= _)%nat =>
        pose proof (holders_put_call h c call call' s s eq_refl Ecall) as Hp;
        assert (holders_in h call' = holders_in h call) as Hw end.
      { unfold holders_in. cbn. rewrite count_if_snoc. cbn. lia. }
      change (holders h (set_main ?pc ?s0)) with (holders h s0). lia.
    + destruct (err (d s)); by simplify_eq.
    + destruct (calls s !! c) as [call|] eqn:Ecall; [|done]. cbn in H.
      destruct (c_wg call); by simplify_eq.
  - unfold step_job in H.
    destruct (calls s !! c) as [call|] eqn:Ec; [|done]. cbn in H.
    destruct (c_jobs call !! j) as [job|] eqn:Ej; [|done]. cbn in H.
    assert (forall job' call0 (s0 : State),
              calls s0 = calls s -> c_jobs call0 = c_jobs call ->
              c_fetchers call0 = c_fetchers call -> job_holds h job' = false ->
              (holders h (put_call c (put_job j job' call0) s0) <= holders h s)%nat)
      as Hput.
    { intros job' call0 s0 Hcs Hjs Hfs Hj'.
      pose proof (holders_put_call h c call (put_job j job' call0) s s0 Hcs Ec) as Hp.
      assert (holders_in h (put_job j job' call0) = holders_in h (put_job j job' call))
        as Hw by (unfold holders_in, put_job; cbn; by rewrite Hjs, Hfs).
      pose proof (holders_put_job h j call job job' Ej) as Hq.
      rewrite Hj' in Hq. lia. }
    assert (forall job' (s0 : State),
              calls s0 = calls s ->
              (holders h (job_return c j call job' s0) <= holders h s)%nat) as Hret.
    { intros job' s0 Hcs. unfold job_return.
      destruct (wg_Done (c_wg call)) as [n|]; [|unfold holders; cbn; by rewrite Hcs].
      by apply (Hput _ _ (set_disk _ s0)). }
    destruct (j_pc job) eqn:Epc.
    + left. case_match; simplify_eq; [by apply Hret|by apply Hput].
    + left. case_match; simplify_eq; [by apply Hret|].
      case_match; simplify_eq; [by apply (Hput _ _ (set_disk _ s))|done].
    + case_match; simplify_eq; [|left; by apply Hput].
      case_match; simplify_eq; [left; by apply Hret|].
      match goal with |- context [put_job j ?job' call] =>
        pose proof (holders_put_call h c call (put_job j job' call) s s eq_refl Ec) as Hp;
        pose proof (holders_put_job h j call job job' Ej) as Hq end.
      unfold job_holds in Hq at 1. rewrite Epc in Hq.
      unfold job_holds in Hq. cbn in Hq.
      change (holders h (put_call c ?call' (set_disk ?dk s)))
        with (holders h (put_call c call' s)).
      destruct (Nat.eqb_spec (length (temps (disk s))) h) as [<- | Hne].
      * right. split; [done|]. split; [lia|]. cbn. rewrite length_app. cbn. lia.
      * left. lia.
    + left. case_match; simplify_eq.
      match goal with |- (holders h (put_call c ?call' s) <= _)%nat =>
        pose proof (holders_put_call h c call call' s s eq_refl Ec) as Hp;
        assert (holders_in h call' = holders_in h call) as Hw end.
      { unfold holders_in. cbn. rewrite count_if_snoc.
        pose proof (count_if_insert (job_holds h) _ _ _ (job_spawned job) Ej) as Hq.
        unfold job_holds in Hq at 2. rewrite Epc in Hq.
        change (job_holds h (job_spawned job)) with false in Hq.
        unfold fetch_holds at 2. cbn.
        destruct (f =? h)%nat; lia. }
      lia.
    + left. case_match; simplify_eq; [by apply Hret|by apply Hput].
    + left. case_match; simplify_eq. by apply Hput.
    + left.
      destruct (combineChunks env (j_fileChunks job) _ (j_outPos job) (disk s))
        as [st r] eqn:Ecomb.
      destruct r as [e|]; simplify_eq; [by apply Hret|].
      by apply (Hput _ _ (set_disk _ s)).
    + left. simplify_eq. by apply Hput.
    + left. simplify_eq. by apply Hret.
    + done.
  - left. unfold step_fetch in H.
    destruct (calls s !! c) as [call|] eqn:Ec; [|done]. cbn in H.
    destruct (c_fetchers call !! k) as [f|] eqn:Ek; [|done]. cbn in H.
    assert (forall pc (s0 : State) call0,
              calls s0 = calls s ->
              c_jobs call0 = c_jobs call -> c_fetchers call0 = c_fetchers call ->
              (holders h (put_call c (put_fetcher k (fetcher_at pc f) call0) s0)
               <= holders h s)%nat) as Hput.
    { intros pc s0 call0 Hcs Hjs0 Hfs0.
      pose proof (holders_put_call h c call (put_fetcher k (fetcher_at pc f) call0) s s0
                    Hcs Ec) as Hp.
      assert (holders_in h (put_fetcher k (fetcher_at pc f) call0)
              = holders_in h (put_fetcher k (fetcher_at pc f) call)) as Hw
        by (unfold holders_in, put_fetcher; cbn; by rewrite Hjs0, Hfs0).
      rewrite Hw, (holders_put_fetcher h k call f pc Ek) in Hp. lia. }
    assert (forall (s0 : State) call0,
              calls s0 = calls s ->
              c_jobs call0 = c_jobs call -> c_fetchers call0 = c_fetchers call ->
              (holders h (fetch_return c k call0 f s0) <= holders h s)%nat) as Hret.
    { intros s0 call0 Hcs Hjs Hfs0. unfold fetch_return. rewrite Hjs.
      destruct (c_jobs call !! f_job f) as [job|] eqn:Ej;
        [|unfold holders; cbn; by rewrite Hcs].
      destruct (wg_Done (j_wg1 job)) as [n|];
        [|unfold holders; cbn; by rewrite Hcs].
      match goal with |- (holders h (put_call c ?call' s0) <= _)%nat =>
        pose proof (holders_put_call h c call call' s s0 Hcs Ec) as Hp;
        assert (holders_in h call' = holders_in h call) as Hw end.
      { unfold holders_in, put_fetcher, put_job. cbn. rewrite Hjs, Hfs0.
        pose proof (count_if_insert (fetch_holds h) _ _ _ (fetcher_at FReturned f) Ek) as H1.
        change (fetch_holds h (fetcher_at FReturned f)) with (fetch_holds h f) in H1.
        pose proof (count_if_insert (job_holds h) _ _ _ (job_wg1 n job) Ej) as H2.
        change (job_holds h (job_wg1 n job)) with (job_holds h job) in H2.
        destruct (fetch_holds h f), (job_holds h job); lia. }
      lia. }
    destruct (f_pc f) eqn:Epc.
    + repeat case_match; simplify_eq; try (by apply Hret); by apply Hput.
    + repeat case_match; simplify_eq; by apply (Hput _ (set_err _ _)) || by apply Hput.
    + case_match; simplify_eq. by apply Hput.
    + simplify_eq. by apply Hput.
    + simplify_eq. by apply Hret.
    + done.
Qed.

Lemma step_own env s t s' : own_inv s -> step env s t = Some s' -> own_inv s'.
Proof.
  intros Hinv H h. specialize (Hinv h).
  pose proof (step_temps_length _ _ _ _ H) as Hlen.
  destruct (step_holders env s t s' h H) as [Hle | (-> & Heq & Hlen')].
  - repeat case_bool_decide; lia.
  - rewrite Hlen'. repeat case_bool_decide; lia.
Qed.

Lemma run_own env (dl : Downloader) (dk : Disk) (program : list (list string))
    (sched : list Tid) :
  own_inv (run env sched (init dl dk program)).
Proof.
  apply run_invariant; [intros; by eapply step_own|].
  intros h. unfold holders. cbn. case_bool_decide; lia.
Qed.

Lemma the_fetcher_Some (s : State) (c k : nat) f :
  the_fetcher s c k = Some f ->
  exists call, calls s !! c = Some call /\ c_fetchers call !! k = Some f.
Proof.
  unfold the_fetcher. intros H. destruct (calls s !! c) as [call|]; [|done].
  by exists call.
Qed.

Lemma fetcher_holds_one (h k : nat) call f :
  c_fetchers call !! k = Some f -> f_file f = h -> (1 <= holders_in h call)%nat.
Proof.
  intros Hk Hf. unfold holders_in.
  pose proof (count_if_pos (fetch_holds h) _ k f Hk) as H.
  unfold fetch_holds in H at 1. rewrite Hf, Nat.eqb_refl in H.
  specialize (H eq_refl). lia.
Qed.


Lemma own_fetcher_exists (s : State) (c k : nat) call f :
  own_inv s -> calls s !! c = Some call -> c_fetchers call !! k = Some f ->
  (f_file f < length (temps (disk s)))%nat.
Proof.
  intros Hinv Hc Hk. specialize (Hinv (f_file f)).
  pose proof (fetcher_holds_one (f_file f) k call f Hk eq_refl) as H1.
  pose proof (sum_with_lookup (holders_in (f_file f)) _ c call Hc) as H2.
  unfold holders in Hinv. case_bool_decide; [done|lia].
Qed.

Lemma own_fetchers_distinct (s : State) (c1 k1 c2 k2 : nat) call1 call2 f1 f2 :
  own_inv s ->
  calls s !! c1 = Some call1 -> c_fetchers call1 !! k1 = Some f1 ->
  calls s !! c2 = Some call2 -> c_fetchers call2 !! k2 = Some f2 ->
  f_file f1 = f_file f2 -> c1 = c2 /\ k1 = k2.
Proof.
  intros Hinv Hc1 Hk1 Hc2 Hk2 Hf. specialize (Hinv (f_file f1)).
  assert (holders (f_file f1) s <= 1)%nat as Hle by (case_bool_decide; lia).
  pose proof (fetcher_holds_one (f_file f1) k1 call1 f1 Hk1 eq_refl) as H1.
  pose proof (fetcher_holds_one (f_file f1) k2 call2 f2 Hk2 (eq_sym Hf)) as H2.
  destruct (decide (c1 = c2)) as [-> | Hne].
  - split; [done|]. simplify_eq.
    destruct (decide (k1 = k2)) as [-> | Hnk]; [done|].
    pose proof (count_if_two (fetch_holds (f_file f1)) _ k1 k2 f1 f2 Hnk Hk1 Hk2) as H.
    unfold fetch_holds in H at 1 2. rewrite <- Hf, Nat.eqb_refl in H.
    specialize (H eq_refl eq_refl).
    pose proof (sum_with_lookup (holders_in (f_file f1)) _ c2 call1 Hc1) as H3.
    unfold holders in Hle. unfold holders_in in H3 at 1. lia.
  - pose proof (sum_with_two (holders_in (f_file f1)) _ c1 c2 call1 call2 Hne Hc1 Hc2).
    unfold holders in Hle. lia.
Qed.


(** X19. No two range fetches share a part file: on every schedule, every
    fetch, in whatever call, has been handed a part file that exists and
    that no other fetch has been handed. *)
Theorem fetches_have_own_part_files env (dl : Downloader) (dk : Disk)
    (program : list (list string)) (sched : list Tid) :
  exclusive_part_files (run env sched (init dl dk program)).
Proof.
  pose proof (run_own env dl dk program sched) as Hinv. split.
  - intros c k f Hf. apply the_fetcher_Some in Hf as (call & Hc & Hk).
    apply lookup_lt_is_Some_2. by eapply own_fetcher_exists.
  - intros c1 k1 c2 k2 f1 f2 H1 H2 Hf.
    apply the_fetcher_Some in H1 as (call1 & Hc1 & Hk1).
    apply the_fetcher_Some in H2 as (call2 & Hc2 & Hk2).
    by eapply (own_fetchers_distinct _ c1 k1 c2 k2).
Qed.

(** ** Part files: what they hold *)




















